(** * outline-ss-server: the Shadowsocks stream codec and the cipher list

    A shallow embedding of [shadowsocks/stream.go] and
    [shadowsocks/cipher_list.go].

    Conventions.
    - A Go [byte] is a [Z] in [0, 256); a [[]byte] is a [list Z].
    - Go [int] lengths and slice indices are [nat]; the [int64] byte count
      of [readFrom] is a [Z] wrapped to 64 bits.
    - A Go [error] is a value of [error]; [nil] is [None].
    - Slices that alias a backing array ([sizeBuf], [payloadBuf]) are
      offsets into the one list that models the array.
    - Loops that depend on an external [io.Reader] take fuel and report
      [Diverged] when it runs out; the state reached so far is kept. *)

From Stdlib Require Import ZArith Lia.
From stdpp Require Import list strings.

Open Scope Z_scope.

(** ** Go runtime: bytes, errors, slices *)

Definition byte := Z.

Inductive error : Type :=
| io_EOF
| io_ErrUnexpectedEOF
| io_ErrShortBuffer
| Errorf (msg : string) (cause : error)
| ErrExternal (code : nat).

(** [err == io.EOF] *)
Definition is_EOF (e : error) : bool :=
  match e with io_EOF => true | _ => false end.

(** [err == io.ErrUnexpectedEOF] *)
Definition is_ErrUnexpectedEOF (e : error) : bool :=
  match e with io_ErrUnexpectedEOF => true | _ => false end.

Inductive result (A : Type) : Type :=
| Ok (a : A)
| Err (e : error).
Arguments Ok {A} a.
Arguments Err {A} e.

(** [copy(buf[off:], data)] for data that fits. *)
Definition write_at (off : nat) (data buf : list byte) : list byte :=
  take off buf ++ data ++ drop (off + length data) buf.

(** [append(buf[off:off], data...)]: the bytes land in the backing array
    when its capacity allows, otherwise [append] allocates and the array
    is left as it was. *)
Definition append_at (off : nat) (data buf : list byte) : list byte :=
  if decide (off + length data <= length buf)%nat
  then write_at off data buf else buf.

(** [buf[lo:hi]] *)
Definition slice (lo hi : nat) (buf : list byte) : list byte :=
  take (hi - lo) (drop lo buf).

(** [uint16(n)] and [int64(n)] conversions. *)
Definition uint16 (n : Z) : Z := n mod 65536.
Definition int64 (n : Z) : Z := (n + 2 ^ 63) mod 2 ^ 64 - 2 ^ 63.

(** [binary.BigEndian.PutUint16] and [binary.BigEndian.Uint16]. *)
Definition PutUint16 (v : Z) : list byte :=
  [Z.shiftr v 8 mod 256; v mod 256].

Definition Uint16 (b : list byte) : Z :=
  Z.lor (nth 1 b 0) (Z.shiftl (nth 0 b 0) 8).

(** ** The AEAD interfaces ([crypto/cipher.AEAD], [shadowaead.Cipher]) *)

(** [Overhead] is, as [cipher.AEAD] documents it, the maximum difference
    between the lengths of a plaintext and of its ciphertext. *)
Record AEAD : Type := {
  NonceSize : nat;
  Overhead : nat;
  Seal : list byte -> list byte -> list byte;
  Open : list byte -> list byte -> option (list byte);
  Seal_bound : forall nonce p,
    (length (Seal nonce p) <= length p + Overhead)%nat
}.

Record Cipher : Type := {
  SaltSize : nat;
  Encrypter : list byte -> result AEAD;
  Decrypter : list byte -> result AEAD
}.

(** The error of a failed [Open]. *)
Definition errOpen : error := ErrExternal 0.

(** ** [io.Writer], [io.Reader] and the entropy source *)

(** A sink records the argument of every [Write].  [sink_behaviour]
    decides, from the calls made so far (the current one included),
    whether the call fails, and after how many bytes. *)
Record Sink : Type := {
  sink_log : list (list byte);
  sink_behaviour : list (list byte) -> option (nat * error)
}.

Definition sink_Write (w : Sink) (b : list byte) : Sink * (nat * option error) :=
  let log := sink_log w ++ [b] in
  ({| sink_log := log; sink_behaviour := sink_behaviour w |},
   match sink_behaviour w log with
   | None => (length b, None)
   | Some (n, e) => (n `min` length b, Some e)
   end)%nat.

Definition new_sink (behaviour : list (list byte) -> option (nat * error)) : Sink :=
  {| sink_log := []; sink_behaviour := behaviour |}.

(** A sink that accepts everything, as [bytes.Buffer] does. *)
Definition reliable : list (list byte) -> option (nat * error) := fun _ => None.

(** An [io.Reader]: [R_read s cap] is [Read(b)] with [len(b) = cap];
    the contract [0 <= n <= len(b)] is part of the interface. *)
Record Reader : Type := {
  R_state : Type;
  R_read : R_state -> nat -> list byte * option error * R_state;
  R_read_bound : forall s cap, (length (R_read s cap).1.1 <= cap)%nat
}.

(** [bytes.Reader.Read]: EOF once the slice is used up, else a copy. *)
Definition bytes_Read (s : list byte) (cap : nat)
  : list byte * option error * list byte :=
  match s with
  | [] => ([], Some io_EOF, [])
  | _ => (take cap s, None, drop cap s)
  end.

Program Definition bytes_Reader : Reader :=
  {| R_state := list byte; R_read := bytes_Read |}.
Next Obligation.
  intros s cap. destruct s as [|x s]; simpl; [lia|].
  rewrite length_take. simpl. lia.
Qed.

(** [io.ReadFull(rand.Reader, salt)]: [draw k n] is the outcome of the
    [k]-th call, for a salt of [n] bytes. *)
Record Entropy : Type := {
  draw : nat -> nat -> result (list byte);
  draw_length : forall k n s, draw k n = Ok s -> length s = n
}.

(** [io.ReadFull] asks its reader for nothing when the buffer is empty. *)
Definition rand_ReadFull (e : Entropy) (k n : nat) : result (list byte) :=
  match n with
  | O => Ok []
  | _ => draw e k n
  end.

(** The stream a decrypting reader pulls from: the bytes it will still
    deliver, then [final] for ever ([io.EOF] for a closed connection). *)
Record Stream : Type := {
  remaining : list byte;
  final : error
}.

(** [io.ReadFull(r, buf)] with [len(buf) = n]: the bytes copied into
    [buf], and the error.  A short read is [io.ErrUnexpectedEOF] when some
    bytes arrived before an [io.EOF], and the reader's own error when none
    did. *)
Definition io_ReadFull (s : Stream) (n : nat)
  : Stream * list byte * option error :=
  if (n <=? length (remaining s))%nat then
    ({| remaining := drop n (remaining s); final := final s |},
     take n (remaining s), None)
  else
    ({| remaining := []; final := final s |},
     remaining s,
     Some (match remaining s with
           | [] => final s
           | _ => if is_EOF (final s) then io_ErrUnexpectedEOF else final s
           end)).

(** ** stream.go *)

(** [payloadSizeMask] is the maximum size of payload in bytes. *)
Definition payloadSizeMask : nat := Z.to_nat 0x3FFF.
Arguments payloadSizeMask : simpl never.

Inductive mode : Type := modeNormal | modeLazy | modeFlush.

Definition is_modeNormal (m : mode) : bool :=
  match m with modeNormal => true | _ => false end.
Definition is_modeLazy (m : mode) : bool :=
  match m with modeLazy => true | _ => false end.

Fixpoint isZero (b : list byte) : bool :=
  match b with
  | [] => true
  | v :: b' => if v =? 0 then isZero b' else false
  end.

(** increment little-endian encoded unsigned integer b.
    Wrap around on overflow. *)
Fixpoint increment (b : list byte) : list byte :=
  match b with
  | [] => []
  | v :: b' =>
      let v' := (v + 1) mod 256 in
      if v' =? 0 then v' :: increment b' else v' :: b'
  end.

(** What a call that may not return reports. *)
Inductive outcome : Type :=
| Returned (n : Z) (err : option error)
| Diverged.

Module shadowsocksWriter.

(** The struct, the entropy source it draws from ([rand], [rand_pos]
    counts the draws), and one ghost field: [sealed] lists the nonce
    and plaintext of every call of [Seal], oldest first.  [flush] is
    the [sync.Once]: [true] once its action has run. *)
Record t : Type := mk {
  writer : Sink;
  ssCipher : Cipher;
  flush : bool;
  pending : nat;
  buf : list byte;
  aead : option AEAD;
  counter : list byte;
  rand : Entropy;
  rand_pos : nat;
  sealed : list (list byte * list byte)
}.

Definition set_writer (w : Sink) (sw : t) : t :=
  mk w (ssCipher sw) (flush sw) (pending sw) (buf sw) (aead sw)
     (counter sw) (rand sw) (rand_pos sw) (sealed sw).
Definition set_flush (f : bool) (sw : t) : t :=
  mk (writer sw) (ssCipher sw) f (pending sw) (buf sw) (aead sw)
     (counter sw) (rand sw) (rand_pos sw) (sealed sw).
Definition set_pending (n : nat) (sw : t) : t :=
  mk (writer sw) (ssCipher sw) (flush sw) n (buf sw) (aead sw)
     (counter sw) (rand sw) (rand_pos sw) (sealed sw).
Definition set_buf (b : list byte) (sw : t) : t :=
  mk (writer sw) (ssCipher sw) (flush sw) (pending sw) b (aead sw)
     (counter sw) (rand sw) (rand_pos sw) (sealed sw).
Definition set_rand_pos (k : nat) (sw : t) : t :=
  mk (writer sw) (ssCipher sw) (flush sw) (pending sw) (buf sw) (aead sw)
     (counter sw) (rand sw) k (sealed sw).

(** [NewShadowsocksWriter] *)
Definition NewShadowsocksWriter (w : Sink) (c : Cipher) (e : Entropy) : t :=
  mk w c false 0 [] None [] e 0 [].

(** [init] generates a random salt, sets up the AEAD object and stores
    the salt at the start of [buf].  It hands back the AEAD that
    [sw.aead] holds when it returns [nil]. *)
Definition init (sw : t) : t * result AEAD :=
  match aead sw with
  | Some a => (sw, Ok a)
  | None =>
      let k := rand_pos sw in
      let sw := set_rand_pos (S k) sw in
      match rand_ReadFull (rand sw) k (SaltSize (ssCipher sw)) with
      | Err e => (sw, Err (Errorf "failed to generate salt" e))
      | Ok salt =>
          match Encrypter (ssCipher sw) salt with
          | Err e => (sw, Err (Errorf "failed to create AEAD" e))
          | Ok a =>
              let sizeBufSize := (2 + Overhead a)%nat in
              let maxPayloadBufSize := (payloadSizeMask + Overhead a)%nat in
              (mk (writer sw) (ssCipher sw) (flush sw) (pending sw)
                  (write_at 0 salt
                     (replicate (length salt + sizeBufSize + maxPayloadBufSize) 0))
                  (Some a) (replicate (NonceSize a) 0)
                  (rand sw) (rand_pos sw) (sealed sw),
               Ok a)
          end
      end
  end.

(** [encryptBlock] encrypts [buf[off:off+len]] in place and returns the
    total ciphertext length. *)
Definition encryptBlock (a : AEAD) (off len : nat) (sw : t) : t * nat :=
  let plaintext := slice off (off + len) (buf sw) in
  let out := Seal a (counter sw) plaintext in
  (mk (writer sw) (ssCipher sw) (flush sw) (pending sw)
      (append_at off out (buf sw)) (aead sw)
      (increment (counter sw)) (rand sw) (rand_pos sw)
      (sealed sw ++ [(counter sw, plaintext)]),
   length out).

(** One turn of the [for] loop of [readFrom].  [start] is the local of
    that name; [sizeBuf] is [buf[saltSize : saltSize+2+Overhead]] and
    [payloadBuf] is [buf[saltSize+len(sizeBuf):]]. *)
Definition readFrom_body (R : Reader) (a : AEAD) (m : mode)
    (r : R_state R) (sw : t) (start : nat) (written : Z)
  : t * R_state R * nat * Z * option error :=
  let saltSize := SaltSize (ssCipher sw) in
  let sizeBuf := saltSize in
  let len_sizeBuf := (2 + Overhead a)%nat in
  let payloadBuf := (saltSize + len_sizeBuf)%nat in
  let '(data, err, r) := R_read R r (payloadSizeMask - pending sw) in
  let plaintextSize := length data in
  let sw := set_buf (write_at (payloadBuf + pending sw) data (buf sw)) sw in
  let sw := set_pending (pending sw + plaintextSize) sw in
  let written := int64 (written + Z.of_nat plaintextSize) in
  if (pending sw =? payloadSizeMask)%nat
     || (negb (is_modeLazy m) && (0 <? pending sw)%nat)
  then
    let sw := set_buf (write_at sizeBuf
                         (PutUint16 (uint16 (Z.of_nat (pending sw))))
                         (buf sw)) sw in
    let '(sw, _) := encryptBlock a sizeBuf 2 sw in
    let '(sw, payloadSize) := encryptBlock a payloadBuf (pending sw) sw in
    let '(w, (_, err)) :=
      sink_Write (writer sw)
        (slice start (saltSize + len_sizeBuf + payloadSize) (buf sw)) in
    let sw := set_writer w sw in
    let sw := set_pending 0 sw in
    (sw, r, saltSize, written, err)
  else (sw, r, start, written, err).

Fixpoint readFrom_loop (fuel : nat) (R : Reader) (a : AEAD) (m : mode)
    (r : R_state R) (sw : t) (start : nat) (written : Z)
  : t * R_state R * outcome :=
  match fuel with
  | O => (sw, r, Diverged)
  | S fuel =>
      let '(sw, r, start, written, err) :=
        readFrom_body R a m r sw start written in
      match err with
      | Some e =>
          if is_EOF e then (sw, r, Returned written None)
          else (sw, r, Returned written
                        (Some (Errorf "Failed to read payload" e)))
      | None => readFrom_loop fuel R a m r sw start written
      end
  end.

Definition readFrom (fuel : nat) (R : Reader) (r : R_state R) (m : mode)
    (sw : t) : t * R_state R * outcome :=
  match init sw with
  | (sw, Err e) => (sw, r, Returned 0 (Some e))
  | (sw, Ok a) =>
      let sw := if is_modeNormal m then set_flush true sw else sw in
      let saltSize := SaltSize (ssCipher sw) in
      let start := if isZero (counter sw) then 0%nat else saltSize in
      readFrom_loop fuel R a m r sw start 0
  end.

Definition ReadFrom (fuel : nat) (R : Reader) (r : R_state R) (sw : t)
  : t * R_state R * outcome :=
  readFrom fuel R r modeNormal sw.

(** [write] wraps [p] in the [bytes.Reader] [byteWrapper].  That reader
    needs at most [len(p) + 2] turns of the loop (see [write_returns]). *)
Definition write (p : list byte) (m : mode) (sw : t) : t * outcome :=
  let '(sw, _, o) := readFrom (length p + 2) bytes_Reader p m sw in
  (sw, o).

Definition Write (p : list byte) (sw : t) : t * outcome :=
  write p modeNormal sw.

Definition LazyWrite (p : list byte) (sw : t) : t * outcome :=
  write p modeLazy (set_flush false sw).

(** [sw.flush.Do(...)]: the action runs only if the [Once] is fresh. *)
Definition Flush (sw : t) : t * outcome :=
  if flush sw then (sw, Returned 0 None)
  else
    let '(sw, o) := write [] modeFlush sw in
    (set_flush true sw, o).

(** A client of the [Writer] interface: a sequence of calls.  A call
    that does not return ends the sequence. *)
Inductive call : Type :=
| CallWrite (p : list byte)
| CallLazyWrite (p : list byte)
| CallFlush
| CallReadFrom (R : Reader) (r : R_state R) (fuel : nat).

Definition exec (c : call) (sw : t) : t * outcome :=
  match c with
  | CallWrite p => Write p sw
  | CallLazyWrite p => LazyWrite p sw
  | CallFlush => Flush sw
  | CallReadFrom R r fuel =>
      let '(sw, _, o) := ReadFrom fuel R r sw in (sw, o)
  end.

Fixpoint run (cs : list call) (sw : t) : t :=
  match cs with
  | [] => sw
  | c :: cs =>
      match exec c sw with
      | (sw, Diverged) => sw
      | (sw, Returned _ _) => run cs sw
      end
  end.

End shadowsocksWriter.

Module chunkReader.

Record t : Type := mk {
  reader : Stream;
  ssCipher : Cipher;
  aead : option AEAD;
  counter : list byte;
  buf : list byte
}.

Definition set_reader (s : Stream) (cr : t) : t :=
  mk s (ssCipher cr) (aead cr) (counter cr) (buf cr).
Definition set_buf (b : list byte) (cr : t) : t :=
  mk (reader cr) (ssCipher cr) (aead cr) (counter cr) b.
Definition set_counter (n : list byte) (cr : t) : t :=
  mk (reader cr) (ssCipher cr) (aead cr) n (buf cr).

(** [init] reads the salt from the inner Reader and sets up the AEAD
    object. *)
Definition init (cr : t) : t * result AEAD :=
  match aead cr with
  | Some a => (cr, Ok a)
  | None =>
      let '(s, salt, err) :=
        io_ReadFull (reader cr) (SaltSize (ssCipher cr)) in
      let cr := set_reader s cr in
      match err with
      | Some e =>
          (cr, Err (if negb (is_EOF e) && negb (is_ErrUnexpectedEOF e)
                    then Errorf "failed to read salt" e else e))
      | None =>
          match Decrypter (ssCipher cr) salt with
          | Err e => (cr, Err (Errorf "failed to create AEAD" e))
          | Ok a =>
              (mk (reader cr) (ssCipher cr) (Some a)
                  (replicate (NonceSize a) 0)
                  (replicate (payloadSizeMask + Overhead a) 0),
               Ok a)
          end
      end
  end.

(** [readMessage] reads, decrypts and verifies a single AEAD ciphertext
    into [buf[:n]]; the decrypted message is placed at the start of
    [buf].  What a failed [Open] leaves in the buffer is not used. *)
Definition readMessage (a : AEAD) (n : nat) (cr : t) : t * option error :=
  let '(s, data, err) := io_ReadFull (reader cr) n in
  let cr := set_reader s cr in
  let cr := set_buf (write_at 0 data (buf cr)) cr in
  match err with
  | Some e => (cr, Some e)
  | None =>
      let opened := Open a (counter cr) (slice 0 n (buf cr)) in
      let cr := match opened with
                | Some plaintext => set_buf (append_at 0 plaintext (buf cr)) cr
                | None => cr
                end in
      let cr := set_counter (increment (counter cr)) cr in
      match opened with
      | None => (cr, Some (Errorf "failed to decrypt" errOpen))
      | Some _ => (cr, None)
      end
  end.

Definition ReadChunk (cr : t) : t * result (list byte) :=
  match init cr with
  | (cr, Err e) => (cr, Err e)
  | (cr, Ok a) =>
      let sizeBuf := (2 + Overhead a)%nat in
      match readMessage a sizeBuf cr with
      | (cr, Some e) =>
          (cr, Err (if negb (is_EOF e) && negb (is_ErrUnexpectedEOF e)
                    then Errorf "failed to read payload size" e else e))
      | (cr, None) =>
          let size :=
            Z.to_nat (Z.land (Uint16 (buf cr)) (Z.of_nat payloadSizeMask)) in
          let sizeWithTag := (size + Overhead a)%nat in
          if (length (buf cr) <? sizeWithTag)%nat
          then (cr, Err io_ErrShortBuffer)
          else
            match readMessage a sizeWithTag cr with
            | (cr, Some e) =>
                (cr, Err (if is_EOF e then io_ErrUnexpectedEOF else e))
            | (cr, None) => (cr, Ok (slice 0 size (buf cr)))
            end
      end
  end.

End chunkReader.

Module readConverter.

(** [leftover] aliases the chunk reader's buffer; [ReadChunk] is only
    called once it is empty, so a copy of its bytes stands for it. *)
Record t : Type := mk {
  cr : chunkReader.t;
  leftover : list byte
}.

(** [NewShadowsocksReader] *)
Definition NewShadowsocksReader (reader : Stream) (ssCipher : Cipher) : t :=
  mk (chunkReader.mk reader ssCipher None [] []) [].

(** Ensures that [leftover] is nonempty, reading a chunk if need be. *)
Definition ensureLeftover (c : t) : t * option error :=
  if (0 <? length (leftover c))%nat then (c, None)
  else
    match chunkReader.ReadChunk (cr c) with
    | (cr', Err e) => (mk cr' (leftover c), Some e)
    | (cr', Ok payload) => (mk cr' payload, None)
    end.

(** [Read(b)] with [len(b) = cap]: the bytes copied into [b]. *)
Definition Read (cap : nat) (c : t) : t * (list byte * option error) :=
  match ensureLeftover c with
  | (c, Some e) => (c, ([], Some e))
  | (c, None) =>
      (mk (cr c) (drop cap (leftover c)), (take cap (leftover c), None))
  end.

Fixpoint WriteTo (fuel : nat) (w : Sink) (c : t) (written : Z)
  : t * Sink * outcome :=
  match fuel with
  | O => (c, w, Diverged)
  | S fuel =>
      match ensureLeftover c with
      | (c, Some e) =>
          (c, w, Returned written (if is_EOF e then None else Some e))
      | (c, None) =>
          let '(w, (n, err)) := sink_Write w (leftover c) in
          let written := int64 (written + Z.of_nat n) in
          let c := mk (cr c) (drop n (leftover c)) in
          match err with
          | Some e => (c, w, Returned written (Some e))
          | None => WriteTo fuel w c written
          end
      end
  end.

End readConverter.

(** ** cipher_list.go *)

Module cipherList.

(** [net.IP] is a byte slice; [None] is the nil slice. *)
Definition IP : Type := option (list byte).

Definition v4InV6Prefix : list byte := [0; 0; 0; 0; 0; 0; 0; 0; 0; 0; 255; 255].

(** [net.IP.Equal]: equal bytes, or an IPv4 address and its IPv4-in-IPv6
    form.  A nil slice has length 0. *)
Definition IP_Equal (ip x : IP) : bool :=
  let ip := default [] ip in
  let x := default [] x in
  if (length ip =? length x)%nat then bool_decide (ip = x)
  else if (length ip =? 4)%nat && (length x =? 16)%nat then
    bool_decide (take 12 x = v4InV6Prefix) && bool_decide (ip = drop 12 x)
  else if (length ip =? 16)%nat && (length x =? 4)%nat then
    bool_decide (take 12 ip = v4InV6Prefix) && bool_decide (drop 12 ip = x)
  else false.

(** CipherEntry holds a Cipher with an identifier. *)
Record CipherEntry : Type := {
  ID : string;
  Cipher_ : Cipher;
  lastClientIP : IP
}.

(** A [*list.Element] of [container/list]: [handle] is the pointer, and
    [Value] the [CipherEntry] it points to. *)
Record Element : Type := {
  handle : nat;
  Value : CipherEntry
}.

(** The [list.List], front first, and the allocator for the next
    element. *)
Record t : Type := mk {
  list_ : list Element;
  next_handle : nat
}.

(** [NewCipherList] creates an empty CipherList. *)
Definition NewCipherList : t := mk [] 0.

Definition PushBack (id : string) (cipher : Cipher) (cl : t) : t * Element :=
  let e := {| handle := next_handle cl;
              Value := {| ID := id; Cipher_ := cipher; lastClientIP := None |} |} in
  (mk (list_ cl ++ [e]) (S (next_handle cl)), e).

Definition matchesIP (e : Element) (clientIP : IP) : bool :=
  match clientIP with
  | None => false
  | Some _ => IP_Equal clientIP (lastClientIP (Value e))
  end.

(** The [for] loop of [SafeSnapshotForClientIP] over the list, with its
    two arrays. *)
Fixpoint snapshot_loop (clientIP : IP) (l : list Element)
    (cipherArray remainingCiphers : list Element)
  : list Element * list Element :=
  match l with
  | [] => (cipherArray, remainingCiphers)
  | e :: l =>
      if matchesIP e clientIP
      then snapshot_loop clientIP l (cipherArray ++ [e]) remainingCiphers
      else snapshot_loop clientIP l cipherArray (remainingCiphers ++ [e])
  end.

Definition SafeSnapshotForClientIP (clientIP : IP) (cl : t) : list Element :=
  let '(cipherArray, remainingCiphers) :=
    snapshot_loop clientIP (list_ cl) [] [] in
  cipherArray ++ remainingCiphers.

Definition has_handle (h : nat) (e : Element) : bool := (handle e =? h)%nat.

(** [list.MoveToFront(e)]: nothing happens when [e] is not an element of
    this list. *)
Definition MoveToFront (h : nat) (l : list Element) : list Element :=
  match List.find (has_handle h) l with
  | Some e => e :: List.filter (fun x => negb (has_handle h x)) l
  | None => l
  end.

Definition set_lastClientIP (clientIP : IP) (e : Element) : Element :=
  {| handle := handle e;
     Value := {| ID := ID (Value e); Cipher_ := Cipher_ (Value e);
                 lastClientIP := clientIP |} |}.

(** [SafeMarkUsedByClientIP(e, clientIP)], [e] being the element whose
    pointer is [h]: the element moves to the front and the entry it
    points to gets the address. *)
Definition SafeMarkUsedByClientIP (h : nat) (clientIP : IP) (cl : t) : t :=
  mk (List.map (fun x => if has_handle h x then set_lastClientIP clientIP x else x)
        (MoveToFront h (list_ cl)))
     (next_handle cl).

End cipherList.

(** ** A test cipher

    [testAEAD] leaves the plaintext as it is and appends a one-byte tag,
    the low byte of the nonce; [Open] checks the tag.  Salt of 2 bytes,
    nonce of 12. *)

Definition test_Seal (nonce p : list byte) : list byte := p ++ [hd 0 nonce].

Definition test_Open (nonce c : list byte) : option (list byte) :=
  match last c with
  | Some tag =>
      if tag =? hd 0 nonce then Some (take (length c - 1) c) else None
  | None => None
  end.

Program Definition testAEAD : AEAD :=
  {| NonceSize := 12; Overhead := 1; Seal := test_Seal; Open := test_Open |}.
Next Obligation.
  intros nonce p. unfold test_Seal. rewrite length_app. simpl. lia.
Qed.

Definition testCipher : Cipher :=
  {| SaltSize := 2;
     Encrypter := fun _ => Ok testAEAD;
     Decrypter := fun _ => Ok testAEAD |}.

Program Definition testEntropy : Entropy :=
  {| draw := fun k n => Ok (replicate n 7) |}.
Next Obligation.
  intros k n s H. injection H as <-. apply length_replicate.
Qed.

(** ** Reading the traces

    The properties of the ghost log of [Seal] calls and of the sink log
    are stated against these. *)

(** The value of a little-endian counter. *)
Fixpoint le_value (b : list byte) : Z :=
  match b with
  | [] => 0
  | v :: b' => v + 256 * le_value b'
  end.

(** The counter after [k] increments of the all-zero counter of [ns]
    bytes. *)
Definition nonce_of (ns k : nat) : list byte :=
  Nat.iter k increment (replicate ns 0).

(** The two [Seal] calls of chunk number [k] with payload [c]. *)
Definition chunk_seals (ns k : nat) (c : list byte)
  : list (list byte * list byte) :=
  [ (nonce_of ns (2 * k), PutUint16 (uint16 (Z.of_nat (length c))));
    (nonce_of ns (2 * k + 1), c) ].

Definition seal_trace (ns : nat) (chunks : list (list byte))
  : list (list byte * list byte) :=
  concat (imap (chunk_seals ns) chunks).

(** Chunk number [k] on the wire: the sealed length, then the sealed
    payload. *)
Definition frame (a : AEAD) (k : nat) (c : list byte) : list byte :=
  Seal a (nonce_of (NonceSize a) (2 * k))
       (PutUint16 (uint16 (Z.of_nat (length c))))
  ++ Seal a (nonce_of (NonceSize a) (2 * k + 1)) c.

(** The sink writes of a writer that sent [chunks]: the first carries
    the salt. *)
Definition wire_writes (a : AEAD) (salt : list byte)
    (chunks : list (list byte)) : list (list byte) :=
  imap (fun k c => match k with
                   | O => salt ++ frame a k c
                   | S _ => frame a k c
                   end) chunks.

(** An AEAD whose ciphertexts are exactly [Overhead] bytes longer than
    their plaintexts, and which opens what it sealed. *)
Definition exact_overhead (a : AEAD) : Prop :=
  forall nonce p, length (Seal a nonce p) = (length p + Overhead a)%nat.

Definition opens (enc dec : AEAD) : Prop :=
  NonceSize dec = NonceSize enc
  /\ Overhead dec = Overhead enc
  /\ forall nonce p, Open dec nonce (Seal enc nonce p) = Some p.

(** The [if] of the loop of [readFrom]: does a turn that leaves [n]
    bytes pending emit a chunk? *)
Definition emits (m : mode) (n : nat) : bool :=
  (n =? payloadSizeMask)%nat || (negb (is_modeLazy m) && (0 <? n)%nat).

(** Every element is a byte. *)
Definition bytes_valid (b : list byte) : Prop :=
  Forall (fun v => 0 <= v < 256) b.

(** What one turn of the loop of [readFrom] does to the chunks sent and
    to the pending bytes, when [Read] delivers [data]. *)
Definition ghost_step (m : mode) (chunks : list (list byte))
    (pend data : list byte) : list (list byte) * list byte :=
  if emits m (length (pend ++ data))
  then (chunks ++ [pend ++ data], [])
  else (chunks, pend ++ data).

(** A chunk that respects the size discipline. *)
Definition chunk_ok (c : list byte) : Prop :=
  (1 <= length c <= payloadSizeMask)%nat.

(** Fewer [Seal] calls than the counter has values: [n] chunks were
    sent and the counter never came back to zero in between. *)
Definition nowrap (ns n : nat) : Prop :=
  2 * Z.of_nat n <= 256 ^ Z.of_nat ns.

(** The state of a writer for cipher [c] that started on an empty sink,
    has sent [chunks] and holds [pend] in the pending slot. *)
Record writer_inv (c : Cipher) (sw : shadowsocksWriter.t)
    (chunks : list (list byte)) (pend : list byte) : Prop := {
  inv_cipher : shadowsocksWriter.ssCipher sw = c;
  inv_pending : shadowsocksWriter.pending sw = length pend;
  inv_room : (length pend < payloadSizeMask)%nat;
  inv_chunks : Forall chunk_ok chunks;
  inv_log :
    length (sink_log (shadowsocksWriter.writer sw)) = length chunks;
  inv_state :
    match shadowsocksWriter.aead sw with
    | None => pend = [] /\ chunks = [] /\ shadowsocksWriter.sealed sw = []
    | Some a =>
        exists salt sz tail,
          shadowsocksWriter.buf sw = salt ++ sz ++ pend ++ tail
          /\ length salt = SaltSize c
          /\ length sz = (2 + Overhead a)%nat
          /\ length (pend ++ tail) = (payloadSizeMask + Overhead a)%nat
          /\ Encrypter c salt = Ok a
          /\ shadowsocksWriter.counter sw
             = nonce_of (NonceSize a) (2 * length chunks)
          /\ shadowsocksWriter.sealed sw = seal_trace (NonceSize a) chunks
          /\ (exact_overhead a -> nowrap (NonceSize a) (length chunks) ->
              sink_log (shadowsocksWriter.writer sw)
              = wire_writes a salt chunks)
          /\ (exists k, rand_ReadFull (shadowsocksWriter.rand sw) k (SaltSize c)
                        = Ok salt)
    end
}.

(** The local [start] of [readFrom], for a writer that has sent
    [chunks] and can send one more before the counter wraps. *)
Definition start_ok (c : Cipher) (a : AEAD) (start : nat)
    (chunks : list (list byte)) : Prop :=
  nowrap (NonceSize a) (S (length chunks)) ->
  start = match chunks with [] => 0%nat | _ => SaltSize c end.

(** The bytes in the pending slot: [payloadBuf[:sw.pending]]. *)
Definition pending_bytes (a : AEAD) (sw : shadowsocksWriter.t) : list byte :=
  let payloadBuf :=
    (SaltSize (shadowsocksWriter.ssCipher sw) + (2 + Overhead a))%nat in
  slice payloadBuf (payloadBuf + shadowsocksWriter.pending sw)
        (shadowsocksWriter.buf sw).

(** Where a chunk reader stands once the salt is behind it: its AEAD,
    its counter, and the bytes the stream still holds.  For a reader that
    has not read the salt this is defined when the stream holds a whole
    salt from which [Decrypter] derives an AEAD. *)
Definition chunk_input (cr : chunkReader.t)
  : option (AEAD * list byte * list byte) :=
  let rem := remaining (chunkReader.reader cr) in
  match chunkReader.aead cr with
  | Some a => Some (a, chunkReader.counter cr, rem)
  | None =>
      let n := SaltSize (chunkReader.ssCipher cr) in
      if (n <=? length rem)%nat then
        match Decrypter (chunkReader.ssCipher cr) (take n rem) with
        | Ok a => Some (a, replicate (NonceSize a) 0, drop n rem)
        | Err _ => None
        end
      else None
  end.

(** The buffer of an initialised chunk reader has its allotted size. *)
Definition reader_wf (cr : chunkReader.t) : Prop :=
  forall a, chunkReader.aead cr = Some a ->
    length (chunkReader.buf cr) = (payloadSizeMask + Overhead a)%nat.

(** A cipher the server supports: from every salt of the right size it
    derives a sealing and an opening AEAD that match, of exact overhead,
    with a counter of at least two bytes. *)
Definition supported (c : Cipher) : Prop :=
  forall salt, length salt = SaltSize c ->
    exists enc dec,
      Encrypter c salt = Ok enc /\ Decrypter c salt = Ok dec
      /\ exact_overhead enc /\ (2 <= NonceSize enc)%nat /\ opens enc dec.

(** ** Clients of the writer and of the reader *)

(** What a call hands to the writer. *)
Definition input (cl : shadowsocksWriter.call) : list byte :=
  match cl with
  | shadowsocksWriter.CallWrite p => p
  | shadowsocksWriter.CallLazyWrite p => p
  | _ => []
  end.

(** A call on a slice: [Write], [LazyWrite] or [Flush]. *)
Definition slice_call (cl : shadowsocksWriter.call) : Prop :=
  match cl with
  | shadowsocksWriter.CallReadFrom _ _ _ => False
  | _ => True
  end.

(** An entropy source that never fails. *)
Definition entropy_ok (e : Entropy) : Prop :=
  forall k n, exists s, draw e k n = Ok s.

(** The state of a run of slice calls on a sink that takes every write. *)
Definition slice_inv (c : Cipher) (sw : shadowsocksWriter.t)
    (chunks : list (list byte)) (pend : list byte) : Prop :=
  writer_inv c sw chunks pend
  /\ sink_behaviour (shadowsocksWriter.writer sw) = reliable
  /\ (is_Some (shadowsocksWriter.aead sw)
      \/ entropy_ok (shadowsocksWriter.rand sw)).

(** Every call of the sequence returns. *)
Fixpoint completes (cs : list shadowsocksWriter.call)
    (sw : shadowsocksWriter.t) : Prop :=
  match cs with
  | [] => True
  | cl :: cs =>
      match shadowsocksWriter.exec cl sw with
      | (sw', Returned _ _) => completes cs sw'
      | (_, Diverged) => False
      end
  end.

(** An entropy source whose every draw fails. *)
Program Definition noEntropy : Entropy :=
  {| draw := fun _ _ => Err (ErrExternal 1) |}.
Next Obligation. intros k n s H. discriminate H. Qed.

(** A reader that delivers [data] together with the error [e], then
    [io.EOF]: the [io.Reader] contract allows a [Read] to return bytes
    and an error at once. *)
Definition once_Read (data : list byte) (e : error) (s : bool) (cap : nat)
  : list byte * option error * bool :=
  if s then ([], Some io_EOF, true) else (take cap data, Some e, true).

Program Definition once_Reader (data : list byte) (e : error) : Reader :=
  {| R_state := bool; R_read := once_Read data e |}.
Next Obligation.
  intros data e s cap. destruct s; simpl; [lia|].
  rewrite length_take. lia.
Qed.

(** The error of a short [io.ReadFull]. *)
Definition short_read (s : Stream) : error :=
  match remaining s with
  | [] => final s
  | _ => if is_EOF (final s) then io_ErrUnexpectedEOF else final s
  end.

(** A client of [Read]: it calls [Read] with a buffer of [cap] bytes
    until [Read] reports an error, and collects the bytes.  [None] when
    the fuel runs out first. *)
Fixpoint read_all (fuel cap : nat) (c : readConverter.t)
  : option (list byte * error) :=
  match fuel with
  | O => None
  | S fuel =>
      match readConverter.Read cap c with
      | (_, (_, Some e)) => Some ([], e)
      | (c, (data, None)) =>
          match read_all fuel cap c with
          | Some (rest, e) => Some (data ++ rest, e)
          | None => None
          end
      end
  end.

(** [k] calls of [ReadChunk] that all return a payload: the reader they
    leave, and the payloads. *)
Fixpoint read_chunks (k : nat) (cr : chunkReader.t)
  : option (chunkReader.t * list (list byte)) :=
  match k with
  | O => Some (cr, [])
  | S k =>
      match chunkReader.ReadChunk cr with
      | (cr, Ok pt) =>
          match read_chunks k cr with
          | Some (cr, pts) => Some (cr, pt :: pts)
          | None => None
          end
      | (_, Err _) => None
      end
  end.

(** * Properties *)

(** The mask is only ever used through its value. *)
Lemma mask_val : Z.of_nat payloadSizeMask = 16383.
Proof. reflexivity. Qed.

Global Opaque payloadSizeMask.

(** ** The cipher list *)

Section CipherListFacts.
Import cipherList.

Lemma IP_Equal_refl (ip : IP) : IP_Equal ip ip = true.
Proof.
  unfold IP_Equal. rewrite Nat.eqb_refl. by apply bool_decide_eq_true.
Qed.

Lemma snapshot_loop_spec (ip : IP) (l front rest : list Element) :
  snapshot_loop ip l front rest =
  (front ++ filter (λ e, matchesIP e ip) l,
   rest ++ filter (λ e, ¬ matchesIP e ip) l).
Proof.
  revert front rest. induction l as [|e l IH]; intros front rest; simpl.
  - by rewrite !app_nil_r.
  - rewrite !filter_cons.
    destruct (matchesIP e ip) eqn:He; rewrite IH;
      repeat case_decide; simpl in *; try tauto;
      by rewrite <- ?app_assoc.
Qed.

Lemma snapshot_partition (ip : IP) (cl : t) :
  SafeSnapshotForClientIP ip cl =
  filter (λ e, matchesIP e ip) (list_ cl)
  ++ filter (λ e, ¬ matchesIP e ip) (list_ cl).
Proof.
  unfold SafeSnapshotForClientIP. by rewrite snapshot_loop_spec.
Qed.

Lemma find_has_handle (l : list Element) (e : Element) :
  NoDup (handle <$> l) → e ∈ l →
  List.find (has_handle (handle e)) l = Some e.
Proof.
  intros Hnd Hin. induction l as [|x l IH]; simpl.
  - by apply elem_of_nil in Hin.
  - rewrite fmap_cons in Hnd. apply NoDup_cons in Hnd as [Hx Hnd].
    apply elem_of_cons in Hin as [->|Hin].
    + unfold has_handle. by rewrite Nat.eqb_refl.
    + destruct (has_handle (handle e) x) eqn:Hh; [|by apply IH].
      apply Nat.eqb_eq in Hh. exfalso. apply Hx. rewrite Hh.
      apply list_elem_of_fmap. by exists e.
Qed.

Lemma MoveToFront_handles (h : nat) (l : list Element) :
  NoDup (handle <$> l) → NoDup (handle <$> MoveToFront h l).
Proof.
  intros Hnd. unfold MoveToFront.
  destruct (List.find (has_handle h) l) as [e|] eqn:Hfind; [|done].
  apply find_some in Hfind as [Hin Hh]. apply Nat.eqb_eq in Hh.
  rewrite fmap_cons. apply NoDup_cons. split.
  - intros Hel. apply list_elem_of_fmap in Hel as (x & Hx & Hxin).
    apply list_elem_of_In, filter_In in Hxin as [_ Hne].
    unfold has_handle in Hne. apply negb_true_iff, Nat.eqb_neq in Hne.
    congruence.
  - clear Hin. induction l as [|x l IH]; [constructor|].
    rewrite fmap_cons in Hnd. apply NoDup_cons in Hnd as [Hx Hnd].
    simpl. destruct (negb (has_handle h x)); [|by apply IH].
    rewrite fmap_cons. apply NoDup_cons. split; [|by apply IH].
    intros Hel. apply Hx.
    apply list_elem_of_fmap in Hel as (y & Hy & Hyin).
    apply list_elem_of_fmap. exists y. split; [done|].
    apply list_elem_of_In. apply list_elem_of_In, filter_In in Hyin.
    apply Hyin.
Qed.

(** The element pointers of a list are distinct: this holds of the
    empty list and is kept by [PushBack] and [SafeMarkUsedByClientIP]. *)
Lemma handles_distinct_kept (cl : cipherList.t) :
  NoDup (handle <$> list_ cl) →
  Forall (λ e, handle e < next_handle cl)%nat (list_ cl) →
  (∀ id cipher,
     let cl' := (PushBack id cipher cl).1 in
     NoDup (handle <$> list_ cl')
     ∧ Forall (λ e, handle e < next_handle cl')%nat (list_ cl'))
  ∧ (∀ h ip,
       NoDup (handle <$> list_ (SafeMarkUsedByClientIP h ip cl))).
Proof.
  intros Hnd Hlt. split.
  - intros id cipher. simpl. split.
    + rewrite fmap_app. apply NoDup_app. split_and!; [done| |].
      * intros x Hx Hx'. simpl in Hx'.
        apply list_elem_of_singleton in Hx' as ->.
        apply list_elem_of_fmap in Hx as (y & Heq & Hy).
        rewrite Forall_forall in Hlt. specialize (Hlt y Hy). lia.
      * simpl. apply NoDup_singleton.
    + apply Forall_app. split.
      * eapply Forall_impl; [exact Hlt|]. simpl. intros; lia.
      * constructor; [simpl; lia|constructor].
  - intros h ip. unfold SafeMarkUsedByClientIP. cbn [list_].
    assert (∀ l : list Element,
              handle <$> List.map (λ x, if has_handle h x
                                        then set_lastClientIP ip x else x) l
              = handle <$> l) as ->.
    { induction l as [|x l IH]; [done|]. cbn [List.map].
      rewrite !fmap_cons, IH. by destruct (has_handle h x). }
    by apply MoveToFront_handles.
Qed.

(** C9. For a non-nil client address, the snapshot is the elements that
    match the address, in list order, followed by the others, in list
    order, and it holds every element of the list exactly once.  After
    [SafeMarkUsedByClientIP(e, ip)] for an element [e] of a list whose
    element pointers are distinct, the snapshot for [ip] starts with [e],
    now carrying [ip]. *)
Theorem snapshot_affinity_order (addr : list byte) (cl : cipherList.t) :
  let ip := Some addr in
  SafeSnapshotForClientIP ip cl =
    filter (λ x, IP_Equal ip (lastClientIP (Value x))) (list_ cl)
    ++ filter (λ x, ¬ IP_Equal ip (lastClientIP (Value x))) (list_ cl)
  ∧ SafeSnapshotForClientIP ip cl ≡ₚ list_ cl
  ∧ ∀ e, NoDup (handle <$> list_ cl) → e ∈ list_ cl →
      head (SafeSnapshotForClientIP ip
              (SafeMarkUsedByClientIP (handle e) ip cl))
      = Some (set_lastClientIP ip e).
Proof.
  intros ip. split; [apply snapshot_partition|].
  split.
  - rewrite snapshot_partition. apply filter_app_complement.
  - intros e Hnd Hin.
    rewrite snapshot_partition. unfold SafeMarkUsedByClientIP, MoveToFront.
    rewrite (find_has_handle _ _ Hnd Hin). simpl.
    unfold has_handle at 1. rewrite Nat.eqb_refl.
    rewrite filter_cons_True; [done|].
    simpl. by rewrite IP_Equal_refl.
Qed.

Lemma snapshot_affinity_order_witness :
  let e := {| handle := 1;
              Value := {| ID := "b"; Cipher_ := testCipher;
                          lastClientIP := None |} |} in
  let cl := cipherList.mk
              [ {| handle := 0;
                   Value := {| ID := "a"; Cipher_ := testCipher;
                               lastClientIP := Some [10; 0; 0; 1] |} |}; e ] 2 in
  NoDup (handle <$> list_ cl) ∧ e ∈ list_ cl
  ∧ head (SafeSnapshotForClientIP (Some [10; 0; 0; 2])
            (SafeMarkUsedByClientIP 1 (Some [10; 0; 0; 2]) cl))
    = Some (set_lastClientIP (Some [10; 0; 0; 2]) e).
Proof.
  intros e cl.
  assert (NoDup (handle <$> list_ cl)) as Hnd
    by (apply (bool_decide_unpack _); vm_compute; exact I).
  assert (e ∈ list_ cl) as Hin
    by (simpl; apply list_elem_of_In; simpl; auto).
  split; [exact Hnd|]. split; [exact Hin|].
  exact (proj2 (proj2 (snapshot_affinity_order [10; 0; 0; 2] cl)) e Hnd Hin).
Defined.

Lemma snapshot_loop_nil (l front rest : list Element) :
  snapshot_loop None l front rest = (front, rest ++ l).
Proof.
  revert rest. induction l as [|e l IH]; intros rest; simpl.
  - by rewrite app_nil_r.
  - rewrite IH. by rewrite <- app_assoc.
Qed.

(** C10. For the nil client address the snapshot is the list as it
    stands: no element matches, so none is moved, whatever its
    [lastClientIP], the unset one included. *)
Theorem snapshot_nil_is_list_order (cl : cipherList.t) :
  SafeSnapshotForClientIP None cl = list_ cl
  ∧ SafeSnapshotForClientIP None cl ≡ₚ list_ cl
  ∧ ∀ e, matchesIP e None = false.
Proof.
  assert (SafeSnapshotForClientIP None cl = list_ cl) as ->; [|done].
  unfold SafeSnapshotForClientIP. by rewrite snapshot_loop_nil.
Qed.

End CipherListFacts.

(** ** Slices of the backing arrays *)

Section Slices.
Implicit Types (l k d : list byte) (off : nat).

Lemma length_write_at off d l :
  (off + length d <= length l)%nat → length (write_at off d l) = length l.
Proof.
  intros H. unfold write_at.
  rewrite !length_app, length_take, length_drop. lia.
Qed.

Lemma write_at_0 d l : write_at 0 d l = d ++ drop (length d) l.
Proof. reflexivity. Qed.

Lemma write_at_app_r l1 l2 d off :
  write_at (length l1 + off) d (l1 ++ l2) = l1 ++ write_at off d l2.
Proof.
  unfold write_at.
  rewrite take_app_ge, drop_app_ge by lia.
  replace (length l1 + off - length l1)%nat with off by lia.
  replace (length l1 + off + length d - length l1)%nat
    with (off + length d)%nat by lia.
  by rewrite <- !app_assoc.
Qed.

Lemma write_at_app_l l1 l2 d off :
  (off + length d <= length l1)%nat →
  write_at off d (l1 ++ l2) = write_at off d l1 ++ l2.
Proof.
  intros H. unfold write_at.
  rewrite take_app_le, drop_app_le by lia.
  by rewrite <- !app_assoc.
Qed.

Lemma append_at_fits off d l :
  (off + length d <= length l)%nat → append_at off d l = write_at off d l.
Proof. intros H. unfold append_at. by rewrite decide_True. Qed.

Lemma length_append_at off d l : length (append_at off d l) = length l.
Proof.
  unfold append_at. case_decide; [|done]. by apply length_write_at.
Qed.

Lemma slice_0_app l k : slice 0 (length l) (l ++ k) = l.
Proof.
  unfold slice. rewrite Nat.sub_0_r. simpl. apply take_app_length.
Qed.

Lemma slice_app_r l1 l2 lo hi :
  slice (length l1 + lo) (length l1 + hi) (l1 ++ l2) = slice lo hi l2.
Proof.
  unfold slice. rewrite drop_app_ge by lia.
  f_equal; [lia|]. f_equal. lia.
Qed.

Lemma slice_app_l l1 l2 lo hi :
  (hi <= length l1)%nat → slice lo hi (l1 ++ l2) = slice lo hi l1.
Proof.
  intros H. unfold slice.
  destruct (decide (lo <= length l1)%nat).
  - rewrite drop_app_le by lia. rewrite take_app_le; [done|].
    rewrite length_drop. lia.
  - replace (hi - lo)%nat with 0%nat by lia. done.
Qed.

(** Three regions: [l1] (the salt), [l2] (the size block), [l3] (the
    payload block). *)

Lemma write_at_region2 l1 l2 l3 d a :
  length l1 = a → (length d <= length l2)%nat →
  write_at a d (l1 ++ l2 ++ l3) = l1 ++ (d ++ drop (length d) l2) ++ l3.
Proof.
  intros <- Hd. replace (length l1) with (length l1 + 0)%nat at 1 by lia.
  rewrite write_at_app_r, write_at_app_l by (simpl; lia).
  by rewrite write_at_0.
Qed.

Lemma write_at_region3 l1 l2 l3 d a b p :
  length l1 = a → length l2 = b → (p <= length l3)%nat →
  write_at (a + b + p) d (l1 ++ l2 ++ l3)
  = l1 ++ l2 ++ take p l3 ++ d ++ drop (p + length d) l3.
Proof.
  intros <- <- Hp. rewrite <- Nat.add_assoc.
  rewrite !write_at_app_r. done.
Qed.

Lemma write_at_region3_start l1 l2 l3 d a b :
  length l1 = a → length l2 = b →
  write_at (a + b) d (l1 ++ l2 ++ l3) = l1 ++ l2 ++ d ++ drop (length d) l3.
Proof.
  intros <- <-. replace (length l1 + length l2)%nat
    with (length l1 + (length l2 + 0))%nat by lia.
  by rewrite !write_at_app_r.
Qed.

Lemma slice_region2 l1 l2 l3 a n :
  length l1 = a → (n <= length l2)%nat →
  slice a (a + n) (l1 ++ l2 ++ l3) = take n l2.
Proof.
  intros <- Hn. replace (length l1) with (length l1 + 0)%nat at 1 by lia.
  rewrite slice_app_r, slice_app_l by lia.
  unfold slice. by rewrite Nat.sub_0_r.
Qed.

Lemma slice_region3 l1 l2 l3 a b n :
  length l1 = a → length l2 = b →
  slice (a + b) (a + b + n) (l1 ++ l2 ++ l3) = take n l3.
Proof.
  intros <- <-. rewrite <- !Nat.add_assoc. rewrite slice_app_r.
  replace (length l2) with (length l2 + 0)%nat at 1 by lia.
  rewrite slice_app_r. unfold slice. by rewrite Nat.sub_0_r.
Qed.

Lemma slice_whole l1 l2 l3 l4 a b n :
  length l1 = a → length l2 = b → length l3 = n →
  slice 0 (a + b + n) (l1 ++ l2 ++ l3 ++ l4) = l1 ++ l2 ++ l3.
Proof.
  intros <- <- <-. rewrite !app_assoc. rewrite <- !length_app.
  apply slice_0_app.
Qed.

Lemma slice_frame l1 l2 l3 l4 a b n :
  length l1 = a → length l2 = b → length l3 = n →
  slice a (a + b + n) (l1 ++ l2 ++ l3 ++ l4) = l2 ++ l3.
Proof.
  intros <- <- <-. rewrite <- !Nat.add_assoc.
  replace (length l1) with (length l1 + 0)%nat at 1 by lia.
  rewrite slice_app_r. rewrite !app_assoc. rewrite <- !length_app.
  apply slice_0_app.
Qed.

End Slices.

(** ** The nonce counter *)

Section Counter.


Lemma le_value_bound b :
  bytes_valid b → 0 <= le_value b < 256 ^ Z.of_nat (length b).
Proof.
  induction 1 as [|v b Hv Hb IH]; simpl length; simpl le_value.
  - simpl. lia.
  - rewrite Nat2Z.inj_succ, Z.pow_succ_r by lia. lia.
Qed.

Lemma length_increment b : length (increment b) = length b.
Proof.
  induction b as [|v b IH]; [done|]. simpl.
  destruct ((v + 1) mod 256 =? 0); simpl; by rewrite ?IH.
Qed.

Lemma increment_valid b : bytes_valid b → bytes_valid (increment b).
Proof.
  induction 1 as [|v b Hv Hb IH]; [constructor|]. simpl.
  assert (0 <= (v + 1) mod 256 < 256) by (apply Z.mod_pos_bound; lia).
  destruct ((v + 1) mod 256 =? 0); by constructor.
Qed.

Lemma le_value_increment b :
  bytes_valid b →
  le_value (increment b) = (le_value b + 1) mod 256 ^ Z.of_nat (length b).
Proof.
  induction 1 as [|v b Hv Hb IH]; simpl length; simpl le_value.
  - simpl. by rewrite Z.mod_1_r.
  - rewrite Nat2Z.inj_succ, Z.pow_succ_r by lia.
    pose proof (le_value_bound b Hb) as Hbd.
    simpl. destruct ((v + 1) mod 256 =? 0) eqn:Hz; simpl le_value.
    + apply Z.eqb_eq in Hz. rewrite Hz, IH.
      assert (v = 255) as -> by (apply Z.mod_divide in Hz; [|lia];
        destruct Hz as [q Hq]; lia).
      replace (255 + 256 * le_value b + 1) with (256 * (le_value b + 1)) by lia.
      rewrite Z.mul_mod_distr_l by lia. lia.
    + apply Z.eqb_neq in Hz.
      assert (v + 1 < 256) as Hlt.
      { destruct (decide (v = 255)) as [->|]; [by exfalso|lia]. }
      rewrite (Z.mod_small (v + 1)) by lia.
      rewrite Z.mod_small; lia.
Qed.

Lemma nonce_of_S ns k : nonce_of ns (S k) = increment (nonce_of ns k).
Proof. reflexivity. Qed.

Lemma nonce_of_valid ns k : bytes_valid (nonce_of ns k).
Proof.
  induction k as [|k IH].
  - apply Forall_replicate. lia.
  - rewrite nonce_of_S. by apply increment_valid.
Qed.

Lemma length_nonce_of ns k : length (nonce_of ns k) = ns.
Proof.
  induction k as [|k IH].
  - apply length_replicate.
  - by rewrite nonce_of_S, length_increment.
Qed.

Lemma le_value_zeros ns : le_value (replicate ns 0) = 0.
Proof. induction ns as [|ns IH]; simpl; lia. Qed.

Lemma le_value_nonce_of ns k :
  le_value (nonce_of ns k) = Z.of_nat k mod 256 ^ Z.of_nat ns.
Proof.
  induction k as [|k IH].
  - unfold nonce_of. simpl. by rewrite le_value_zeros, Z.mod_0_l by lia.
  - rewrite nonce_of_S, le_value_increment by apply nonce_of_valid.
    rewrite length_nonce_of, IH, Nat2Z.inj_succ.
    rewrite Z.add_mod_idemp_l by lia. done.
Qed.

Lemma isZero_le_value b :
  bytes_valid b → isZero b = true ↔ le_value b = 0.
Proof.
  induction 1 as [|v b Hv Hb IH]; simpl; [done|].
  pose proof (le_value_bound b Hb).
  destruct (v =? 0) eqn:Hz.
  - apply Z.eqb_eq in Hz. rewrite IH. lia.
  - apply Z.eqb_neq in Hz. split; [done|lia].
Qed.

Lemma isZero_nonce_of ns k :
  isZero (nonce_of ns k) = true ↔ Z.of_nat k mod 256 ^ Z.of_nat ns = 0.
Proof.
  rewrite isZero_le_value by apply nonce_of_valid.
  by rewrite le_value_nonce_of.
Qed.

End Counter.

(** ** The writer's loop *)

Section WriterLoop.
Import shadowsocksWriter.

Lemma seal_trace_snoc ns chunks c :
  seal_trace ns (chunks ++ [c]) =
  seal_trace ns chunks ++ chunk_seals ns (length chunks) c.
Proof.
  unfold seal_trace. rewrite imap_app, concat_app. cbn [imap concat].
  by rewrite Nat.add_0_r, app_nil_r.
Qed.

Lemma wire_writes_snoc a salt chunks c :
  wire_writes a salt (chunks ++ [c]) =
  wire_writes a salt chunks
  ++ [match length chunks with
      | O => salt ++ frame a 0 c
      | S k => frame a (S k) c
      end].
Proof.
  unfold wire_writes. rewrite imap_app. cbn [imap].
  rewrite Nat.add_0_r. by destruct (length chunks).
Qed.

Lemma nowrap_snoc ns n : nowrap ns (S n) → nowrap ns n.
Proof. unfold nowrap. lia. Qed.

Local Ltac len := try done; rewrite ?length_app in *; lia.

Lemma body_inv (R : Reader) (c : Cipher) (a : AEAD) (m : mode)
    (r : R_state R) (sw : t) (start : nat) (written : Z)
    (chunks : list (list byte)) (pend : list byte) :
  writer_inv c sw chunks pend → aead sw = Some a →
  start_ok c a start chunks →
  ∀ sw' r' start' written' err,
    readFrom_body R a m r sw start written = (sw', r', start', written', err) →
    let rd := R_read R r (payloadSizeMask - length pend) in
    let g := ghost_step m chunks pend rd.1.1 in
    r' = rd.2
    ∧ written' = int64 (written + Z.of_nat (length rd.1.1))
    ∧ aead sw' = Some a
    ∧ flush sw' = flush sw
    ∧ sink_behaviour (writer sw') = sink_behaviour (writer sw)
    ∧ writer_inv c sw' g.1 g.2
    ∧ start_ok c a start' g.1
    ∧ (if emits m (length (pend ++ rd.1.1))
       then err = snd <$> sink_behaviour (writer sw) (sink_log (writer sw'))
       else err = rd.1.2 ∧ writer sw' = writer sw).
Proof.
  intros [Hc Hp Hroom Hch Hlog Hst] Ha Hstart sw' r' start' written' err.
  rewrite Ha in Hst. destruct Hst as (salt & sz & tail & Hbuf & Hsalt & Hsz
    & Htail & Henc & Hctr & Hsealed & Hwire & Hrand).
  unfold readFrom_body. rewrite Hp.
  pose proof (R_read_bound R r (payloadSizeMask - length pend)) as Hbound.
  destruct (R_read R r (payloadSizeMask - length pend)) as [[data rerr] r0].
  cbn [fst snd] in Hbound |- *.
  unfold ghost_step, emits. rewrite length_app in *.
  destruct sw as [w c0 fl pd bf ad ct rd rp sl].
  cbn [writer ssCipher flush pending buf aead counter rand rand_pos sealed]
    in *.
  subst c0 pd bf ad.
  cbn [set_buf set_pending writer ssCipher flush pending buf aead counter
       rand rand_pos sealed].
  rewrite (write_at_region3 salt sz (pend ++ tail) data) by
    (rewrite ?length_app; lia).
  rewrite take_app_length.
  rewrite drop_app_ge by lia.
  replace (length pend + length data - length pend)%nat
    with (length data) by lia.
  set (tail1 := drop (length data) tail).
  assert (length ((pend ++ data) ++ tail1) = (payloadSizeMask + Overhead a)%nat)
    as Htail1.
  { subst tail1. rewrite !length_app, length_drop in *. lia. }
  rewrite (app_assoc pend data tail1).
  set (pend1 := pend ++ data) in *.
  assert (length pend1 = (length pend + length data)%nat) as Hpend1
    by (subst pend1; apply length_app).
  rewrite <- Hpend1.
  destruct ((length pend1 =? payloadSizeMask)%nat
            || negb (is_modeLazy m) && (0 <? length pend1)%nat)
    eqn:Hem; cbn [fst snd].
  - (* a chunk is emitted *)
    assert (chunk_ok pend1) as Hok.
    { unfold chunk_ok. apply orb_true_iff in Hem as [Hem|Hem].
      - apply Nat.eqb_eq in Hem. pose proof mask_val. lia.
      - apply andb_true_iff in Hem as [_ Hem]. apply Nat.ltb_lt in Hem. lia. }
    unfold encryptBlock.
    cbn [set_buf set_pending set_writer writer ssCipher flush pending buf
         aead counter rand rand_pos sealed].
    set (v := PutUint16 (uint16 (Z.of_nat (length pend1)))).
    assert (length v = 2%nat) as Hv by done.
    rewrite (write_at_region2 salt sz (pend1 ++ tail1) v) by len.
    set (sz2 := v ++ drop (length v) sz).
    assert (length sz2 = (2 + Overhead a)%nat) as Hsz2.
    { subst sz2. rewrite length_app, length_drop, Hsz. lia. }
    rewrite (slice_region2 salt sz2 (pend1 ++ tail1)) by len.
    replace (take 2 sz2) with v by done.
    set (out1 := Seal a ct v).
    assert (length out1 <= 2 + Overhead a)%nat as Hout1.
    { subst out1. rewrite <- Hv. apply Seal_bound. }
    rewrite (append_at_fits _ out1) by len.
    rewrite (write_at_region2 salt sz2 (pend1 ++ tail1) out1) by len.
    set (sz3 := out1 ++ drop (length out1) sz2).
    assert (length sz3 = (2 + Overhead a)%nat) as Hsz3.
    { subst sz3. rewrite length_app, length_drop, Hsz2. lia. }
    rewrite (slice_region3 salt sz3 (pend1 ++ tail1)) by len.
    rewrite take_app_length.
    set (out2 := Seal a (increment ct) pend1).
    assert (length out2 <= length pend1 + Overhead a)%nat as Hout2
      by (subst out2; apply Seal_bound).
    rewrite length_app in Htail1.
    rewrite (append_at_fits _ out2) by len.
    rewrite (write_at_region3_start salt sz3 (pend1 ++ tail1) out2) by len.
    set (tail4 := drop (length out2) (pend1 ++ tail1)).
    assert (length (out2 ++ tail4) = (payloadSizeMask + Overhead a)%nat)
      as Htail4.
    { subst tail4. rewrite length_app, length_drop, length_app. lia. }
    unfold sink_Write.
    set (arg := slice start _ _).
    assert (length (chunks ++ [pend1]) = S (length chunks)) as Hlen
      by (rewrite length_app; simpl; lia).
    assert (writer_inv c
              (mk {| sink_log := sink_log w ++ [arg];
                     sink_behaviour := sink_behaviour w |}
                  c fl 0 (salt ++ sz3 ++ out2 ++ tail4) (Some a)
                  (increment (increment ct)) rd rp
                  ((sl ++ [(ct, v)]) ++ [(increment ct, pend1)]))
              (chunks ++ [pend1]) []) as Hinv.
    { constructor; cbn [writer ssCipher flush pending buf aead counter
                        rand rand_pos sealed sink_log]; try done.
      - simpl. pose proof mask_val. lia.
      - apply Forall_app. split; [done|]. by constructor.
      - rewrite length_app, Hlen, Hlog. simpl. lia.
      - exists salt, sz3, (out2 ++ tail4).
        split; [done|]. split; [done|]. split; [done|]. split; [done|].
        split; [done|]. rewrite Hlen.
        split; [|split; [|split; [|done]]].
        + replace (2 * S (length chunks))%nat
            with (S (S (2 * length chunks))) by lia.
          by rewrite !nonce_of_S, <- Hctr.
        + rewrite seal_trace_snoc. unfold chunk_seals.
          rewrite Nat.add_1_r, nonce_of_S, <- Hctr, <- Hsealed.
          by rewrite <- app_assoc.
        + intros Hex Hnw. pose proof (Hstart Hnw) as Hs.
          apply nowrap_snoc in Hnw.
          rewrite wire_writes_snoc, Hwire by done. f_equal. f_equal.
          assert (sz3 = out1) as Hsz3'.
          { subst sz3. rewrite drop_ge, app_nil_r; [done|].
            subst out1. rewrite Hex, Hsz2, Hv. lia. }
          subst arg. rewrite Hs.
          destruct chunks as [|c0 chunks]; cbn [length]; unfold frame;
            rewrite Nat.add_1_r, nonce_of_S.
          * rewrite (slice_whole salt sz3 out2 tail4) by done.
            rewrite Hsz3'. subst out1 out2 v. by rewrite Hctr.
          * rewrite (slice_frame salt sz3 out2 tail4) by done.
            rewrite Hsz3'. subst out1 out2 v. by rewrite Hctr. }
    destruct (sink_behaviour w (sink_log w ++ [arg])) as [[n e]|] eqn:Hsb;
      intros [= <- <- <- <- <-];
      cbn [set_pending set_writer writer ssCipher flush pending buf aead
           counter rand rand_pos sealed sink_log sink_behaviour];
      rewrite ?Hsb; split_and!; try done;
      intros _; by destruct chunks.
  - (* the bytes stay in the pending slot *)
    intros [= <- <- <- <- <-].
    cbn [set_pending writer ssCipher flush pending buf aead counter rand
         rand_pos sealed].
    split_and!; try done.
    constructor; cbn [writer ssCipher flush pending buf aead counter rand
                      rand_pos sealed]; try done.
    + apply orb_false_iff in Hem as [Hem _]. apply Nat.eqb_neq in Hem. lia.
    + exists salt, sz, tail1. by split_and!.
Qed.

Lemma loop_inv (fuel : nat) (R : Reader) (c : Cipher) (a : AEAD) (m : mode) :
  ∀ (r : R_state R) (sw : t) (start : nat) (written : Z) chunks pend,
    writer_inv c sw chunks pend → aead sw = Some a →
    start_ok c a start chunks →
    ∀ sw' r' o,
      readFrom_loop fuel R a m r sw start written = (sw', r', o) →
      ∃ chunks' pend',
        writer_inv c sw' chunks' pend'
        ∧ aead sw' = Some a
        ∧ flush sw' = flush sw
        ∧ sink_behaviour (writer sw') = sink_behaviour (writer sw)
        ∧ chunks `prefix_of` chunks'.
Proof.
  induction fuel as [|fuel IH]; intros r sw start written chunks pend
    Hinv Ha Hstart sw' r' o; simpl.
  - intros [= <- <- <-]. by exists chunks, pend.
  - destruct (readFrom_body R a m r sw start written)
      as [[[[sw1 r1] start1] written1] err1] eqn:Hbody.
    destruct (body_inv R c a m r sw start written chunks pend Hinv Ha Hstart
                _ _ _ _ _ Hbody)
      as (_ & _ & Ha1 & Hfl1 & Hsb1 & Hinv1 & Hstart1 & _).
    assert (chunks `prefix_of`
              (ghost_step m chunks pend
                 (R_read R r (payloadSizeMask - length pend)).1.1).1) as Hpre.
    { unfold ghost_step. destruct (emits _ _); simpl; [|done].
      by apply prefix_app_r. }
    destruct err1 as [e|].
    + destruct (is_EOF e); intros [= <- <- <-]; eauto 10.
    + intros Hloop.
      destruct (IH _ _ _ _ _ _ Hinv1 Ha1 Hstart1 _ _ _ Hloop)
        as (chunks' & pend' & ? & ? & ? & ? & ?).
      exists chunks', pend'. split_and!; try done; try congruence.
      by etrans.
Qed.

Lemma start_ok_init (c : Cipher) (a : AEAD) (sw : t) chunks pend :
  writer_inv c sw chunks pend → aead sw = Some a →
  start_ok c a (if isZero (counter sw) then 0%nat else SaltSize c) chunks.
Proof.
  intros [_ _ _ _ _ Hst] Ha Hnw. rewrite Ha in Hst.
  destruct Hst as (salt & sz & tail & _ & _ & _ & _ & _ & Hctr & _).
  assert (0 < 256 ^ Z.of_nat (NonceSize a)) by (apply Z.pow_pos_nonneg; lia).
  rewrite Hctr. destruct chunks as [|c0 chunks].
  { destruct (isZero _) eqn:Hz; [done|]. exfalso.
    apply not_true_iff_false in Hz. apply Hz, isZero_nonce_of.
    apply Z.mod_0_l. lia. }
  destruct (isZero _) eqn:Hz; [|done]. exfalso.
  apply isZero_nonce_of in Hz. unfold nowrap in Hnw.
  cbn [length] in *.
  rewrite Z.mod_small in Hz by lia. lia.
Qed.

Lemma rand_ReadFull_length (e : Entropy) (k n : nat) (salt : list byte) :
  rand_ReadFull e k n = Ok salt → length salt = n.
Proof.
  destruct n as [|n]; simpl.
  - by intros [= <-].
  - apply draw_length.
Qed.

Lemma writer_inv_set_flush (c : Cipher) (f : bool) (sw : t) chunks pend :
  writer_inv c sw chunks pend → writer_inv c (set_flush f sw) chunks pend.
Proof. intros []. by constructor. Qed.

Lemma writer_inv_set_rand_pos (c : Cipher) (k : nat) (sw : t) chunks pend :
  writer_inv c sw chunks pend → writer_inv c (set_rand_pos k sw) chunks pend.
Proof. intros []. by constructor. Qed.

Lemma init_buf (salt : list byte) (ov : nat) :
  write_at 0 salt
    (replicate (length salt + (2 + ov) + (payloadSizeMask + ov)) 0)
  = salt ++ replicate (2 + ov) 0 ++ [] ++ replicate (payloadSizeMask + ov) 0.
Proof.
  rewrite write_at_0, drop_replicate.
  replace (length salt + (2 + ov) + (payloadSizeMask + ov) - length salt)%nat
    with ((2 + ov) + (payloadSizeMask + ov))%nat by lia.
  by rewrite replicate_add.
Qed.

Lemma init_inv (c : Cipher) (sw : t) chunks pend :
  writer_inv c sw chunks pend →
  ∀ sw' res, init sw = (sw', res) →
    writer_inv c sw' chunks pend
    ∧ flush sw' = flush sw
    ∧ writer sw' = writer sw
    ∧ match res with
      | Ok a => aead sw' = Some a
      | Err _ => aead sw' = None ∧ aead sw = None
      end.
Proof.
  intros Hinv sw' res. unfold init.
  destruct (aead sw) as [a|] eqn:Ha.
  { by intros [= <- <-]. }
  pose proof (writer_inv_set_rand_pos c (S (rand_pos sw)) sw _ _ Hinv) as Hinv'.
  destruct Hinv as [Hc Hp Hroom Hch Hlog Hst]. rewrite Ha in Hst.
  destruct Hst as (-> & -> & Hsl).
  cbn [set_rand_pos writer ssCipher flush pending buf aead counter rand
       rand_pos sealed].
  rewrite Hc.
  destruct (rand_ReadFull (rand sw) (rand_pos sw) (SaltSize c))
    as [salt|e] eqn:Hsalt.
  2: { by intros [= <- <-]. }
  pose proof (rand_ReadFull_length _ _ _ _ Hsalt) as Hlen.
  destruct (Encrypter c salt) as [a|e] eqn:Henc.
  2: { by intros [= <- <-]. }
  cbv zeta. rewrite init_buf.
  intros [= <- <-]. split_and!; try done.
  constructor; try done. cbn [aead buf counter sealed writer].
  exists salt, (replicate (2 + Overhead a) 0),
    (replicate (payloadSizeMask + Overhead a) 0).
  split_and!; try done.
  - apply length_replicate.
  - apply length_replicate.
  - intros _ _. simpl in Hlog. by destruct (sink_log (writer sw)).
  - by exists (rand_pos sw).
Qed.

Lemma readFrom_inv (fuel : nat) (R : Reader) (r : R_state R) (m : mode)
    (c : Cipher) (sw : t) chunks pend :
  writer_inv c sw chunks pend →
  ∀ sw' r' o, readFrom fuel R r m sw = (sw', r', o) →
    ∃ chunks' pend',
      writer_inv c sw' chunks' pend'
      ∧ chunks `prefix_of` chunks'
      ∧ sink_behaviour (writer sw') = sink_behaviour (writer sw)
      ∧ ((aead sw' = None ∧ writer sw' = writer sw ∧ flush sw' = flush sw)
         ∨ (is_Some (aead sw')
            ∧ flush sw' = is_modeNormal m || flush sw)).
Proof.
  intros Hinv sw' r' o. unfold readFrom.
  destruct (init sw) as [sw0 [a|e]] eqn:Hinit;
    destruct (init_inv c sw chunks pend Hinv _ _ Hinit)
      as (Hinv0 & Hfl0 & Hw0 & Ha0).
  2: { intros [= <- <- <-]. exists chunks, pend. destruct Ha0.
       split_and!; try done; [by rewrite Hw0|by left]. }
  set (sw1 := if is_modeNormal m then set_flush true sw0 else sw0).
  assert (writer_inv c sw1 chunks pend) as Hinv1.
  { subst sw1. destruct (is_modeNormal m); [|done].
    by apply writer_inv_set_flush. }
  assert (aead sw1 = Some a) as Ha1 by (subst sw1; by destruct (is_modeNormal m)).
  assert (writer sw1 = writer sw) as Hw1
    by (subst sw1; by destruct (is_modeNormal m)).
  assert (flush sw1 = is_modeNormal m || flush sw) as Hfl1
    by (subst sw1; by destruct (is_modeNormal m)).
  assert (ssCipher sw1 = c) as Hc1 by apply Hinv1.
  rewrite Hc1. intros Hloop.
  destruct (loop_inv fuel R c a m _ _ _ _ _ _ Hinv1 Ha1
              (start_ok_init c a sw1 chunks pend Hinv1 Ha1) _ _ _ Hloop)
    as (chunks' & pend' & Hinv' & Ha' & Hfl' & Hsb' & Hpre).
  exists chunks', pend'. split_and!; try done.
  - by rewrite Hsb', Hw1.
  - right. split; [by rewrite Ha'|]. by rewrite Hfl'.
Qed.

Lemma exec_inv (c : Cipher) (cl : call) (sw : t) chunks pend :
  writer_inv c sw chunks pend →
  ∃ chunks' pend',
    writer_inv c (exec cl sw).1 chunks' pend'
    ∧ chunks `prefix_of` chunks'
    ∧ sink_behaviour (writer (exec cl sw).1) = sink_behaviour (writer sw).
Proof.
  intros Hinv. destruct cl as [p|p| |R r fuel]; simpl.
  - unfold Write, write.
    destruct (readFrom _ _ _ _ _) as [[sw' r'] o] eqn:Hrf.
    destruct (readFrom_inv _ _ _ _ c sw chunks pend Hinv _ _ _ Hrf)
      as (chunks' & pend' & ? & ? & ? & _). eauto.
  - unfold LazyWrite, write.
    destruct (readFrom _ _ _ _ _) as [[sw' r'] o] eqn:Hrf.
    destruct (readFrom_inv _ _ _ _ c _ chunks pend
                (writer_inv_set_flush c false sw _ _ Hinv) _ _ _ Hrf)
      as (chunks' & pend' & ? & ? & ? & _). eauto.
  - unfold Flush, write. destruct (flush sw); [by exists chunks, pend|].
    destruct (readFrom _ _ _ _ _) as [[sw' r'] o] eqn:Hrf.
    destruct (readFrom_inv _ _ _ _ c sw chunks pend Hinv _ _ _ Hrf)
      as (chunks' & pend' & ? & ? & ? & _).
    exists chunks', pend'. split_and!; try done.
    by apply writer_inv_set_flush.
  - unfold ReadFrom.
    destruct (readFrom _ _ _ _ _) as [[sw' r'] o] eqn:Hrf.
    destruct (readFrom_inv _ _ _ _ c sw chunks pend Hinv _ _ _ Hrf)
      as (chunks' & pend' & ? & ? & ? & _). eauto.
Qed.

Lemma run_inv (c : Cipher) (cs : list call) :
  ∀ (sw : t) chunks pend,
    writer_inv c sw chunks pend →
    ∃ chunks' pend',
      writer_inv c (run cs sw) chunks' pend'
      ∧ chunks `prefix_of` chunks'
      ∧ sink_behaviour (writer (run cs sw)) = sink_behaviour (writer sw).
Proof.
  induction cs as [|cl cs IH]; intros sw chunks pend Hinv; simpl.
  - by exists chunks, pend.
  - destruct (exec_inv c cl sw chunks pend Hinv)
      as (chunks1 & pend1 & Hinv1 & Hpre1 & Hsb1).
    destruct (exec cl sw) as [sw1 [n err|]]; simpl in *.
    + destruct (IH sw1 chunks1 pend1 Hinv1)
        as (chunks2 & pend2 & ? & ? & ?).
      exists chunks2, pend2. split_and!; try done; [by etrans|congruence].
    + by exists chunks1, pend1.
Qed.

Lemma New_inv (behaviour : list (list byte) → option (nat * error))
    (c : Cipher) (e : Entropy) :
  writer_inv c (NewShadowsocksWriter (new_sink behaviour) c e) [] [].
Proof.
  constructor; try done. simpl. pose proof mask_val. lia.
Qed.

End WriterLoop.

(** ** The length field *)

Section LengthField.

Lemma lor_shiftl_8 (lo hi : Z) :
  0 <= lo < 256 → 0 <= hi → Z.lor lo (Z.shiftl hi 8) = lo + 256 * hi.
Proof.
  intros Hlo Hhi.
  assert (Z.land lo (Z.shiftl hi 8) = 0) as Hdisj.
  { replace lo with (Z.land lo (Z.ones 8)).
    2: { rewrite Z.land_ones by lia. apply Z.mod_small. simpl. lia. }
    rewrite <- Z.land_assoc, (Z.land_comm (Z.ones 8)), Z.land_ones by lia.
    rewrite Z.shiftl_mul_pow2 by lia.
    rewrite Z.mod_mul by (simpl; lia). apply Z.land_0_r. }
  rewrite <- Z.lxor_lor by done.
  rewrite <- Z.add_nocarry_lxor by done.
  rewrite Z.shiftl_mul_pow2 by lia. simpl. lia.
Qed.

Lemma Uint16_PutUint16 (v : Z) :
  0 <= v < 65536 → Uint16 (PutUint16 v) = v.
Proof.
  intros Hv. unfold Uint16, PutUint16. cbn [nth].
  rewrite Z.shiftr_div_pow2 by lia.
  change (2 ^ 8) with 256.
  assert (0 <= v / 256 < 256) by (split; [apply Z.div_pos; lia|
    apply Z.div_lt_upper_bound; lia]).
  rewrite (Z.mod_small (v / 256)) by lia.
  rewrite lor_shiftl_8 by (try apply Z.mod_pos_bound; lia).
  pose proof (Z.div_mod v 256). lia.
Qed.

Lemma land_top_bits (v : Z) : 0 <= v <= 16383 → Z.land v 0xC000 = 0.
Proof.
  intros Hv. replace v with (Z.land v (Z.ones 14)).
  2: { rewrite Z.land_ones by lia. apply Z.mod_small. simpl. lia. }
  rewrite <- Z.land_assoc. simpl (Z.land (Z.ones 14) _). apply Z.land_0_r.
Qed.

Lemma land_mask (v : Z) :
  0 <= v <= 16383 → Z.land v (Z.of_nat payloadSizeMask) = v.
Proof.
  intros Hv. rewrite mask_val. change 16383 with (Z.ones 14).
  rewrite Z.land_ones by lia. apply Z.mod_small. simpl. lia.
Qed.

Lemma length_field (p : list byte) :
  chunk_ok p →
  Uint16 (PutUint16 (uint16 (Z.of_nat (length p)))) = Z.of_nat (length p).
Proof.
  intros [H1 H2]. pose proof mask_val. unfold uint16.
  rewrite Z.mod_small by lia. apply Uint16_PutUint16. lia.
Qed.

Lemma int64_small (x : Z) : - 2 ^ 63 <= x < 2 ^ 63 → int64 x = x.
Proof. intros H. unfold int64. rewrite Z.mod_small; lia. Qed.

Lemma int64_add (x y : Z) : int64 (int64 x + y) = int64 (x + y).
Proof.
  unfold int64.
  replace ((x + 2 ^ 63) mod 2 ^ 64 - 2 ^ 63 + y + 2 ^ 63)
    with ((x + 2 ^ 63) mod 2 ^ 64 + y) by lia.
  rewrite Z.add_mod_idemp_l by lia. f_equal. f_equal. lia.
Qed.

End LengthField.

(** ** The seal log *)

Section SealLog.
Import shadowsocksWriter.

Lemma length_seal_trace ns chunks :
  length (seal_trace ns chunks) = (2 * length chunks)%nat.
Proof.
  induction chunks as [|c chunks IH] using rev_ind; [done|].
  rewrite seal_trace_snoc, !length_app, IH. simpl. lia.
Qed.

Lemma seal_trace_lookup ns chunks i nonce p :
  seal_trace ns chunks !! i = Some (nonce, p) → nonce = nonce_of ns i.
Proof.
  induction chunks as [|c chunks IH] using rev_ind; [done|].
  rewrite seal_trace_snoc. intros Hl.
  apply lookup_app_Some in Hl as [Hl|[Hge Hl]]; [by apply IH|].
  rewrite length_seal_trace in Hge, Hl. unfold chunk_seals in Hl.
  destruct (i - 2 * length chunks)%nat as [|[|j]] eqn:Hi; simpl in Hl;
    [| |done]; injection Hl as <- <-; f_equal; lia.
Qed.

(** C4. Whatever the calls made on a new writer, the [Seal] calls it
    has made are those of a list of chunks, one per sink write, each with
    a payload of 1 to 16383 bytes and a big-endian length field that
    holds that length, its top two bits zero. *)
Theorem chunk_size_discipline
    (behaviour : list (list byte) → option (nat * error))
    (c : Cipher) (e : Entropy) (cs : list call) :
  let sw := run cs (NewShadowsocksWriter (new_sink behaviour) c e) in
  ∃ ns chunks,
    sealed sw = seal_trace ns chunks
    ∧ length (sink_log (writer sw)) = length chunks
    ∧ Forall (λ p,
        1 <= Z.of_nat (length p) <= 16383
        ∧ Uint16 (PutUint16 (uint16 (Z.of_nat (length p))))
          = Z.of_nat (length p)
        ∧ Z.land (Uint16 (PutUint16 (uint16 (Z.of_nat (length p)))))
                 0xC000 = 0) chunks.
Proof.
  intros sw.
  destruct (run_inv c cs _ [] [] (New_inv behaviour c e))
    as (chunks & pend & [Hc Hp Hroom Hch Hlog Hst] & _ & _).
  fold sw in Hc, Hp, Hlog, Hst.
  assert (∃ ns, sealed sw = seal_trace ns chunks) as [ns Hns].
  { destruct (aead sw) as [a|].
    - destruct Hst as (? & ? & ? & _ & _ & _ & _ & _ & _ & Hs & _).
      by exists (NonceSize a).
    - destruct Hst as (_ & -> & ->). by exists 0%nat. }
  exists ns, chunks. split_and!; try done.
  eapply Forall_impl; [exact Hch|]. intros p Hok. cbv beta.
  rewrite length_field by done. destruct Hok as [H1 H2].
  pose proof mask_val. split_and!; try lia.
  apply land_top_bits. lia.
Qed.

(** C5. The [i]-th call of [Seal] made by a writer (counting from 0) is
    given the all-zero counter incremented [i] times: the little-endian
    value [i], modulo the width of the counter.  There are two calls per
    sink write, and the counter the writer holds is the one for the next
    call. *)
Theorem nonce_sequence
    (behaviour : list (list byte) → option (nat * error))
    (c : Cipher) (e : Entropy) (cs : list call)
    (i : nat) (nonce p : list byte) :
  let sw := run cs (NewShadowsocksWriter (new_sink behaviour) c e) in
  sealed sw !! i = Some (nonce, p) →
  ∃ a, aead sw = Some a
    ∧ nonce = Nat.iter i increment (replicate (NonceSize a) 0)
    ∧ length nonce = NonceSize a
    ∧ le_value nonce = Z.of_nat i mod 256 ^ Z.of_nat (NonceSize a)
    ∧ (Z.of_nat i < 256 ^ Z.of_nat (NonceSize a) → le_value nonce = Z.of_nat i)
    ∧ length (sealed sw) = (2 * length (sink_log (writer sw)))%nat
    ∧ counter sw
      = Nat.iter (length (sealed sw)) increment (replicate (NonceSize a) 0).
Proof.
  intros sw Hl.
  destruct (run_inv c cs _ [] [] (New_inv behaviour c e))
    as (chunks & pend & [Hc Hp Hroom Hch Hlog Hst] & _ & _).
  fold sw in Hc, Hp, Hlog, Hst.
  destruct (aead sw) as [a|].
  2: { destruct Hst as (_ & _ & Hs). by rewrite Hs in Hl. }
  destruct Hst as (? & ? & ? & _ & _ & _ & _ & _ & Hctr & Hs & _).
  exists a. rewrite Hs in Hl |- *. apply seal_trace_lookup in Hl as ->.
  rewrite length_seal_trace, Hlog.
  split_and!; try done.
  - apply length_nonce_of.
  - apply le_value_nonce_of.
  - intros Hlt. rewrite le_value_nonce_of. apply Z.mod_small. lia.
Qed.

End SealLog.

Section SealLogWitness.
Import shadowsocksWriter.

Lemma nonce_sequence_witness :
  let cs := [CallWrite [1; 2; 3]; CallLazyWrite [4]; CallFlush] in
  let sw := run cs (NewShadowsocksWriter (new_sink reliable) testCipher
                      testEntropy) in
  let n3 := [3; 0; 0; 0; 0; 0; 0; 0; 0; 0; 0; 0] in
  sealed sw !! 3%nat = Some (n3, [4])
  ∧ ∃ a, aead sw = Some a
      ∧ le_value n3 = 3 mod 256 ^ Z.of_nat (NonceSize a).
Proof.
  intros cs sw n3.
  assert (sealed sw !! 3%nat = Some (n3, [4])) as H
    by (vm_compute; reflexivity).
  split; [exact H|].
  destruct (nonce_sequence reliable testCipher testEntropy cs 3 _ _ H)
    as (a & Ha & _ & _ & Hv & _).
  exists a. split; assumption.
Defined.

End SealLogWitness.

(** ** Writes that only buffer *)

Section Buffering.
Import shadowsocksWriter.

Lemma emits_lazy (n : nat) :
  (n < payloadSizeMask)%nat → emits modeLazy n = false.
Proof.
  intros H. unfold emits. simpl. rewrite orb_false_r.
  apply Nat.eqb_neq. lia.
Qed.

Lemma emits_0 (m : mode) : emits m 0 = false.
Proof.
  unfold emits. rewrite andb_false_r, orb_false_r.
  apply Nat.eqb_neq. pose proof mask_val. lia.
Qed.

(** The loop over an exhausted [bytes.Reader] when no chunk is due. *)
Lemma loop_eof (fuel : nat) (c : Cipher) (a : AEAD) (m : mode) (sw : t)
    (start : nat) (written : Z) chunks pend :
  writer_inv c sw chunks pend → aead sw = Some a →
  start_ok c a start chunks →
  emits m (length pend) = false →
  ∃ sw',
    readFrom_loop (S fuel) bytes_Reader a m [] sw start written
    = (sw', [], Returned (int64 written) None)
    ∧ writer sw' = writer sw
    ∧ flush sw' = flush sw
    ∧ aead sw' = Some a
    ∧ writer_inv c sw' chunks pend.
Proof.
  intros Hinv Ha Hstart Hem. cbn [readFrom_loop].
  destruct (readFrom_body bytes_Reader a m [] sw start written)
    as [[[[sw1 r1] start1] written1] err1] eqn:Hbody.
  destruct (body_inv _ c a m _ sw start written chunks pend Hinv Ha Hstart
              _ _ _ _ _ Hbody)
    as (Hr & Hw & Ha1 & Hfl1 & _ & Hinv1 & _ & Herr).
  cbn [R_read bytes_Reader bytes_Read fst snd] in *.
  unfold ghost_step in Hinv1. rewrite app_nil_r in *. rewrite Hem in *.
  destruct Herr as [-> Hwr]. subst r1 written1. cbn [is_EOF fst snd] in *.
  exists sw1. rewrite Z.add_0_r. by split_and!.
Qed.

(** The loop over a [bytes.Reader] holding [p], when [p] fits in the
    pending slot and no chunk is due. *)
Lemma loop_buffered (fuel : nat) (c : Cipher) (a : AEAD) (m : mode) (sw : t)
    (start : nat) (written : Z) chunks pend (p : list byte) :
  writer_inv c sw chunks pend → aead sw = Some a →
  start_ok c a start chunks →
  (length (pend ++ p) < payloadSizeMask)%nat →
  emits m (length (pend ++ p)) = false →
  ∃ sw',
    readFrom_loop (S (S fuel)) bytes_Reader a m p sw start written
    = (sw', [], Returned (int64 (written + Z.of_nat (length p))) None)
    ∧ writer sw' = writer sw
    ∧ flush sw' = flush sw
    ∧ aead sw' = Some a
    ∧ writer_inv c sw' chunks (pend ++ p).
Proof.
  intros Hinv Ha Hstart Hlt Hem. destruct p as [|x p].
  { rewrite app_nil_r in *. rewrite Z.add_0_r.
    by apply (loop_eof (S fuel) c). }
  set (q := x :: p) in *.
  assert (q ≠ []) as Hq by done. clearbody q.
  rewrite length_app in Hlt.
  change (readFrom_loop (S (S fuel)) bytes_Reader a m q sw start written)
    with (let '(sw, r, start, written, err) :=
            readFrom_body bytes_Reader a m q sw start written in
          match err with
          | Some e =>
              if is_EOF e then (sw, r, Returned written None)
              else (sw, r, Returned written
                            (Some (Errorf "Failed to read payload" e)))
          | None => readFrom_loop (S fuel) bytes_Reader a m r sw start written
          end).
  destruct (readFrom_body bytes_Reader a m q sw start written)
    as [[[[sw1 r1] start1] written1] err1] eqn:Hbody.
  destruct (body_inv _ c a m _ sw start written chunks pend Hinv Ha Hstart
              _ _ _ _ _ Hbody)
    as (Hr & Hw & Ha1 & Hfl1 & _ & Hinv1 & Hstart1 & Herr).
  cbn [R_read bytes_Reader] in *.
  assert (bytes_Read q (payloadSizeMask - length pend) = (q, None, [])) as Hrd.
  { unfold bytes_Read. destruct q; [done|].
    rewrite take_ge, drop_ge by lia. done. }
  rewrite Hrd in *. cbn [fst snd] in *.
  unfold ghost_step in *. rewrite Hem in *. cbn [fst snd] in *.
  destruct Herr as [-> Hwr]. subst r1 written1.
  destruct (loop_eof fuel c a m sw1 start1
              (int64 (written + Z.of_nat (length q))) chunks (pend ++ q)
              Hinv1 Ha1 Hstart1 Hem)
    as (sw2 & Hloop & Hw2 & Hfl2 & Ha2 & Hinv2).
  exists sw2. rewrite Hloop.
  replace (int64 (int64 (written + Z.of_nat (length q))))
    with (int64 (int64 (written + Z.of_nat (length q)) + 0))
    by (by rewrite Z.add_0_r).
  rewrite int64_add, Z.add_0_r.
  split_and!; try done; congruence.
Qed.

End Buffering.

(** ** Calls on a slice return *)

Section Returns.
Import shadowsocksWriter.

Lemma loop_returns (c : Cipher) (a : AEAD) (m : mode) (fuel : nat) :
  ∀ (p : list byte) (sw : t) (start : nat) (written : Z) chunks pend,
    writer_inv c sw chunks pend → aead sw = Some a →
    start_ok c a start chunks →
    (length p + 2 <= fuel)%nat →
    ∃ sw' r' n err,
      readFrom_loop fuel bytes_Reader a m p sw start written
      = (sw', r', Returned n err).
Proof.
  induction fuel as [|fuel IH];
    intros p sw start written chunks pend Hinv Ha Hstart Hfuel; [lia|].
  assert (length pend < payloadSizeMask)%nat as Hroom by apply Hinv.
  cbn [readFrom_loop].
  destruct (readFrom_body bytes_Reader a m p sw start written)
    as [[[[sw1 r1] start1] written1] err1] eqn:Hbody.
  destruct (body_inv _ c a m _ sw start written chunks pend Hinv Ha
              Hstart _ _ _ _ _ Hbody)
    as (Hr & _ & Ha1 & _ & _ & Hinv1 & Hstart1 & Herr).
  destruct err1 as [e|].
  { destruct (is_EOF e); eauto 10. }
  cbn [R_read bytes_Reader] in *. destruct p as [|x p].
  - (* the exhausted reader said EOF, so a chunk went out: one more turn *)
    cbn [bytes_Read fst snd] in *. unfold ghost_step in *.
    destruct (emits m (length (pend ++ []))); [|by destruct Herr].
    cbn [fst snd] in *. subst r1.
    destruct fuel as [|fuel]; [simpl in Hfuel; lia|].
    destruct (loop_eof fuel c a m sw1 start1 written1 _ [] Hinv1 Ha1 Hstart1
                (emits_0 m)) as (sw2 & -> & _).
    eauto 10.
  - apply (IH r1 sw1 start1 written1 _ _ Hinv1 Ha1 Hstart1).
    subst r1. cbn [bytes_Read snd]. rewrite length_drop.
    cbn [length] in *. lia.
Qed.

(** [Write], [LazyWrite] and [Flush] return on every writer that a
    sequence of calls can reach: the fuel given to [write] is enough. *)
Lemma write_returns (c : Cipher) (p : list byte) (m : mode) (sw : t)
    chunks pend :
  writer_inv c sw chunks pend →
  ∃ sw' n err, write p m sw = (sw', Returned n err).
Proof.
  intros Hinv. unfold write, readFrom.
  destruct (init sw) as [sw0 [a|e]] eqn:Hinit;
    destruct (init_inv c sw chunks pend Hinv _ _ Hinit)
      as (Hinv0 & _ & _ & Ha0); [|eauto].
  set (sw1 := if is_modeNormal m then set_flush true sw0 else sw0).
  assert (writer_inv c sw1 chunks pend) as Hinv1.
  { subst sw1. destruct (is_modeNormal m); [|done].
    by apply writer_inv_set_flush. }
  assert (aead sw1 = Some a) as Ha1
    by (subst sw1; by destruct (is_modeNormal m)).
  assert (ssCipher sw1 = c) as -> by apply Hinv1.
  destruct (loop_returns c a m (length p + 2) p sw1
              (if isZero (counter sw1) then 0%nat else SaltSize c) 0
              chunks pend Hinv1 Ha1
              (start_ok_init c a sw1 chunks pend Hinv1 Ha1))
    as (sw' & r' & n & err & ->); [lia|].
  eauto.
Qed.

End Returns.

(** ** Lazy writes and flushes *)

Section LazyFlush.
Import shadowsocksWriter.

Lemma pending_bytes_inv (c : Cipher) (a : AEAD) (sw : t) chunks pend :
  writer_inv c sw chunks pend → aead sw = Some a ∨ aead sw = None →
  pending_bytes a sw = pend.
Proof.
  intros [Hc Hp _ _ _ Hst] Ha. unfold pending_bytes. rewrite Hc, Hp.
  destruct Ha as [Ha|Ha]; rewrite Ha in Hst.
  - destruct Hst as (salt & sz & tail & -> & Hsalt & Hsz & _).
    rewrite (slice_region3 salt sz (pend ++ tail)) by done.
    apply take_app_length.
  - destruct Hst as (-> & _). unfold slice.
    by rewrite Nat.add_0_r, Nat.sub_diag.
Qed.

Lemma Flush_nothing_pending (c : Cipher) (sw : t) chunks :
  writer_inv c sw chunks [] → writer (Flush sw).1 = writer sw.
Proof.
  intros Hinv. unfold Flush. destruct (flush sw); [done|].
  unfold write, readFrom.
  destruct (init sw) as [sw0 [a|e]] eqn:Hinit;
    destruct (init_inv c sw chunks [] Hinv _ _ Hinit)
      as (Hinv0 & Hfl0 & Hw0 & Ha0); [|done].
  cbn [is_modeNormal length Nat.add].
  destruct (loop_eof 1 c a modeFlush sw0
              (if isZero (counter sw0) then 0%nat else SaltSize c) 0
              chunks [] Hinv0 Ha0 (start_ok_init c a sw0 chunks [] Hinv0 Ha0)
              (emits_0 modeFlush))
    as (sw1 & Hloop & Hw1 & _).
  replace (ssCipher sw0) with c by (symmetry; apply Hinv0).
  rewrite Hloop. simpl. congruence.
Qed.

Lemma Flush_after_normal (fuel : nat) (R : Reader) (r : R_state R)
    (c : Cipher) (sw : t) chunks pend :
  writer_inv c sw chunks pend →
  let sw' := (readFrom fuel R r modeNormal sw).1.1 in
  writer (Flush sw').1 = writer sw'.
Proof.
  intros Hinv sw'.
  destruct (readFrom fuel R r modeNormal sw) as [[sw1 r1] o] eqn:Hrf.
  destruct (readFrom_inv _ _ _ _ c sw chunks pend Hinv _ _ _ Hrf)
    as (chunks' & pend' & Hinv' & _ & _ & [(Ha & _ & _)|(_ & Hfl)]).
  - subst sw'. cbn [fst].
    assert (pend' = []) as ->.
    { destruct Hinv' as [_ _ _ _ _ Hst]. rewrite Ha in Hst. apply Hst. }
    by apply (Flush_nothing_pending c _ chunks').
  - subst sw'. cbn [fst]. unfold Flush. simpl in Hfl. by rewrite Hfl.
Qed.

(** C8. On a writer reached by any sequence of calls: a [Flush] that
    follows a [Flush] does nothing at all, and a [Flush] that follows a
    [Write] or a [ReadFrom] writes nothing to the sink. *)
Theorem flush_at_most_once
    (behaviour : list (list byte) → option (nat * error))
    (c : Cipher) (e : Entropy) (cs : list call) :
  let sw := run cs (NewShadowsocksWriter (new_sink behaviour) c e) in
  Flush (Flush sw).1 = ((Flush sw).1, Returned 0 None)
  ∧ (∀ p, writer (Flush (Write p sw).1).1 = writer (Write p sw).1)
  ∧ (∀ fuel R r,
       writer (Flush (ReadFrom fuel R r sw).1.1).1
       = writer (ReadFrom fuel R r sw).1.1).
Proof.
  intros sw.
  destruct (run_inv c cs _ [] [] (New_inv behaviour c e))
    as (chunks & pend & Hinv & _ & _).
  fold sw in Hinv. split_and!.
  - unfold Flush at 2 3. destruct (flush sw) eqn:Hfl.
    + cbn [fst]. unfold Flush. by rewrite Hfl.
    + by destruct (write [] modeFlush sw) as [sw1 o].
  - intros p. unfold Write, write.
    pose proof (Flush_after_normal (length p + 2) bytes_Reader p c sw
                  chunks pend Hinv) as H.
    cbv zeta in H.
    by destruct (readFrom (length p + 2) bytes_Reader p modeNormal sw)
      as [[sw1 r1] o].
  - intros fuel R r. unfold ReadFrom.
    by apply (Flush_after_normal fuel R r c sw chunks pend).
Qed.

End LazyFlush.

(** ** The test cipher, and a lazy write that fills the slot *)

Section SinkWrites.
Import shadowsocksWriter.

Lemma testAEAD_exact : exact_overhead testAEAD.
Proof.
  intros nonce p. simpl. unfold test_Seal. rewrite length_app. simpl. lia.
Qed.

(** A lazy write that fills the pending slot does reach the sink: on a
    new writer, [LazyWrite] of 16383 bytes makes one sink write. *)
Lemma lazy_write_full_slot_reaches_sink :
  let sw := NewShadowsocksWriter (new_sink reliable) testCipher testEntropy in
  writer (LazyWrite (replicate payloadSizeMask 0) sw).1 ≠ writer sw.
Proof.
  intros sw Heq.
  assert (length (sink_log (writer
            (LazyWrite (replicate payloadSizeMask 0) sw).1)) = 1%nat) as H
    by (vm_compute; reflexivity).
  rewrite Heq in H. discriminate H.
Qed.

End SinkWrites.

(** ** The chunk reader *)

Section ChunkReader.
Import chunkReader.

Lemma readMessage_short (a : AEAD) (n : nat) (cr : t) :
  (length (remaining (reader cr)) < n)%nat →
  (n <= length (buf cr))%nat →
  (readMessage a n cr).2
  = Some (match remaining (reader cr) with
          | [] => final (reader cr)
          | _ => if is_EOF (final (reader cr))
                 then io_ErrUnexpectedEOF else final (reader cr)
          end)
  ∧ aead (readMessage a n cr).1 = aead cr
  ∧ length (buf (readMessage a n cr).1) = length (buf cr).
Proof.
  intros Hlt Hcap. unfold readMessage, io_ReadFull.
  destruct (Nat.leb_spec n (length (remaining (reader cr)))) as [?|_]; [lia|].
  cbn [fst snd aead buf set_buf set_reader]. split_and!; try done.
  unfold write_at. simpl. rewrite length_app, length_drop. lia.
Qed.

Lemma readMessage_ok (a : AEAD) (n : nat) (cr : t)
    (block rest pt : list byte) :
  remaining (reader cr) = block ++ rest → length block = n →
  (n <= length (buf cr))%nat →
  Open a (counter cr) block = Some pt →
  (length pt <= length (buf cr))%nat →
  readMessage a n cr
  = (mk {| remaining := rest; final := final (reader cr) |} (ssCipher cr)
        (aead cr) (increment (counter cr))
        (pt ++ drop (length pt) (block ++ drop n (buf cr))),
     None).
Proof.
  intros Hrem Hn Hcap Hopen Hpt. unfold readMessage, io_ReadFull.
  rewrite Hrem.
  destruct (Nat.leb_spec n (length (block ++ rest))) as [_|Hlt].
  2: { rewrite length_app in Hlt. lia. }
  rewrite <- Hn, take_app_length, drop_app_length.
  cbn [set_reader set_buf reader ssCipher aead counter buf set_counter].
  rewrite write_at_0, slice_0_app, Hopen.
  cbn [set_reader set_buf reader ssCipher aead counter buf set_counter].
  rewrite append_at_fits.
  2: { rewrite length_app, length_drop. simpl. lia. }
  by rewrite write_at_0.
Qed.

Lemma length_after_message (pt block b : list byte) (n : nat) :
  length block = n → (n <= length b)%nat → (length pt <= length b)%nat →
  length (pt ++ drop (length pt) (block ++ drop n b)) = length b.
Proof.
  intros Hn Hcap Hpt. rewrite length_app, length_drop, length_app, length_drop.
  lia.
Qed.

Lemma land_mask_bound (x : Z) :
  0 <= Z.land x (Z.of_nat payloadSizeMask) <= 16383.
Proof.
  rewrite mask_val.
  replace (Z.land x 16383) with (x mod 16384)
    by (symmetry; apply (Z.land_ones x 14); lia).
  pose proof (Z.mod_pos_bound x 16384). lia.
Qed.

Lemma init_spec (cr : t) (a : AEAD) (ctr rem : list byte) :
  reader_wf cr → chunk_input cr = Some (a, ctr, rem) →
  ∃ cr1,
    init cr = (cr1, Ok a)
    ∧ aead cr1 = Some a
    ∧ counter cr1 = ctr
    ∧ remaining (reader cr1) = rem
    ∧ final (reader cr1) = final (reader cr)
    ∧ ssCipher cr1 = ssCipher cr
    ∧ length (buf cr1) = (payloadSizeMask + Overhead a)%nat.
Proof.
  intros Hwf. unfold chunk_input, init.
  destruct (aead cr) as [a0|] eqn:Ha.
  { intros [= <- <- <-]. exists cr. split_and!; try done. by apply Hwf. }
  unfold io_ReadFull.
  destruct (SaltSize (ssCipher cr) <=? length (remaining (reader cr)))%nat;
    [|done].
  cbn [set_reader reader ssCipher aead counter buf].
  destruct (Decrypter (ssCipher cr) _) as [a0|e]; [|done].
  intros [= <- <- <-]. eexists. split; [done|].
  cbn [reader ssCipher aead counter buf remaining final].
  split_and!; try done. apply length_replicate.
Qed.

Lemma ReadChunk_chunk (cr : t) (a : AEAD)
    (ctr lenblock payblock rest sizefield pt : list byte) :
  reader_wf cr →
  chunk_input cr = Some (a, ctr, lenblock ++ payblock ++ rest) →
  length lenblock = (2 + Overhead a)%nat →
  Open a ctr lenblock = Some sizefield → length sizefield = 2%nat →
  let size :=
    Z.to_nat (Z.land (Uint16 sizefield) (Z.of_nat payloadSizeMask)) in
  length payblock = (size + Overhead a)%nat →
  Open a (increment ctr) payblock = Some pt → length pt = size →
  ∃ cr',
    ReadChunk cr = (cr', Ok pt)
    ∧ aead cr' = Some a
    ∧ counter cr' = increment (increment ctr)
    ∧ remaining (reader cr') = rest
    ∧ final (reader cr') = final (reader cr)
    ∧ ssCipher cr' = ssCipher cr
    ∧ reader_wf cr'.
Proof.
  intros Hwf Hin Hlb Hopen1 Hsf size Hpb Hopen2 Hpt.
  destruct (init_spec cr a ctr _ Hwf Hin)
    as (cr1 & Hinit & Ha1 & Hc1 & Hr1 & Hf1 & Hs1 & Hb1).
  unfold ReadChunk. rewrite Hinit. fold size.
  assert (2 + Overhead a <= length (buf cr1)
          ∧ size + Overhead a <= length (buf cr1))%nat as [Hcap1 Hcap2].
  { pose proof mask_val.
    pose proof (land_mask_bound (Uint16 sizefield)). subst size. lia. }
  destruct sizefield as [|hi [|lo [|]]]; try discriminate Hsf.
  assert (length [hi; lo] <= length (buf cr1))%nat as Hcap0 by (simpl; lia).
  rewrite <- Hc1 in Hopen1, Hopen2.
  rewrite (readMessage_ok a _ cr1 lenblock (payblock ++ rest) [hi; lo]
             Hr1 Hlb Hcap1 Hopen1 Hcap0).
  cbn [buf].
  replace (Uint16 ([hi; lo] ++ _)) with (Uint16 [hi; lo]) by reflexivity.
  fold size.
  set (buf2 := [hi; lo] ++ _).
  assert (length buf2 = length (buf cr1)) as Hb2.
  { subst buf2. by apply length_after_message. }
  rewrite Hb2.
  destruct (Nat.ltb_spec (length (buf cr1)) (size + Overhead a)) as [Hlt|_].
  { exfalso. lia. }
  set (cr2 := mk _ _ _ _ buf2).
  assert (length pt <= length (buf cr2))%nat as Hcap3.
  { subst cr2. cbn [buf]. rewrite Hb2. lia. }
  assert (size + Overhead a <= length (buf cr2))%nat as Hcap4.
  { subst cr2. cbn [buf]. rewrite Hb2. lia. }
  rewrite (readMessage_ok a _ cr2 payblock rest pt eq_refl Hpb Hcap4
             Hopen2 Hcap3).
  subst cr2. cbn [reader ssCipher aead counter buf remaining final].
  eexists. split.
  { f_equal. f_equal. rewrite <- Hpt. apply slice_0_app. }
  cbn [reader ssCipher aead counter buf remaining final].
  split_and!; [exact Ha1|by rewrite Hc1|reflexivity|exact Hf1|exact Hs1|].
  intros a' Ha'. cbn [aead buf] in *.
  assert (a' = a) as -> by congruence.
  rewrite length_after_message;
    [by rewrite Hb2|exact Hpb|rewrite Hb2; lia|rewrite Hb2; lia].
Qed.

Lemma readMessage_full (a : AEAD) (n : nat) (cr : t) :
  (n <= length (remaining (reader cr)))%nat → (n <= length (buf cr))%nat →
  let r := readMessage a n cr in
  (r.2 = None ∨ r.2 = Some (Errorf "failed to decrypt" errOpen))
  ∧ remaining (reader r.1) = drop n (remaining (reader cr))
  ∧ final (reader r.1) = final (reader cr)
  ∧ aead r.1 = aead cr
  ∧ length (buf r.1) = length (buf cr).
Proof.
  intros Hn Hcap. unfold readMessage, io_ReadFull.
  destruct (Nat.leb_spec n (length (remaining (reader cr)))) as [_|?]; [|lia].
  cbn [set_reader set_buf reader ssCipher aead counter buf set_counter].
  assert (length (write_at 0 (take n (remaining (reader cr))) (buf cr))
          = length (buf cr)) as Hlen.
  { apply length_write_at. rewrite length_take. lia. }
  destruct (Open a _ _) as [pt|]; cbn; split_and!; auto.
  by rewrite length_append_at.
Qed.

Lemma readMessage_keeps (a : AEAD) (n : nat) (cr : t) :
  (n <= length (buf cr))%nat →
  aead (readMessage a n cr).1 = aead cr
  ∧ length (buf (readMessage a n cr).1) = length (buf cr).
Proof.
  intros Hcap.
  destruct (decide (length (remaining (reader cr)) < n)%nat) as [Hlt|Hge].
  - by destruct (readMessage_short a n cr Hlt Hcap) as (_ & ? & ?).
  - destruct (readMessage_full a n cr) as (_ & _ & _ & ? & ?); [lia|done|].
    done.
Qed.

(** [reader_wf] is kept by [ReadChunk], whatever it returns. *)
Lemma ReadChunk_wf (cr : t) : reader_wf cr → reader_wf (ReadChunk cr).1.
Proof.
  intros Hwf. unfold ReadChunk.
  assert (∀ cr1 res, init cr = (cr1, res) →
            reader_wf cr1
            ∧ ∀ a, res = Ok a →
                (2 + Overhead a <= length (buf cr1))%nat
                ∧ aead cr1 = Some a) as Hinit.
  { intros cr1 res. unfold init.
    destruct (aead cr) as [a|] eqn:Ha.
    - intros [= <- <-]. split; [done|]. intros a' [= <-].
      pose proof (Hwf a Ha). pose proof mask_val. split; [lia|done].
    - destruct (io_ReadFull _ _) as [[s salt] [e|]].
      + intros [= <- <-]. split; [|done]. intros a Ha'. cbn in Ha'. congruence.
      + cbn [set_reader ssCipher reader].
        destruct (Decrypter _ _) as [a|e].
        * intros [= <- <-]. split.
          -- intros a' [= <-]. cbn [buf]. apply length_replicate.
          -- intros a' [= <-]. cbn [buf aead]. rewrite length_replicate.
             pose proof mask_val. split; [lia|done].
        * intros [= <- <-]. split; [|done].
          intros a Ha'. cbn in Ha'. congruence. }
  destruct (init cr) as [cr1 [a|e]] eqn:Hi;
    destruct (Hinit _ _ eq_refl) as [Hwf1 Hok]; [|done].
  destruct (Hok a eq_refl) as [Hcap Ha1].
  destruct (readMessage_keeps a (2 + Overhead a) cr1 Hcap) as [Ha2 Hb2].
  assert (reader_wf (readMessage a (2 + Overhead a) cr1).1) as Hwf2.
  { intros a' Ha'. rewrite Hb2. apply Hwf1. congruence. }
  destruct (readMessage a (2 + Overhead a) cr1) as [cr2 [e|]];
    cbn [fst] in *; [done|].
  cbv zeta. destruct (_ <? _)%nat eqn:Hsb; [done|].
  apply Nat.ltb_ge in Hsb.
  destruct (readMessage_keeps a _ cr2 Hsb) as [Ha3 Hb3].
  assert (reader_wf (readMessage a
            (Z.to_nat (Z.land (Uint16 (buf cr2)) (Z.of_nat payloadSizeMask))
             + Overhead a) cr2).1) as Hwf3.
  { intros a' Ha'. rewrite Hb3. apply Hwf2. congruence. }
  by destruct (readMessage a _ cr2) as [cr3 [e|]].
Qed.

(** [ReadChunk] on a stream that ends with [io.EOF], for a reader in
    any state: [io.EOF] exactly when nothing is left to read before the
    salt or before a length block; [io.ErrUnexpectedEOF] when the stream
    ends inside the salt, inside the length block or before the end of
    the payload block. *)
Lemma ReadChunk_eof_cases (cr : chunkReader.t) :
  reader_wf cr → final (reader cr) = io_EOF →
  let res := (ReadChunk cr).2 in
  (res = Err io_EOF ↔
   (aead cr = None ∧ remaining (reader cr) = []
    ∧ (0 < SaltSize (ssCipher cr))%nat)
   ∨ ∃ a ctr, chunk_input cr = Some (a, ctr, []))
  ∧ (aead cr = None →
     (0 < length (remaining (reader cr)) < SaltSize (ssCipher cr))%nat →
     res = Err io_ErrUnexpectedEOF)
  ∧ (∀ a ctr rem,
       chunk_input cr = Some (a, ctr, rem) →
       (0 < length rem < 2 + Overhead a)%nat →
       res = Err io_ErrUnexpectedEOF)
  ∧ (∀ a ctr lenblock rem sizefield,
       chunk_input cr = Some (a, ctr, lenblock ++ rem) →
       length lenblock = (2 + Overhead a)%nat →
       Open a ctr lenblock = Some sizefield → length sizefield = 2%nat →
       (length rem
        < Z.to_nat (Z.land (Uint16 sizefield) 0x3FFF) + Overhead a)%nat →
       res = Err io_ErrUnexpectedEOF).
Proof.
  intros Hwf Hfin res.
  (* the salt *)
  assert ((aead cr = None ∧
           (length (remaining (reader cr)) < SaltSize (ssCipher cr))%nat ∧
           res = Err (match remaining (reader cr) with
                      | [] => io_EOF | _ => io_ErrUnexpectedEOF end))
          ∨ (aead cr = None ∧ chunk_input cr = None ∧
             (SaltSize (ssCipher cr) <= length (remaining (reader cr)))%nat ∧
             ∃ e, res = Err (Errorf "failed to create AEAD" e))
          ∨ ∃ a ctr rem cr1,
              chunk_input cr = Some (a, ctr, rem)
              ∧ init cr = (cr1, Ok a)
              ∧ aead cr1 = Some a ∧ counter cr1 = ctr
              ∧ remaining (reader cr1) = rem
              ∧ final (reader cr1) = io_EOF
              ∧ length (buf cr1) = (payloadSizeMask + Overhead a)%nat)
    as Hsalt.
  { destruct (chunk_input cr) as [[[a ctr] rem]|] eqn:Hin.
    - right. right.
      destruct (init_spec cr a ctr rem Hwf Hin)
        as (cr1 & ? & ? & ? & ? & ? & ? & ?).
      exists a, ctr, rem, cr1. split_and!; try done. congruence.
    - unfold chunk_input in Hin. subst res. unfold ReadChunk, init.
      destruct (aead cr) as [a|] eqn:Ha; [done|].
      unfold io_ReadFull.
      destruct (Nat.leb_spec (SaltSize (ssCipher cr))
                  (length (remaining (reader cr)))) as [Hle|Hlt].
      + right. left. cbn [set_reader ssCipher].
        destruct (Decrypter _ _) as [a|e]; [done|].
        split_and!; try done. by exists e.
      + left. split_and!; try done. rewrite Hfin.
        by destruct (remaining (reader cr)). }
  destruct Hsalt as [(Ha & Hlt & Hres)|[(Ha & Hin & Hle & e & Hres)
    |(a & ctr & rem & cr1 & Hin & Hinit & Ha1 & Hc1 & Hr1 & Hf1 & Hb1)]].
  - (* the stream ends before the salt does *)
    split_and!.
    + rewrite Hres. split.
      * intros [= Heq]. left. split_and!; [done| |lia].
        by destruct (remaining (reader cr)).
      * intros [(_ & -> & _)|(a & ctr & Hin)]; [done|].
        unfold chunk_input in Hin. rewrite Ha in Hin.
        destruct (Nat.leb_spec (SaltSize (ssCipher cr))
                    (length (remaining (reader cr)))); [lia|done].
    + intros _ [Hpos _]. rewrite Hres.
      destruct (remaining (reader cr)); [simpl in Hpos; lia|done].
    + intros a ctr rem Hin. unfold chunk_input in Hin. rewrite Ha in Hin.
      destruct (Nat.leb_spec (SaltSize (ssCipher cr))
                  (length (remaining (reader cr)))); [lia|done].
    + intros a ctr lenblock rem sf Hin. unfold chunk_input in Hin.
      rewrite Ha in Hin.
      destruct (Nat.leb_spec (SaltSize (ssCipher cr))
                  (length (remaining (reader cr)))); [lia|done].
  - (* no AEAD for this salt *)
    split_and!.
    + rewrite Hres. split; [done|].
      intros [(_ & Hnil & Hpos)|(a & ctr & Hin')]; [|congruence].
      rewrite Hnil in Hle. simpl in Hle. lia.
    + intros _ ?. lia.
    + intros; congruence.
    + intros; congruence.
  - (* the salt is behind *)
    assert (res = (match readMessage a (2 + Overhead a) cr1 with
                   | (cr, Some e) =>
                       (cr, Err (if negb (is_EOF e)
                                    && negb (is_ErrUnexpectedEOF e)
                                 then Errorf "failed to read payload size" e
                                 else e))
                   | (cr, None) =>
                       let size := Z.to_nat (Z.land (Uint16 (buf cr))
                                     16383) in
                       let sizeWithTag := (size + Overhead a)%nat in
                       if (length (buf cr) <? sizeWithTag)%nat
                       then (cr, Err io_ErrShortBuffer)
                       else
                         match readMessage a sizeWithTag cr with
                         | (cr, Some e) =>
                             (cr, Err (if is_EOF e then io_ErrUnexpectedEOF
                                       else e))
                         | (cr, None) => (cr, Ok (slice 0 size (buf cr)))
                         end
                   end).2) as Hres.
    { subst res. unfold ReadChunk. by rewrite Hinit, mask_val. }
    assert ((2 + Overhead a <= length (buf cr1))%nat
            ∧ ∀ x, (Z.to_nat (Z.land x 16383) + Overhead a
                    <= length (buf cr1))%nat) as [Hcap Hcapx].
    { pose proof mask_val as Hmask.
      split; [lia|]. intros x. pose proof (land_mask_bound x) as Hx.
      rewrite Hmask in Hx. lia. }
    clear Hb1 Hinit. clearbody res.
    assert ((aead cr = None ∧ remaining (reader cr) = []
             ∧ (0 < SaltSize (ssCipher cr))%nat)
            ∨ (∃ a ctr, chunk_input cr = Some (a, ctr, [])) ↔ rem = [])
      as Hbd.
    { rewrite Hin. split.
      - intros [(Ha & Hnil & Hpos)|(? & ? & Heq)]; [|by injection Heq].
        exfalso. unfold chunk_input in Hin. rewrite Ha, Hnil in Hin.
        destruct (Nat.leb_spec (SaltSize (ssCipher cr)) (@length byte []));
          [simpl in *; lia|discriminate Hin].
      - intros ->. right. eauto. }
    assert (aead cr = None →
            (SaltSize (ssCipher cr) <= length (remaining (reader cr)))%nat)
      as Hsalt.
    { intros Ha. unfold chunk_input in Hin. rewrite Ha in Hin.
      destruct (Nat.leb_spec (SaltSize (ssCipher cr))
                  (length (remaining (reader cr)))); [done|discriminate Hin]. }
    rewrite Hbd, Hin. clear Hbd Hin Hwf.
    destruct (decide (length rem < 2 + Overhead a)%nat) as [Hshort|Hlong].
    + (* the stream ends before the length block does *)
      destruct (readMessage_short a (2 + Overhead a) cr1) as (He & _);
        [rewrite Hr1; lia|lia|].
      rewrite Hr1, Hf1 in He.
      destruct (readMessage a (2 + Overhead a) cr1) as [cr2 e2].
      cbn [snd] in He. subst e2. cbn [snd] in Hres.
      assert (res = Err (match rem with
                         | [] => io_EOF | _ => io_ErrUnexpectedEOF end))
        as Hres' by (rewrite Hres; by destruct rem).
      clear Hres. split_and!.
      * rewrite Hres'. destruct rem; split; congruence.
      * intros Ha ?. specialize (Hsalt Ha). lia.
      * intros a' ctr' rem' [= <- <- <-] [Hpos _]. rewrite Hres'.
        destruct rem; [simpl in Hpos; lia|reflexivity].
      * intros a' ctr' lenblock rem' sf [= <- <- ->] Hlb.
        rewrite length_app in Hshort. lia.
    + (* the length block is there *)
      assert (rem ≠ []) as Hne by (intros ->; simpl in Hlong; lia).
      destruct (readMessage_full a (2 + Overhead a) cr1)
        as (He & Hr2 & Hf2 & Ha2 & Hb2); [rewrite Hr1; lia|lia|].
      cbv zeta in He, Hr2, Hf2, Ha2, Hb2.
      assert (res ≠ Err io_EOF ∧
              ∀ lenblock rem' sf,
                rem = lenblock ++ rem' →
                length lenblock = (2 + Overhead a)%nat →
                Open a ctr lenblock = Some sf → length sf = 2%nat →
                (length rem'
                 < Z.to_nat (Z.land (Uint16 sf) 0x3FFF) + Overhead a)%nat →
                res = Err io_ErrUnexpectedEOF) as [Hneq Hpay].
      { split.
        - destruct (readMessage a (2 + Overhead a) cr1) as [cr2 e2].
          cbn [fst snd] in *. rewrite Hres.
          destruct He as [->| ->]; [|discriminate]. cbv zeta.
          set (n2 := (_ + Overhead a)%nat) in *.
          destruct (Nat.ltb_spec (length (buf cr2)) n2) as [|Hsb];
            [discriminate|].
          destruct (decide (length (remaining (reader cr2)) < n2)%nat)
            as [Hs2|Hl2].
          + destruct (readMessage_short a n2 cr2 Hs2 Hsb) as (He2 & _).
            destruct (readMessage a n2 cr2) as [cr3 e3].
            cbn [snd] in He2 |- *. subst e3. rewrite Hf2, Hf1.
            destruct (remaining (reader cr2)); discriminate.
          + destruct (readMessage_full a n2 cr2) as (He2 & _); [lia|lia|].
            destruct (readMessage a n2 cr2) as [cr3 e3].
            cbn [snd] in He2 |- *. destruct He2 as [->| ->]; discriminate.
        - intros lenblock rem' sf Hrem Hlb Hopen Hsf Hlt.
          rewrite Hres. rewrite Hrem in Hr1. rewrite <- Hc1 in Hopen.
          destruct sf as [|hi [|lo [|]]]; try discriminate Hsf.
          assert (length [hi; lo] <= length (buf cr1))%nat as Hcap0
            by (simpl; lia).
          rewrite (readMessage_ok a _ cr1 lenblock rem' [hi; lo]
                     Hr1 Hlb Hcap Hopen Hcap0).
          cbv zeta. cbn [buf].
          replace (Uint16 ([hi; lo] ++ _)) with (Uint16 [hi; lo])
            by reflexivity.
          set (size := Z.to_nat (Z.land (Uint16 [hi; lo]) 16383)) in *.
          set (buf2 := [hi; lo] ++ _).
          assert (length buf2 = length (buf cr1)) as Hlen2.
          { subst buf2. by apply length_after_message. }
          rewrite Hlen2.
          pose proof (Hcapx (Uint16 [hi; lo])) as Hc2. fold size in Hc2.
          destruct (Nat.ltb_spec (length (buf cr1)) (size + Overhead a));
            [exfalso; lia|].
          set (cr2 := mk _ _ _ _ buf2).
          destruct (readMessage_short a (size + Overhead a) cr2) as (He2 & _);
            [subst cr2; exact Hlt|subst cr2; cbn [buf]; lia|].
          destruct (readMessage a (size + Overhead a) cr2) as [cr3 e3].
          cbn [snd] in He2 |- *. subst e3. subst cr2.
          cbn [reader remaining final]. rewrite Hf1.
          destruct rem'; reflexivity. }
      split_and!.
      * split; [intros; contradiction|intros; contradiction].
      * intros Ha ?. specialize (Hsalt Ha). lia.
      * intros a' ctr' rem' [= <- <- <-] ?. lia.
      * intros a' ctr' lenblock rem' sf [= <- <- Hrem]. by apply Hpay.
Qed.

(** C2, as the code has it.  The reader takes the low 14 bits of the
    opened 16-bit length as the payload size and never refuses a length:
    whatever the top two bits, and for a length of zero too, it reads
    [size + Overhead] bytes, opens them and returns the payload. *)
Theorem ReadChunk_masks_length (cr : chunkReader.t) (a : AEAD)
    (ctr lenblock payblock rest pt : list byte) (hi lo : byte) :
  reader_wf cr →
  chunk_input cr = Some (a, ctr, lenblock ++ payblock ++ rest) →
  length lenblock = (2 + Overhead a)%nat →
  Open a ctr lenblock = Some [hi; lo] →
  let L := Uint16 [hi; lo] in
  let size := Z.to_nat (Z.land L 0x3FFF) in
  length payblock = (size + Overhead a)%nat →
  Open a (increment ctr) payblock = Some pt → length pt = size →
  (ReadChunk cr).2 = Ok pt
  ∧ remaining (reader (ReadChunk cr).1) = rest
  ∧ Z.of_nat size = L mod 16384
  ∧ 0 <= Z.of_nat size <= 16383.
Proof.
  intros Hwf Hin Hlb Hopen1 L size Hpb Hopen2 Hpt.
  assert (size = Z.to_nat (Z.land (Uint16 [hi; lo])
                             (Z.of_nat payloadSizeMask))) as Hsize
    by (by rewrite mask_val).
  rewrite Hsize in Hpb, Hpt.
  destruct (ReadChunk_chunk cr a ctr lenblock payblock rest [hi; lo] pt
              Hwf Hin Hlb Hopen1 eq_refl Hpb Hopen2 Hpt)
    as (cr' & -> & _ & _ & Hrest & _).
  pose proof (land_mask_bound (Uint16 [hi; lo])) as Hb.
  rewrite mask_val in Hsize, Hb. fold L in Hsize, Hb.
  cbn [fst snd]. split_and!; try done; try lia.
  rewrite Hsize, Z2Nat.id by lia.
  apply (Z.land_ones L 14). lia.
Qed.

Lemma ReadChunk_masks_length_witness :
  let cr := readConverter.cr
              (readConverter.NewShadowsocksReader
                 {| remaining := [7; 7; 0x40; 0x01; 0; 42; 1; 9];
                    final := io_EOF |} testCipher) in
  chunk_input cr
  = Some (testAEAD, replicate 12 0, [0x40; 0x01; 0] ++ [42; 1] ++ [9])
  ∧ (ReadChunk cr).2 = Ok [42]
  ∧ remaining (reader (ReadChunk cr).1) = [9].
Proof.
  intros cr.
  assert (chunk_input cr
          = Some (testAEAD, replicate 12 0, [0x40; 0x01; 0] ++ [42; 1] ++ [9]))
    as Hin by (vm_compute; reflexivity).
  split; [exact Hin|].
  assert (reader_wf cr) as Hwf by (intros a Ha; discriminate Ha).
  destruct (ReadChunk_masks_length cr testAEAD (replicate 12 0)
              [0x40; 0x01; 0] [42; 1] [9] [42] 0x40 0x01 Hwf Hin
              eq_refl eq_refl eq_refl eq_refl eq_refl)
    as (H1 & H2 & _).
  split; assumption.
Defined.

(** A length field with a reserved bit set, and a length field of zero,
    are both accepted: with the test cipher, a chunk whose opened length
    is 0x8001 is read as a chunk of one byte, and a chunk whose opened
    length is 0 as an empty chunk. *)
Lemma ReadChunk_accepts_reserved_bits_and_zero :
  let cr1 := readConverter.cr
               (readConverter.NewShadowsocksReader
                  {| remaining := [7; 7; 0x80; 0x01; 0; 42; 1];
                     final := io_EOF |} testCipher) in
  let cr2 := readConverter.cr
               (readConverter.NewShadowsocksReader
                  {| remaining := [7; 7; 0; 0; 0; 1];
                     final := io_EOF |} testCipher) in
  Open testAEAD (replicate 12 0) [0x80; 0x01; 0] = Some [0x80; 0x01]
  ∧ Uint16 [0x80; 0x01] = 0x8001
  ∧ Z.land 0x8001 0xC000 ≠ 0
  ∧ (ReadChunk cr1).2 = Ok [42]
  ∧ Open testAEAD (replicate 12 0) [0; 0; 0] = Some [0; 0]
  ∧ Uint16 [0; 0] = 0
  ∧ (ReadChunk cr2).2 = Ok [].
Proof.
  intros cr1 cr2. split_and!; try (vm_compute; reflexivity).
  vm_compute. discriminate.
Qed.

End ChunkReader.

(** ** Writing a slice through a reliable sink *)

Section WriteAll.
Import shadowsocksWriter.

Lemma int64_idem (x : Z) : int64 (int64 x) = int64 x.
Proof.
  pose proof (int64_add x 0) as H. by rewrite !Z.add_0_r in H.
Qed.

Lemma emits_normal (n : nat) : (0 < n)%nat → emits modeNormal n = true.
Proof.
  intros H. unfold emits. simpl.
  apply orb_true_iff. right. by apply Nat.ltb_lt.
Qed.

Lemma loop_normal (c : Cipher) (a : AEAD) (fuel : nat) :
  ∀ (p : list byte) (sw : t) (start : nat) (written : Z) chunks pend,
    writer_inv c sw chunks pend → aead sw = Some a →
    start_ok c a start chunks →
    sink_behaviour (writer sw) = reliable →
    (length p + 2 <= fuel)%nat →
    ∃ sw' chunks',
      readFrom_loop fuel bytes_Reader a modeNormal p sw start written
      = (sw', [], Returned (int64 (written + Z.of_nat (length p))) None)
      ∧ writer_inv c sw' chunks' []
      ∧ aead sw' = Some a
      ∧ concat chunks' = concat chunks ++ pend ++ p
      ∧ 16383 * (Z.of_nat (length chunks') - Z.of_nat (length chunks))
        <= Z.of_nat (length pend + length p) + 16382.
Proof.
  induction fuel as [|fuel IH];
    intros p sw start written chunks pend Hinv Ha Hstart Hrel Hfuel; [lia|].
  pose proof mask_val as Hmask.
  assert (length pend < payloadSizeMask)%nat as Hroom by apply Hinv.
  cbn [readFrom_loop].
  destruct (readFrom_body bytes_Reader a modeNormal p sw start written)
    as [[[[sw1 r1] start1] written1] err1] eqn:Hbody.
  destruct (body_inv _ c a modeNormal _ sw start written chunks pend Hinv Ha
              Hstart _ _ _ _ _ Hbody)
    as (Hr & Hw & Ha1 & Hfl1 & Hsb1 & Hinv1 & Hstart1 & Herr).
  cbn [R_read bytes_Reader] in *. unfold ghost_step in *.
  rewrite Hrel in Herr.
  destruct p as [|x p].
  - (* the reader is exhausted *)
    cbn [bytes_Read fst snd] in *. rewrite app_nil_r in *.
    subst r1 written1. rewrite Z.add_0_r.
    destruct pend as [|y pend].
    + rewrite emits_0 in *. cbn [fst snd] in *. destruct Herr as [-> _].
      cbn [is_EOF]. exists sw1, chunks.
      split_and!; [reflexivity|exact Hinv1|exact Ha1| |].
      * by rewrite app_nil_r.
      * simpl. lia.
    + rewrite emits_normal in * by (simpl; lia). cbn [fst snd] in *.
      subst err1. cbn [fmap option_fmap option_map].
      destruct fuel as [|fuel]; [simpl in Hfuel; lia|].
      destruct (loop_eof fuel c a modeNormal sw1 start1 (int64 written)
                  (chunks ++ [y :: pend]) [] Hinv1 Ha1 Hstart1
                  (emits_0 modeNormal))
        as (sw2 & Hloop & _ & _ & Ha2 & Hinv2).
      exists sw2, (chunks ++ [y :: pend]). rewrite Hloop.
      rewrite int64_idem.
      split_and!; [reflexivity|exact Hinv2|exact Ha2| |].
      * rewrite concat_app. simpl. by rewrite !app_nil_r.
      * rewrite length_app. simpl in *. lia.
  - (* the reader delivers what fits *)
    set (q := x :: p) in *.
    set (cap := (payloadSizeMask - length pend)%nat) in *.
    assert (bytes_Read q cap = (take cap q, None, drop cap q)) as Hrd
      by done.
    rewrite Hrd in *. cbn [fst snd] in *.
    assert (0 < length (pend ++ take cap q))%nat as Hpos.
    { rewrite length_app, length_take. subst q cap. simpl. lia. }
    rewrite emits_normal in * by done. cbn [fst snd] in *.
    subst r1 written1 err1. cbn [fmap option_fmap option_map].
    assert (sink_behaviour (writer sw1) = reliable) as Hrel1 by congruence.
    assert (length (drop cap q) + 2 <= fuel)%nat as Hfuel1.
    { rewrite length_drop. subst q cap. simpl in *. lia. }
    destruct (IH (drop cap q) sw1 start1
                (int64 (written + Z.of_nat (length (take cap q))))
                (chunks ++ [pend ++ take cap q]) [] Hinv1 Ha1 Hstart1
                Hrel1 Hfuel1)
      as (sw2 & chunks2 & Hloop & Hinv2 & Ha2 & Hcat & Hcount).
    exists sw2, chunks2. rewrite Hloop, int64_add.
    split_and!; [|exact Hinv2|exact Ha2| |].
    + do 2 f_equal. rewrite <- Z.add_assoc, <- Nat2Z.inj_add.
      rewrite <- length_app, take_drop. done.
    + rewrite Hcat, concat_app. simpl. rewrite !app_nil_r.
      rewrite <- !app_assoc. by rewrite take_drop.
    + rewrite length_app in Hcount. rewrite length_drop in Hcount.
      cbn [length] in Hcount.
      assert (length q = S (length p)) as Hq by done.
      clearbody q. subst cap. lia.
Qed.

Lemma Write_new (c : Cipher) (e : Entropy) (P salt : list byte) (a : AEAD) :
  rand_ReadFull e 0 (SaltSize c) = Ok salt → Encrypter c salt = Ok a →
  ∃ sw' chunks,
    Write P (NewShadowsocksWriter (new_sink reliable) c e)
    = (sw', Returned (int64 (Z.of_nat (length P))) None)
    ∧ writer_inv c sw' chunks []
    ∧ aead sw' = Some a
    ∧ concat chunks = P
    ∧ 16383 * Z.of_nat (length chunks) <= Z.of_nat (length P) + 16382.
Proof.
  intros Hsalt Henc. unfold Write, write, readFrom.
  pose proof (New_inv reliable c e) as Hinv.
  destruct (init (NewShadowsocksWriter (new_sink reliable) c e))
    as [sw0 res] eqn:Hinit.
  destruct (init_inv c _ [] [] Hinv _ _ Hinit) as (Hinv0 & _ & Hw0 & Hres).
  assert (res = Ok a) as ->.
  { unfold init in Hinit.
    cbn [NewShadowsocksWriter aead set_rand_pos rand rand_pos ssCipher]
      in Hinit.
    rewrite Hsalt, Henc in Hinit. by injection Hinit as _ <-. }
  cbn [is_modeNormal].
  pose proof (writer_inv_set_flush c true sw0 _ _ Hinv0) as Hinv1.
  assert (ssCipher (set_flush true sw0) = c) as -> by apply Hinv1.
  destruct (loop_normal c a (length P + 2) P (set_flush true sw0)
              (if isZero (counter (set_flush true sw0)) then 0%nat
               else SaltSize c) 0 [] [] Hinv1 Hres
              (start_ok_init c a _ [] [] Hinv1 Hres))
    as (sw' & chunks & Hloop & Hinv' & Ha' & Hcat & Hcount).
  { cbn [set_flush writer]. by rewrite Hw0. }
  { lia. }
  exists sw', chunks. rewrite Hloop.
  split_and!; [reflexivity|exact Hinv'|exact Ha'|exact Hcat|].
  simpl in Hcount. lia.
Qed.

End WriteAll.

(** ** Reading the frames back *)

Section ReadAll.
Import chunkReader readConverter.

Lemma concat_wire_writes (a : AEAD) (salt : list byte) chunks :
  chunks ≠ [] →
  concat (wire_writes a salt chunks) = salt ++ concat (imap (frame a) chunks).
Proof.
  intros Hne. destruct chunks as [|ch chunks]; [done|].
  unfold wire_writes. cbn [imap concat]. by rewrite <- app_assoc.
Qed.

Lemma ReadChunk_eof (cr : chunkReader.t) (a : AEAD) (ctr : list byte) :
  reader_wf cr → chunk_input cr = Some (a, ctr, []) →
  final (reader cr) = io_EOF →
  ∃ cr', ReadChunk cr = (cr', Err io_EOF).
Proof.
  intros Hwf Hin Hfin.
  destruct (init_spec cr a ctr _ Hwf Hin)
    as (cr1 & Hinit & Ha1 & Hc1 & Hr1 & Hf1 & Hs1 & Hb1).
  unfold ReadChunk. rewrite Hinit.
  destruct (readMessage_short a (2 + Overhead a) cr1) as (He & _).
  { rewrite Hr1. simpl. lia. }
  { pose proof mask_val. lia. }
  destruct (readMessage a (2 + Overhead a) cr1) as [cr2 e2].
  cbn [snd] in He. subst e2. rewrite Hr1, Hf1, Hfin. by eexists.
Qed.

Lemma ReadChunk_eof_fresh (s : Stream) (c : Cipher) :
  remaining s = [] → final s = io_EOF → (0 < SaltSize c)%nat →
  ∃ cr', ReadChunk (chunkReader.mk s c None [] []) = (cr', Err io_EOF).
Proof.
  intros Hrem Hfin Hpos. unfold ReadChunk, init, io_ReadFull.
  cbn [aead reader ssCipher]. rewrite Hrem, Hfin.
  destruct (Nat.leb_spec (SaltSize c) (@length byte [])) as [Hle|_].
  { simpl in Hle. lia. }
  by eexists.
Qed.

(** [WriteTo] over a stream that holds the frames of [chunks], numbered
    from [k], and then ends. *)
Lemma WriteTo_frames (enc dec : AEAD) (chunks : list (list byte)) :
  exact_overhead enc → opens enc dec → Forall chunk_ok chunks →
  ∀ (k : nat) (cr : chunkReader.t) (w : Sink) (written : Z) (fuel : nat),
    reader_wf cr →
    chunk_input cr
    = Some (dec, nonce_of (NonceSize enc) (2 * k),
            concat (imap (λ i, frame enc (k + i)) chunks)) →
    final (reader cr) = io_EOF →
    sink_behaviour w = reliable →
    int64 written = written →
    (length chunks < fuel)%nat →
    ∃ c' w',
      WriteTo fuel w (readConverter.mk cr []) written
      = (c', w',
         Returned (int64 (written + Z.of_nat (length (concat chunks)))) None)
      ∧ sink_log w' = sink_log w ++ chunks.
Proof.
  intros Hex (Hns & Hov & Hopen) Hok.
  induction Hok as [|ch chunks Hch Hok IH];
    intros k cr w written fuel Hwf Hin Hfin Hrel Hwr Hfuel;
    (destruct fuel as [|fuel]; [simpl in Hfuel; lia|]);
    cbn [WriteTo]; unfold ensureLeftover; cbn [leftover length Nat.ltb Nat.leb
                                                 readConverter.cr].
  - destruct (ReadChunk_eof cr dec _ Hwf Hin Hfin) as (cr' & ->).
    cbn [is_EOF]. eexists _, w. split; [|by rewrite app_nil_r].
    simpl. by rewrite Z.add_0_r, Hwr.
  - cbn [imap concat] in Hin. unfold frame at 1 in Hin.
    rewrite <- app_assoc, Nat.add_0_r in Hin.
    set (sizefield := PutUint16 (uint16 (Z.of_nat (length ch)))) in *.
    assert (Z.to_nat (Z.land (Uint16 sizefield) (Z.of_nat payloadSizeMask))
            = length ch) as Hsize.
    { subst sizefield. rewrite length_field by done.
      destruct Hch as [H1 H2]. pose proof mask_val.
      rewrite land_mask by lia. lia. }
    edestruct (ReadChunk_chunk cr dec _ _ _ _ sizefield ch Hwf Hin)
      as (cr' & HRC & Ha' & Hc' & Hr' & Hf' & Hs' & Hwf').
    { by rewrite Hex, Hov. }
    { apply Hopen. }
    { done. }
    { rewrite Hsize, Hex, Hov. done. }
    { rewrite Nat.add_1_r, <- nonce_of_S. apply Hopen. }
    { by rewrite Hsize. }
    rewrite HRC. cbn [leftover readConverter.cr].
    unfold sink_Write. rewrite Hrel. unfold reliable at 1.
    rewrite drop_all.
    set (w1 := {| sink_log := sink_log w ++ [ch];
                  sink_behaviour := reliable |}).
    destruct (IH (S k) cr' w1
                (int64 (written + Z.of_nat (length ch))) fuel Hwf')
      as (c2 & w2 & HWT & Hlog).
    { unfold chunk_input. rewrite Ha', Hc', Hr'.
      f_equal. f_equal; [f_equal|].
      - rewrite <- !nonce_of_S. f_equal. lia.
      - f_equal. apply imap_ext. intros i x _. simpl. f_equal. lia. }
    { congruence. }
    { done. }
    { apply int64_idem. }
    { simpl in Hfuel. lia. }
    exists c2, w2. rewrite HWT. split.
    + rewrite int64_add. cbn [concat].
      by rewrite length_app, Nat2Z.inj_add, Z.add_assoc.
    + rewrite Hlog. subst w1. cbn [sink_log]. by rewrite <- app_assoc.
Qed.

End ReadAll.

(** ** The round trip *)

Section RoundTrip.
Import shadowsocksWriter.

Lemma length_concat_chunks chunks :
  Forall chunk_ok chunks → (length chunks <= length (concat chunks))%nat.
Proof.
  induction 1 as [|ch chunks [H1 _] _ IH]; [done|].
  cbn [concat length]. rewrite length_app. lia.
Qed.

Lemma testAEAD_opens : opens testAEAD testAEAD.
Proof.
  split_and!; try done. intros nonce p. simpl. unfold test_Open, test_Seal.
  rewrite last_snoc, Z.eqb_refl, length_app. simpl.
  rewrite Nat.add_sub. by rewrite take_app_length.
Qed.

Lemma testCipher_supported : supported testCipher.
Proof.
  intros salt _. exists testAEAD, testAEAD.
  split_and!; try done.
  - apply testAEAD_exact.
  - simpl. lia.
  - apply testAEAD_opens.
Qed.

(** C1. For a supported cipher, a plaintext [P] of at most 10 MiB, a
    sink that takes every write and an entropy source that yields a
    salt: [Write(P)] on a new writer returns [len(P)] and no error, and
    a new reader for the same cipher, given the bytes that reached the
    sink and then end of stream, copies exactly [P] to its destination
    with [WriteTo], which returns [len(P)] and no error. *)
Theorem round_trip (c : Cipher) (e : Entropy) (P salt : list byte) :
  supported c →
  rand_ReadFull e 0 (SaltSize c) = Ok salt →
  Z.of_nat (length P) <= 10 * 1024 * 1024 →
  let sent := Write P (NewShadowsocksWriter (new_sink reliable) c e) in
  let wire := concat (sink_log (writer sent.1)) in
  sent.2 = Returned (Z.of_nat (length P)) None
  ∧ ∀ fuel, (length P < fuel)%nat →
      let received :=
        readConverter.WriteTo fuel (new_sink reliable)
          (readConverter.NewShadowsocksReader
             {| remaining := wire; final := io_EOF |} c) 0 in
      received.2 = Returned (Z.of_nat (length P)) None
      ∧ concat (sink_log received.1.2) = P.
Proof.
  intros Hsup Hsalt Hsize sent wire.
  destruct (Hsup salt (rand_ReadFull_length _ _ _ _ Hsalt))
    as (enc0 & _ & Henc0 & _).
  destruct (Write_new c e P salt enc0 Hsalt Henc0)
    as (sw' & chunks & HW & Hinv & Ha & Hcat & Hcount).
  assert (int64 (Z.of_nat (length P)) = Z.of_nat (length P)) as Hint
    by (apply int64_small; lia).
  subst wire sent. rewrite HW. cbn [fst snd]. rewrite Hint.
  split; [done|]. intros fuel Hfuel.
  destruct Hinv as [_ _ _ Hok _ Hst]. rewrite Ha in Hst.
  destruct Hst as (salt' & _ & _ & _ & Hlen' & _ & _ & Henc' & _ & _
    & Hwire & _).
  destruct (Hsup salt' Hlen') as (enc & dec & Henc & Hdec & Hex & Hns & Hop).
  assert (enc = enc0) as -> by congruence.
  assert (nowrap (NonceSize enc0) (length chunks)) as Hnw.
  { unfold nowrap.
    assert (256 ^ 2 <= 256 ^ Z.of_nat (NonceSize enc0))
      by (apply Z.pow_le_mono_r; lia).
    change (256 ^ 2) with 65536 in *. lia. }
  specialize (Hwire Hex Hnw).
  assert (length chunks < fuel)%nat as Hfuel'.
  { pose proof (length_concat_chunks chunks Hok). rewrite Hcat in *. lia. }
  rewrite Hwire. unfold readConverter.NewShadowsocksReader.
  destruct (decide (chunks = [] ∧ (0 < SaltSize c)%nat)) as [[-> Hpos]|Hfr].
  - (* nothing was sent, and the reader finds no salt *)
    simpl in Hcat. subst P. cbn [wire_writes imap concat].
    destruct fuel as [|fuel]; [lia|].
    cbn [readConverter.WriteTo]. unfold readConverter.ensureLeftover.
    cbn [readConverter.leftover length Nat.ltb Nat.leb readConverter.cr].
    destruct (ReadChunk_eof_fresh
                {| remaining := []; final := io_EOF |} c eq_refl eq_refl Hpos)
      as (cr' & ->).
    done.
  - set (stream := {| remaining := concat (wire_writes enc0 salt' chunks);
                      final := io_EOF |}).
    destruct (WriteTo_frames enc0 dec chunks Hex Hop Hok 0
                (chunkReader.mk stream c None [] []) (new_sink reliable)
                0 fuel)
      as (c' & w' & HWT & Hlog); try done.
    + unfold chunk_input.
      cbn [chunkReader.aead chunkReader.reader chunkReader.ssCipher
           stream remaining].
      destruct chunks as [|ch chunks].
      * assert (SaltSize c = 0%nat) as Hz by (destruct (SaltSize c); [done|
          exfalso; apply Hfr; split; [done|lia]]).
        destruct salt'; [|simpl in Hlen'; lia].
        rewrite Hz. cbn. rewrite Hdec.
        destruct Hop as (-> & _). done.
      * rewrite concat_wire_writes by done.
        destruct (Nat.leb_spec (SaltSize c)
                    (length (salt' ++ concat (imap (frame enc0)
                                                (ch :: chunks)))))
          as [_|Hlt]; [|rewrite length_app in Hlt; lia].
        rewrite <- Hlen', take_app_length, drop_app_length, Hdec.
        destruct Hop as (-> & _). done.
    + rewrite HWT. cbn [fst snd]. rewrite Hlog, Hcat. cbn [new_sink sink_log].
      rewrite Z.add_0_l, Hint. done.
Qed.

Lemma round_trip_witness :
  let P := [10; 20; 30] in
  let sent := Write P (NewShadowsocksWriter (new_sink reliable) testCipher
                         testEntropy) in
  let received :=
    readConverter.WriteTo 4 (new_sink reliable)
      (readConverter.NewShadowsocksReader
         {| remaining := concat (sink_log (writer sent.1));
            final := io_EOF |} testCipher) 0 in
  rand_ReadFull testEntropy 0 (SaltSize testCipher) = Ok [7; 7]
  ∧ concat (sink_log received.1.2) = P.
Proof.
  intros P sent received. split; [reflexivity|].
  assert (Z.of_nat (length P) <= 10 * 1024 * 1024) as Hsize
    by (vm_compute; discriminate).
  destruct (round_trip testCipher testEntropy P [7; 7] testCipher_supported
              eq_refl Hsize) as (_ & Hrx).
  destruct (Hrx 4%nat) as (_ & Hcat); [simpl; lia|].
  exact Hcat.
Defined.

End RoundTrip.

(** ** Sequences of writer calls *)

Section SliceCalls.
Import shadowsocksWriter.

(** The loop of [readFrom] over a [bytes.Reader] holding [p], on a sink
    that takes every write: the call returns [len(p)], and the bytes it
    was given follow the pending ones, in order, in the chunks it sends
    and in what it leaves pending. *)
Lemma loop_slice (c : Cipher) (a : AEAD) (m : mode) (fuel : nat) :
  ∀ (p : list byte) (sw : t) (start : nat) (written : Z) chunks pend,
    writer_inv c sw chunks pend → aead sw = Some a →
    start_ok c a start chunks →
    sink_behaviour (writer sw) = reliable →
    (length p + 2 <= fuel)%nat →
    ∃ sw' new pend',
      readFrom_loop fuel bytes_Reader a m p sw start written
      = (sw', [], Returned (int64 (written + Z.of_nat (length p))) None)
      ∧ writer_inv c sw' (chunks ++ new) pend'
      ∧ aead sw' = Some a
      ∧ flush sw' = flush sw
      ∧ sink_behaviour (writer sw') = reliable
      ∧ concat new ++ pend' = pend ++ p
      ∧ (if is_modeLazy m
         then Forall (λ ch, length ch = payloadSizeMask) new
         else pend' = []
              ∧ 16383 * Z.of_nat (length new)
                <= Z.of_nat (length pend + length p) + 16382).
Proof.
  induction fuel as [|fuel IH];
    intros p sw start written chunks pend Hinv Ha Hstart Hrel Hfuel; [lia|].
  assert (length pend < payloadSizeMask)%nat as Hroom by apply Hinv.
  cbn [readFrom_loop].
  destruct (readFrom_body bytes_Reader a m p sw start written)
    as [[[[sw1 r1] start1] written1] err1] eqn:Hbody.
  destruct (body_inv _ c a m _ sw start written chunks pend Hinv Ha
              Hstart _ _ _ _ _ Hbody)
    as (Hr & Hw & Ha1 & Hfl1 & Hsb1 & Hinv1 & Hstart1 & Herr).
  cbn [R_read bytes_Reader] in *. unfold ghost_step in *.
  rewrite Hrel in Herr.
  assert (sink_behaviour (writer sw1) = reliable) as Hrel1 by congruence.
  destruct p as [|x p].
  - (* the reader is exhausted *)
    cbn [bytes_Read fst snd] in *. rewrite app_nil_r in *.
    subst r1 written1. rewrite Z.add_0_r.
    destruct (emits m (length pend)) eqn:Hem; cbn [fst snd] in *.
    + subst err1. cbn [fmap option_fmap option_map].
      destruct fuel as [|fuel]; [simpl in Hfuel; lia|].
      destruct (loop_eof fuel c a m sw1 start1 (int64 written)
                  (chunks ++ [pend]) [] Hinv1 Ha1 Hstart1 (emits_0 m))
        as (sw2 & Hloop & Hw2 & Hfl2 & Ha2 & Hinv2).
      exists sw2, [pend], []. rewrite Hloop, int64_idem.
      split_and!; [reflexivity|exact Hinv2|exact Ha2|congruence|congruence
                  |by (cbn [concat]; rewrite !app_nil_r)|].
      unfold emits in Hem. destruct (is_modeLazy m); simpl in Hem.
      * rewrite orb_false_r in Hem. apply Nat.eqb_eq in Hem.
        by repeat constructor.
      * split; [done|]. pose proof mask_val.
        apply orb_true_iff in Hem as [Hem|Hem];
          [apply Nat.eqb_eq in Hem|apply Nat.ltb_lt in Hem]; simpl; lia.
    + destruct Herr as [-> _]. cbn [is_EOF].
      exists sw1, [], pend. rewrite app_nil_r.
      split_and!; [reflexivity|exact Hinv1|exact Ha1|exact Hfl1|exact Hrel1
                  |reflexivity|].
      destruct (is_modeLazy m) eqn:Hm; [constructor|].
      unfold emits in Hem. rewrite Hm in Hem. simpl in Hem.
      apply orb_false_iff in Hem as [_ Hem]. apply Nat.ltb_ge in Hem.
      split; [destruct pend; [done|simpl in Hem; lia]|simpl; lia].
  - (* the reader delivers what fits *)
    set (q := x :: p) in *.
    set (cap := (payloadSizeMask - length pend)%nat) in *.
    assert (bytes_Read q cap = (take cap q, None, drop cap q)) as Hrd
      by done.
    rewrite Hrd in *. cbn [fst snd] in *.
    assert (length (drop cap q) + 2 <= fuel)%nat as Hfuel1.
    { rewrite length_drop. subst q cap. simpl in *. lia. }
    assert (length q = S (length p)) as Hq by done.
    assert (length (take cap q) + length (drop cap q) = length q)%nat as Hsplit
      by (rewrite <- length_app, take_drop; done).
    assert (err1 = None) as ->.
    { destruct (emits m _); [by subst err1|by destruct Herr]. }
    subst r1 written1.
    destruct (emits m (length (pend ++ take cap q))) eqn:Hem;
      cbn [fst snd] in *.
    + destruct (IH (drop cap q) sw1 start1
                  (int64 (written + Z.of_nat (length (take cap q))))
                  (chunks ++ [pend ++ take cap q]) [] Hinv1 Ha1 Hstart1
                  Hrel1 Hfuel1)
        as (sw2 & new & pend2 & Hloop & Hinv2 & Ha2 & Hfl2 & Hrel2 & Hcat
            & Hshape).
      exists sw2, ((pend ++ take cap q) :: new), pend2.
      rewrite Hloop, int64_add.
      split_and!; [|by rewrite <- app_assoc in Hinv2|exact Ha2|congruence
                  |exact Hrel2| |].
      * do 2 f_equal. rewrite <- Z.add_assoc, <- Nat2Z.inj_add.
        by rewrite Hsplit.
      * cbn [concat]. rewrite <- !app_assoc, Hcat. cbn [app].
        by rewrite take_drop.
      * unfold emits in Hem. destruct (is_modeLazy m); simpl in Hem.
        -- rewrite orb_false_r in Hem. apply Nat.eqb_eq in Hem.
           by constructor.
        -- destruct Hshape as [-> Hcount]. split; [done|].
           cbn [length] in *. rewrite length_drop in Hcount.
           pose proof mask_val. clearbody q. subst cap. lia.
    + destruct (IH (drop cap q) sw1 start1
                  (int64 (written + Z.of_nat (length (take cap q))))
                  chunks (pend ++ take cap q) Hinv1 Ha1 Hstart1
                  Hrel1 Hfuel1)
        as (sw2 & new & pend2 & Hloop & Hinv2 & Ha2 & Hfl2 & Hrel2 & Hcat
            & Hshape).
      exists sw2, new, pend2. rewrite Hloop, int64_add.
      split_and!; [|exact Hinv2|exact Ha2|congruence|exact Hrel2| |].
      * do 2 f_equal. rewrite <- Z.add_assoc, <- Nat2Z.inj_add.
        by rewrite Hsplit.
      * rewrite Hcat, <- app_assoc. by rewrite take_drop.
      * destruct (is_modeLazy m) eqn:Hm; [done|].
        exfalso. unfold emits in Hem. rewrite Hm in Hem. simpl in Hem.
        apply orb_false_iff in Hem as [_ Hem]. apply Nat.ltb_ge in Hem.
        rewrite length_app, length_take in Hem. subst cap.
        clearbody q. lia.
Qed.

Lemma init_ok (c : Cipher) (sw : t) :
  supported c → ssCipher sw = c →
  is_Some (aead sw) ∨ entropy_ok (rand sw) →
  ∃ sw0 a, init sw = (sw0, Ok a).
Proof.
  intros Hsup Hc Hent. unfold init.
  destruct (aead sw) as [a|]; [eauto|].
  destruct Hent as [[? [=]]|Hent].
  cbn [set_rand_pos rand rand_pos ssCipher]. rewrite Hc.
  destruct (rand_ReadFull (rand sw) (rand_pos sw) (SaltSize c))
    as [salt|e] eqn:Hsalt.
  - destruct (Hsup salt (rand_ReadFull_length _ _ _ _ Hsalt))
      as (enc & _ & -> & _). eauto.
  - exfalso. unfold rand_ReadFull in Hsalt.
    destruct (SaltSize c); [done|].
    destruct (Hent (rand_pos sw) (S n)) as [s Hs]. congruence.
Qed.

(** [write] on a sink that takes every write, when [init] cannot fail. *)
Lemma write_slice (c : Cipher) (p : list byte) (m : mode) (sw : t)
    chunks pend :
  supported c → writer_inv c sw chunks pend →
  sink_behaviour (writer sw) = reliable →
  is_Some (aead sw) ∨ entropy_ok (rand sw) →
  ∃ sw' a new pend',
    write p m sw = (sw', Returned (int64 (Z.of_nat (length p))) None)
    ∧ writer_inv c sw' (chunks ++ new) pend'
    ∧ aead sw' = Some a
    ∧ (∀ a0, aead sw = Some a0 → a0 = a)
    ∧ flush sw' = is_modeNormal m || flush sw
    ∧ sink_behaviour (writer sw') = reliable
    ∧ concat new ++ pend' = pend ++ p
    ∧ (if is_modeLazy m
       then Forall (λ ch, length ch = payloadSizeMask) new
       else pend' = []
            ∧ 16383 * Z.of_nat (length new)
              <= Z.of_nat (length pend + length p) + 16382).
Proof.
  intros Hsup Hinv Hrel Hent. unfold write, readFrom.
  destruct (init_ok c sw Hsup ltac:(apply Hinv) Hent) as (sw0 & a & Hinit).
  rewrite Hinit.
  destruct (init_inv c sw chunks pend Hinv _ _ Hinit)
    as (Hinv0 & Hfl0 & Hw0 & Ha0).
  set (sw1 := if is_modeNormal m then set_flush true sw0 else sw0).
  assert (writer_inv c sw1 chunks pend) as Hinv1.
  { subst sw1. destruct (is_modeNormal m); [|done].
    by apply writer_inv_set_flush. }
  assert (aead sw1 = Some a) as Ha1
    by (subst sw1; by destruct (is_modeNormal m)).
  assert (flush sw1 = is_modeNormal m || flush sw) as Hfl1.
  { subst sw1. destruct (is_modeNormal m); [done|]. by rewrite Hfl0. }
  assert (sink_behaviour (writer sw1) = reliable) as Hrel1.
  { subst sw1. destruct (is_modeNormal m); cbn [set_flush writer];
      by rewrite Hw0. }
  assert (ssCipher sw1 = c) as -> by apply Hinv1.
  destruct (loop_slice c a m (length p + 2) p sw1
              (if isZero (counter sw1) then 0%nat else SaltSize c) 0
              chunks pend Hinv1 Ha1
              (start_ok_init c a sw1 chunks pend Hinv1 Ha1) Hrel1)
    as (sw' & new & pend' & Hloop & Hinv' & Ha' & Hfl' & Hrel' & Hcat
        & Hshape); [lia|].
  exists sw', a, new, pend'. rewrite Hloop, Z.add_0_l.
  split_and!; [reflexivity|exact Hinv'|exact Ha'| |congruence|exact Hrel'
              |exact Hcat|exact Hshape].
  intros a0 Ha00. unfold init in Hinit. rewrite Ha00 in Hinit.
  by injection Hinit as _ ->.
Qed.

Lemma exec_slice (c : Cipher) (cl : call) (sw : t) chunks pend :
  supported c → slice_inv c sw chunks pend → slice_call cl →
  ∃ n new pend',
    (exec cl sw).2 = Returned n None
    ∧ slice_inv c (exec cl sw).1 (chunks ++ new) pend'
    ∧ concat new ++ pend' = pend ++ input cl.
Proof.
  intros Hsup (Hinv & Hrel & Hent) Hcl.
  destruct cl as [p|p| |R r fuel]; [| | |done]; cbn [exec input].
  - destruct (write_slice c p modeNormal sw chunks pend Hsup Hinv Hrel Hent)
      as (sw' & a & new & pend' & HW & Hinv' & Ha' & _ & _ & Hrel' & Hcat & _).
    unfold Write. rewrite HW. cbn [fst snd].
    exists (int64 (Z.of_nat (length p))), new, pend'.
    split_and!; [reflexivity| |exact Hcat].
    split_and!; [exact Hinv'|exact Hrel'|left; by rewrite Ha'].
  - destruct (write_slice c p modeLazy (set_flush false sw) chunks pend Hsup
                (writer_inv_set_flush c false sw _ _ Hinv) Hrel Hent)
      as (sw' & a & new & pend' & HW & Hinv' & Ha' & _ & _ & Hrel' & Hcat & _).
    unfold LazyWrite. rewrite HW. cbn [fst snd].
    exists (int64 (Z.of_nat (length p))), new, pend'.
    split_and!; [reflexivity| |exact Hcat].
    split_and!; [exact Hinv'|exact Hrel'|left; by rewrite Ha'].
  - unfold Flush. destruct (flush sw).
    + exists 0, [], pend. rewrite !app_nil_r. cbn [fst snd].
      split_and!; [reflexivity| |reflexivity]. by split_and!.
    + destruct (write_slice c [] modeFlush sw chunks pend Hsup Hinv Hrel Hent)
        as (sw' & a & new & pend' & HW & Hinv' & Ha' & _ & _ & Hrel' & Hcat
            & _).
      rewrite HW. cbn [fst snd]. exists (int64 (Z.of_nat 0)), new, pend'.
      split_and!; [reflexivity| |exact Hcat].
      split_and!; [by apply writer_inv_set_flush|exact Hrel'
                  |left; cbn [set_flush aead]; by rewrite Ha'].
Qed.

Lemma run_slice (c : Cipher) (cs : list call) :
  supported c → Forall slice_call cs →
  ∀ (sw : t) chunks pend,
    slice_inv c sw chunks pend →
    ∃ new pend',
      slice_inv c (run cs sw) (chunks ++ new) pend'
      ∧ concat new ++ pend' = pend ++ concat (input <$> cs).
Proof.
  intros Hsup Hcs. induction Hcs as [|cl cs Hcl Hcs IH];
    intros sw chunks pend Hinv.
  - exists [], pend. rewrite !app_nil_r. by split.
  - destruct (exec_slice c cl sw chunks pend Hsup Hinv Hcl)
      as (n & new1 & pend1 & Ho & Hinv1 & Hcat1).
    cbn [run]. destruct (exec cl sw) as [sw1 o]. cbn [fst snd] in *.
    subst o.
    destruct (IH sw1 _ _ Hinv1) as (new2 & pend2 & Hinv2 & Hcat2).
    exists (new1 ++ new2), pend2. rewrite app_assoc.
    split; [exact Hinv2|].
    rewrite concat_app, fmap_cons. cbn [concat].
    rewrite <- !app_assoc, Hcat2, !app_assoc, Hcat1. done.
Qed.

End SliceCalls.

Section SliceTheorems.
Import shadowsocksWriter.

Lemma testEntropy_ok : entropy_ok testEntropy.
Proof. intros k n. by eexists. Qed.

Lemma New_slice_inv (c : Cipher) (e : Entropy) :
  entropy_ok e →
  slice_inv c (NewShadowsocksWriter (new_sink reliable) c e) [] [].
Proof.
  intros He. split_and!; [apply New_inv|done|by right].
Qed.

(** X1. Over any sequence of [Write], [LazyWrite] and [Flush] calls on a
    new writer whose sink takes every write: the bytes of the calls, in
    call order, are the payloads sealed so far followed by the bytes
    still pending.  No byte is lost, duplicated or reordered. *)
Theorem slice_calls_keep_order (c : Cipher) (e : Entropy) (cs : list call) :
  supported c → entropy_ok e → Forall slice_call cs →
  let sw := run cs (NewShadowsocksWriter (new_sink reliable) c e) in
  ∃ ns chunks pend,
    sealed sw = seal_trace ns chunks
    ∧ length (sink_log (writer sw)) = length chunks
    ∧ pending sw = length pend
    ∧ (∀ a, aead sw = Some a → pending_bytes a sw = pend)
    ∧ concat chunks ++ pend = concat (input <$> cs).
Proof.
  intros Hsup He Hcs sw.
  destruct (run_slice c cs Hsup Hcs _ [] [] (New_slice_inv c e He))
    as (chunks & pend & (Hinv & _ & _) & Hcat).
  fold sw in Hinv. cbn [app] in *.
  assert (∃ ns, sealed sw = seal_trace ns chunks) as [ns Hns].
  { destruct Hinv as [_ _ _ _ _ Hst]. destruct (aead sw) as [a|].
    - destruct Hst as (? & ? & ? & _ & _ & _ & _ & _ & _ & Hs & _).
      by exists (NonceSize a).
    - destruct Hst as (_ & -> & ->). by exists 0%nat. }
  exists ns, chunks, pend.
  split_and!; [exact Hns|apply Hinv|apply Hinv| |exact Hcat].
  intros a Ha. apply (pending_bytes_inv c a sw chunks pend Hinv). by left.
Qed.

Lemma slice_calls_keep_order_witness :
  let cs := [CallLazyWrite [1; 2]; CallWrite [3]; CallLazyWrite [4; 5]] in
  let sw := run cs (NewShadowsocksWriter (new_sink reliable) testCipher
                      testEntropy) in
  Forall slice_call cs
  ∧ ∃ ns chunks pend,
      sealed sw = seal_trace ns chunks
      ∧ pending sw = length pend
      ∧ concat chunks ++ pend = [1; 2; 3; 4; 5].
Proof.
  intros cs sw.
  assert (Forall slice_call cs) as Hcs by (repeat constructor).
  split; [exact Hcs|].
  destruct (slice_calls_keep_order testCipher testEntropy cs
              testCipher_supported testEntropy_ok Hcs)
    as (ns & chunks & pend & H1 & _ & H3 & _ & H5).
  exists ns, chunks, pend. split; [exact H1|]. split; [exact H3|exact H5].
Defined.

Lemma length_frame (a : AEAD) (k : nat) (ch : list byte) :
  exact_overhead a →
  length (frame a k ch) = (length ch + (2 + 2 * Overhead a))%nat.
Proof.
  intros Hex. unfold frame. rewrite length_app, !Hex.
  unfold PutUint16. cbn [length]. lia.
Qed.

Lemma length_concat_imap (ov : nat) (chunks : list (list byte)) :
  ∀ g : nat → list byte → list byte,
    (∀ k ch, length (g k ch) = (length ch + ov)%nat) →
    length (concat (imap g chunks))
    = (length (concat chunks) + length chunks * ov)%nat.
Proof.
  induction chunks as [|ch chunks IH]; intros g Hg; [reflexivity|].
  cbn [imap concat length]. rewrite !length_app, Hg, IH.
  - cbn [Nat.mul]. lia.
  - intros k ch'. apply Hg.
Qed.

(** Where a new reader stands on the bytes a writer sent: at the end of
    an empty stream, or before the frames of the chunks the writer
    sealed. *)
Lemma wire_chunk_input
    (behaviour : list (list byte) → option (nat * error))
    (c : Cipher) (e : Entropy) (cs : list call) :
  supported c →
  let sw := run cs (NewShadowsocksWriter (new_sink behaviour) c e) in
  Z.of_nat (length (sink_log (writer sw))) <= 32768 →
  ∃ ns chunks,
    sealed sw = seal_trace ns chunks
    ∧ Forall chunk_ok chunks
    ∧ (length (concat chunks) <= length (concat (sink_log (writer sw))))%nat
    ∧ let cr0 :=
        chunkReader.mk {| remaining := concat (sink_log (writer sw));
                          final := io_EOF |} c None [] [] in
      (chunks = [] ∧ ∃ cr', chunkReader.ReadChunk cr0 = (cr', Err io_EOF))
      ∨ (∃ enc dec,
           exact_overhead enc ∧ opens enc dec
           ∧ chunk_input cr0
             = Some (dec, nonce_of (NonceSize enc) 0,
                     concat (imap (frame enc) chunks))).
Proof.
  intros Hsup sw Hlen.
  destruct (run_inv c cs _ [] [] (New_inv behaviour c e))
    as (chunks & pend & [_ _ _ Hok Hlog Hst] & _ & _).
  fold sw in Hlog, Hst.
  destruct (aead sw) as [enc|] eqn:Ha.
  - destruct Hst as (salt & _ & _ & _ & Hsalt & _ & _ & Henc & _ & Hsealed
      & Hwire & _).
    destruct (Hsup salt Hsalt) as (enc' & dec & Henc' & Hdec & Hex & Hns & Hop).
    assert (enc' = enc) as -> by congruence.
    assert (nowrap (NonceSize enc) (length chunks)) as Hnw.
    { unfold nowrap.
      assert (256 ^ 2 <= 256 ^ Z.of_nat (NonceSize enc))
        by (apply Z.pow_le_mono_r; lia).
      change (256 ^ 2) with 65536 in *. lia. }
    specialize (Hwire Hex Hnw). rewrite Hwire.
    exists (NonceSize enc), chunks.
    split; [exact Hsealed|]. split; [exact Hok|].
    split.
    { destruct chunks as [|ch chunks]; [cbn [concat length]; lia|].
      rewrite concat_wire_writes, length_app by discriminate.
      rewrite (length_concat_imap (2 + 2 * Overhead enc) (ch :: chunks)
                 (frame enc)) by (intros k x; by apply length_frame).
      lia. }
    destruct (decide (chunks = [] ∧ (0 < SaltSize c)%nat)) as [[-> Hpos]|Hfr].
    + left. split; [reflexivity|]. cbn [wire_writes imap concat].
      exact (ReadChunk_eof_fresh {| remaining := []; final := io_EOF |} c
               eq_refl eq_refl Hpos).
    + right. exists enc, dec. split; [exact Hex|]. split; [exact Hop|].
      unfold chunk_input.
      cbn [chunkReader.aead chunkReader.reader chunkReader.ssCipher
           remaining].
      destruct chunks as [|ch chunks].
      * assert (SaltSize c = 0%nat) as Hz
          by (destruct (SaltSize c); [reflexivity|
              exfalso; apply Hfr; split; [reflexivity|lia]]).
        destruct salt; [|simpl in Hsalt; lia].
        rewrite Hz. cbn. rewrite Hdec.
        destruct Hop as (-> & _). reflexivity.
      * rewrite concat_wire_writes by discriminate.
        destruct (Nat.leb_spec (SaltSize c)
                    (length (salt ++ concat (imap (frame enc)
                                               (ch :: chunks)))))
          as [_|Hlt]; [|rewrite length_app in Hlt; lia].
        rewrite <- Hsalt, take_app_length, drop_app_length, Hdec.
        destruct Hop as (-> & _). reflexivity.
  - destruct Hst as (_ & -> & Hsealed).
    simpl in Hlog. destruct (sink_log (writer sw)); [|discriminate Hlog].
    exists 0%nat, []. split; [exact Hsealed|]. split; [constructor|].
    split; [reflexivity|].
    cbn [concat].
    destruct (decide (0 < SaltSize c)%nat) as [Hpos|Hz].
    + left. split; [reflexivity|].
      exact (ReadChunk_eof_fresh {| remaining := []; final := io_EOF |} c
               eq_refl eq_refl Hpos).
    + right. assert (SaltSize c = 0%nat) as Hz' by lia.
      destruct (Hsup [] (eq_sym Hz'))
        as (enc & dec & _ & Hdec & Hex & _ & Hop).
      exists enc, dec. split; [exact Hex|]. split; [exact Hop|].
      unfold chunk_input.
      cbn [chunkReader.aead chunkReader.reader chunkReader.ssCipher
           remaining]. rewrite Hz'. cbn. rewrite Hdec.
      destruct Hop as (-> & _). reflexivity.
Qed.

(** X2. Whatever calls were made on a writer for a supported cipher,
    while the counter has not wrapped: a new reader for the same cipher
    given the bytes of the sink writes, then end of stream, delivers with
    [WriteTo] exactly the payloads the writer sealed, one destination
    write per chunk and in the same order, and returns their total
    length and no error. *)
Theorem wire_decodes_to_sealed_chunks
    (behaviour : list (list byte) → option (nat * error))
    (c : Cipher) (e : Entropy) (cs : list call) :
  supported c →
  let sw := run cs (NewShadowsocksWriter (new_sink behaviour) c e) in
  Z.of_nat (length (sink_log (writer sw))) <= 32768 →
  ∃ ns chunks,
    sealed sw = seal_trace ns chunks
    ∧ ∀ fuel, (length chunks < fuel)%nat →
        let received :=
          readConverter.WriteTo fuel (new_sink reliable)
            (readConverter.NewShadowsocksReader
               {| remaining := concat (sink_log (writer sw));
                  final := io_EOF |} c) 0 in
        sink_log received.1.2 = chunks
        ∧ received.2
          = Returned (int64 (Z.of_nat (length (concat chunks)))) None.
Proof.
  intros Hsup sw Hlen.
  destruct (wire_chunk_input behaviour c e cs Hsup Hlen)
    as (ns & chunks & Hsealed & Hok & _ & Hstart).
  fold sw in Hsealed, Hstart.
  exists ns, chunks. split; [exact Hsealed|]. intros fuel Hfuel.
  unfold readConverter.NewShadowsocksReader.
  destruct Hstart as [(-> & cr' & HRC)|(enc & dec & Hex & Hop & Hin)].
  - destruct fuel as [|fuel]; [simpl in Hfuel; lia|].
    cbn [readConverter.WriteTo]. unfold readConverter.ensureLeftover.
    cbn [readConverter.leftover length Nat.ltb Nat.leb readConverter.cr].
    rewrite HRC. split; reflexivity.
  - set (cr0 := chunkReader.mk _ c None [] []) in *.
    assert (reader_wf cr0) as Hwf by (intros a Ha; discriminate Ha).
    destruct (WriteTo_frames enc dec chunks Hex Hop Hok 0 cr0
                (new_sink reliable) 0 fuel Hwf Hin eq_refl eq_refl
                eq_refl Hfuel)
      as (c' & w' & HWT & Hlog').
    rewrite HWT. cbn [fst snd]. rewrite Hlog'. cbn [new_sink sink_log].
    by rewrite Z.add_0_l.
Qed.

Lemma wire_decodes_to_sealed_chunks_witness :
  let cs := [CallLazyWrite [1; 2]; CallWrite [3]; CallWrite [4; 5]] in
  let sw := run cs (NewShadowsocksWriter (new_sink reliable) testCipher
                      testEntropy) in
  Z.of_nat (length (sink_log (writer sw))) <= 32768
  ∧ ∃ chunks,
      sink_log (readConverter.WriteTo 3 (new_sink reliable)
                  (readConverter.NewShadowsocksReader
                     {| remaining := concat (sink_log (writer sw));
                        final := io_EOF |} testCipher) 0).1.2 = chunks
      ∧ concat chunks = [1; 2; 3; 4; 5].
Proof.
  intros cs sw.
  assert (Z.of_nat (length (sink_log (writer sw))) <= 32768) as Hlen
    by (vm_compute; discriminate).
  split; [exact Hlen|].
  destruct (wire_decodes_to_sealed_chunks reliable testCipher testEntropy cs
              testCipher_supported Hlen) as (ns & chunks & Hs & Hrx).
  assert (length chunks = 2%nat) as Hn.
  { assert (length (sealed sw) = 4%nat) as H4 by (vm_compute; reflexivity).
    unfold sw in H4. rewrite Hs, length_seal_trace in H4. lia. }
  destruct (Hrx 3%nat) as (Hlog & _); [lia|].
  exists chunks. split; [exact Hlog|].
  rewrite <- Hlog. vm_compute. reflexivity.
Defined.

End SliceTheorems.

Section WriterChunks.
Import shadowsocksWriter.

Lemma slice_reach (c : Cipher) (e : Entropy) (cs : list call) :
  supported c → entropy_ok e → Forall slice_call cs →
  ∃ chunks pend,
    slice_inv c (run cs (NewShadowsocksWriter (new_sink reliable) c e))
      chunks pend
    ∧ concat chunks ++ pend = concat (input <$> cs).
Proof.
  intros Hsup He Hcs.
  destruct (run_slice c cs Hsup Hcs _ [] [] (New_slice_inv c e He))
    as (chunks & pend & H & Hcat).
  exists chunks, pend. split; [exact H|exact Hcat].
Qed.

Lemma sealed_before (c : Cipher) (a : AEAD) (sw : t) chunks pend :
  writer_inv c sw chunks pend → (∀ a0, aead sw = Some a0 → a0 = a) →
  sealed sw = seal_trace (NonceSize a) chunks.
Proof.
  intros [_ _ _ _ _ Hst] Hsame. destruct (aead sw) as [a0|].
  - rewrite <- (Hsame a0 eq_refl).
    by destruct Hst as (? & ? & ? & _ & _ & _ & _ & _ & _ & Hs & _).
  - by destruct Hst as (_ & -> & ->).
Qed.

Lemma length_concat_full (new : list (list byte)) :
  Forall (λ ch, length ch = payloadSizeMask) new →
  length (concat new) = (length new * payloadSizeMask)%nat.
Proof.
  induction 1 as [|ch new Hch _ IH]; [reflexivity|].
  cbn [concat length]. rewrite length_app, IH, Hch. reflexivity.
Qed.

Lemma length_concat_le (new : list (list byte)) :
  Forall chunk_ok new →
  (length (concat new) <= length new * payloadSizeMask)%nat.
Proof.
  induction 1 as [|ch new [_ Hch] _ IH]; [reflexivity|].
  cbn [concat length]. rewrite length_app. cbn [Nat.mul]. lia.
Qed.

(** A call in [modeNormal] or [modeFlush] that leaves between one and
    [payloadSizeMask] bytes to send seals them as one chunk. *)
Lemma one_chunk (c : Cipher) (p : list byte) (m : mode) (sw : t)
    chunks pend :
  supported c → slice_inv c sw chunks pend → is_modeLazy m = false →
  (0 < length pend + length p)%nat →
  Z.of_nat (length pend + length p) <= 16383 →
  ∃ sw' a,
    write p m sw = (sw', Returned (int64 (Z.of_nat (length p))) None)
    ∧ aead sw' = Some a
    ∧ (∀ a0, aead sw = Some a0 → a0 = a)
    ∧ flush sw' = is_modeNormal m || flush sw
    ∧ sealed sw'
      = sealed sw ++ chunk_seals (NonceSize a)
                       (length (sink_log (writer sw)))
                       (pending_bytes a sw ++ p)
    ∧ length (sink_log (writer sw')) = S (length (sink_log (writer sw)))
    ∧ pending sw' = 0%nat.
Proof.
  intros Hsup (Hinv & Hrel & Hini) Hm Hpos Hle.
  destruct (write_slice c p m sw chunks pend Hsup Hinv Hrel Hini)
    as (sw' & a & new & pend' & Hw & Hinv' & Ha' & Hsame & Hfl & _ & Hcat
        & Hshape).
  rewrite Hm in Hshape. destruct Hshape as (-> & Hcount).
  rewrite app_nil_r in Hcat.
  assert (new = [pend ++ p]) as ->.
  { destruct new as [|x [|y new]].
    - apply (f_equal length) in Hcat. rewrite length_app in Hcat.
      simpl in Hcat. lia.
    - cbn [concat] in Hcat. by rewrite app_nil_r in Hcat; subst x.
    - cbn [length] in Hcount. lia. }
  exists sw', a. split; [exact Hw|]. split; [exact Ha'|].
  split; [exact Hsame|]. split; [exact Hfl|].
  assert (pending_bytes a sw = pend) as ->.
  { apply (pending_bytes_inv c a sw chunks pend Hinv).
    destruct (aead sw) as [a0|]; [left|by right].
    by rewrite (Hsame a0 eq_refl). }
  split.
  { rewrite (sealed_before c a sw' _ _ Hinv')
      by (intros a0 Ha0; congruence).
    rewrite (sealed_before c a sw _ _ Hinv Hsame), seal_trace_snoc.
    by rewrite (inv_log _ _ _ _ Hinv). }
  split.
  - rewrite (inv_log _ _ _ _ Hinv'), (inv_log _ _ _ _ Hinv), length_app.
    simpl. lia.
  - apply (inv_pending _ _ _ _ Hinv').
Qed.

(** X3. After any [Write], [LazyWrite] and [Flush] calls on a reliable
    sink, [LazyWrite(p)] returns [len(p)] and no error, sends
    [(pending + len(p)) / 16383] chunks, every one of them full (16383
    bytes), and leaves [(pending + len(p)) mod 16383] bytes pending. *)
Theorem lazy_write_sends_full_chunks (c : Cipher) (e : Entropy)
    (cs : list call) (p : list byte) :
  supported c → entropy_ok e → Forall slice_call cs →
  let sw := run cs (NewShadowsocksWriter (new_sink reliable) c e) in
  let sw' := (LazyWrite p sw).1 in
  (LazyWrite p sw).2 = Returned (int64 (Z.of_nat (length p))) None
  ∧ Z.of_nat (length (sink_log (writer sw')))
    = Z.of_nat (length (sink_log (writer sw)))
      + Z.of_nat (pending sw + length p) / 16383
  ∧ Z.of_nat (pending sw') = Z.of_nat (pending sw + length p) mod 16383
  ∧ ∃ ns chunks new,
      sealed sw = seal_trace ns chunks
      ∧ sealed sw' = seal_trace ns (chunks ++ new)
      ∧ Forall (λ ch, Z.of_nat (length ch) = 16383) new.
Proof.
  intros Hsup He Hcs sw sw'.
  destruct (slice_reach c e cs Hsup He Hcs)
    as (chunks & pend & (Hinv & Hrel & Hini) & _).
  fold sw in Hinv, Hrel, Hini.
  destruct (write_slice c p modeLazy (set_flush false sw) chunks pend Hsup
              (writer_inv_set_flush c false sw _ _ Hinv) Hrel Hini)
    as (sw1 & a & new & pend' & Hw & Hinv' & Ha' & Hsame & _ & _ & Hcat
        & Hfull).
  cbn [is_modeLazy] in Hfull.
  assert (sw' = sw1) as -> by (unfold sw', LazyWrite; by rewrite Hw).
  unfold LazyWrite. rewrite Hw. cbn [snd].
  pose proof (inv_room _ _ _ _ Hinv') as Hroom.
  pose proof mask_val as Hmask.
  apply (f_equal length) in Hcat.
  rewrite !length_app, (length_concat_full _ Hfull) in Hcat.
  rewrite (inv_log _ _ _ _ Hinv'), (inv_log _ _ _ _ Hinv), length_app,
    (inv_pending _ _ _ _ Hinv'), (inv_pending _ _ _ _ Hinv).
  assert (Z.of_nat (length pend + length p)
          = 16383 * Z.of_nat (length new) + Z.of_nat (length pend')) as Heq.
  { rewrite <- Hcat, Nat2Z.inj_add, Nat2Z.inj_mul, Hmask. lia. }
  split; [reflexivity|]. split.
  - rewrite Nat2Z.inj_add. f_equal.
    apply (Z.div_unique _ 16383 _ (Z.of_nat (length pend'))); [lia|exact Heq].
  - split.
    + apply (Z.mod_unique _ 16383 (Z.of_nat (length new))); [lia|exact Heq].
    + exists (NonceSize a), chunks, new. split.
      * exact (sealed_before c a sw _ _ Hinv Hsame).
      * split.
        -- apply (sealed_before c a sw1 _ _ Hinv').
           intros a0 Ha0. congruence.
        -- eapply Forall_impl; [exact Hfull|].
           intros ch Hch. simpl in Hch. by rewrite Hch.
Qed.

Lemma lazy_write_sends_full_chunks_witness :
  let cs := [CallLazyWrite [1; 2]; CallWrite [3]; CallLazyWrite [4; 5]] in
  let sw := run cs (NewShadowsocksWriter (new_sink reliable) testCipher
                      testEntropy) in
  Forall slice_call cs
  ∧ Z.of_nat (pending (LazyWrite [6] sw).1)
    = Z.of_nat (pending sw + 1) mod 16383.
Proof.
  intros cs sw.
  assert (Forall slice_call cs) as Hcs by (repeat constructor).
  split; [exact Hcs|].
  destruct (lazy_write_sends_full_chunks testCipher testEntropy cs [6]
              testCipher_supported testEntropy_ok Hcs) as (_ & _ & H & _).
  exact H.
Defined.

(** X4. After any [Write], [LazyWrite] and [Flush] calls on a reliable
    sink, a [Write(p)] that finds pending bytes and fits with them in
    one chunk seals exactly one chunk, whose payload is the pending
    bytes followed by [p], makes one sink write, and leaves nothing
    pending. *)
Theorem write_coalesces_pending (c : Cipher) (e : Entropy)
    (cs : list call) (p : list byte) :
  supported c → entropy_ok e → Forall slice_call cs →
  let sw := run cs (NewShadowsocksWriter (new_sink reliable) c e) in
  (0 < pending sw + length p)%nat →
  Z.of_nat (pending sw + length p) <= 16383 →
  ∃ a,
    aead (Write p sw).1 = Some a
    ∧ (Write p sw).2 = Returned (int64 (Z.of_nat (length p))) None
    ∧ sealed (Write p sw).1
      = sealed sw ++ chunk_seals (NonceSize a)
                       (length (sink_log (writer sw)))
                       (pending_bytes a sw ++ p)
    ∧ length (sink_log (writer (Write p sw).1))
      = S (length (sink_log (writer sw)))
    ∧ pending (Write p sw).1 = 0%nat.
Proof.
  intros Hsup He Hcs sw Hpos Hle.
  destruct (slice_reach c e cs Hsup He Hcs) as (chunks & pend & Hinv & _).
  fold sw in Hinv.
  pose proof (inv_pending _ _ _ _ (proj1 Hinv)) as Hp.
  rewrite Hp in Hpos, Hle.
  destruct (one_chunk c p modeNormal sw chunks pend Hsup Hinv eq_refl Hpos
              Hle) as (sw' & a & Hw & Ha & _ & _ & Hs & Hl & Hpend).
  exists a. unfold Write. rewrite Hw. cbn [fst snd].
  split; [exact Ha|]. split; [reflexivity|]. split; [exact Hs|].
  split; [exact Hl|exact Hpend].
Qed.

Lemma write_coalesces_pending_witness :
  let cs := [CallLazyWrite [1; 2]] in
  let sw := run cs (NewShadowsocksWriter (new_sink reliable) testCipher
                      testEntropy) in
  Forall slice_call cs
  ∧ (0 < pending sw + 1)%nat
  ∧ Z.of_nat (pending sw + 1) <= 16383
  ∧ sealed (Write [3] sw).1
    = [(nonce_of 12 0, PutUint16 3); (nonce_of 12 1, [1; 2; 3])].
Proof.
  intros cs sw.
  assert (Forall slice_call cs) as Hcs by (repeat constructor).
  assert (0 < pending sw + 1)%nat as Hpos by (vm_compute; lia).
  assert (Z.of_nat (pending sw + 1) <= 16383) as Hle
    by (vm_compute; discriminate).
  split; [exact Hcs|]. split; [exact Hpos|]. split; [exact Hle|].
  destruct (write_coalesces_pending testCipher testEntropy cs [3]
              testCipher_supported testEntropy_ok Hcs Hpos Hle)
    as (a & Ha & _ & Hs & _).
  assert (aead (Write [3] sw).1 = Some testAEAD) as Ht
    by (vm_compute; reflexivity).
  unfold sw in Ht. rewrite Ht in Ha. injection Ha as <-.
  unfold sw. rewrite Hs. vm_compute. reflexivity.
Defined.

(** X5. After any [Write], [LazyWrite] and [Flush] calls on a reliable
    sink, while bytes are pending and no [Write] or [Flush] came after
    the last [LazyWrite], [Flush] seals the pending bytes as one chunk,
    makes one sink write, leaves nothing pending, and returns no
    error. *)
Theorem flush_sends_pending (c : Cipher) (e : Entropy) (cs : list call) :
  supported c → entropy_ok e → Forall slice_call cs →
  let sw := run cs (NewShadowsocksWriter (new_sink reliable) c e) in
  flush sw = false → (0 < pending sw)%nat →
  ∃ a,
    aead sw = Some a
    ∧ (Flush sw).2 = Returned 0 None
    ∧ sealed (Flush sw).1
      = sealed sw ++ chunk_seals (NonceSize a)
                       (length (sink_log (writer sw)))
                       (pending_bytes a sw)
    ∧ length (sink_log (writer (Flush sw).1))
      = S (length (sink_log (writer sw)))
    ∧ pending (Flush sw).1 = 0%nat
    ∧ flush (Flush sw).1 = true.
Proof.
  intros Hsup He Hcs sw Hfl Hpos.
  destruct (slice_reach c e cs Hsup He Hcs) as (chunks & pend & Hinv & _).
  fold sw in Hinv.
  pose proof (inv_pending _ _ _ _ (proj1 Hinv)) as Hp.
  pose proof (inv_room _ _ _ _ (proj1 Hinv)) as Hroom.
  pose proof mask_val as Hmask.
  rewrite Hp in Hpos.
  destruct (one_chunk c [] modeFlush sw chunks pend Hsup Hinv eq_refl)
    as (sw' & a & Hw & Ha & Hsame & _ & Hs & Hl & Hpend).
  { simpl. lia. }
  { simpl. lia. }
  rewrite app_nil_r in Hs.
  exists a. unfold Flush. rewrite Hfl, Hw. cbn [fst snd].
  split.
  - destruct (aead sw) as [a0|] eqn:Ha0.
    + by rewrite (Hsame a0 eq_refl).
    + destruct Hinv as ([_ _ _ _ _ Hst] & _). rewrite Ha0 in Hst.
      destruct Hst as (-> & _). simpl in Hpos. lia.
  - split; [reflexivity|]. split; [exact Hs|]. split; [exact Hl|].
    split; [exact Hpend|reflexivity].
Qed.

Lemma flush_sends_pending_witness :
  let cs := [CallWrite [9]; CallLazyWrite [1; 2]] in
  let sw := run cs (NewShadowsocksWriter (new_sink reliable) testCipher
                      testEntropy) in
  Forall slice_call cs ∧ flush sw = false ∧ (0 < pending sw)%nat
  ∧ sealed (Flush sw).1
    = sealed sw ++ [(nonce_of 12 2, PutUint16 2); (nonce_of 12 3, [1; 2])].
Proof.
  intros cs sw.
  assert (Forall slice_call cs) as Hcs by (repeat constructor).
  assert (flush sw = false) as Hfl by (vm_compute; reflexivity).
  assert (0 < pending sw)%nat as Hpos by (vm_compute; lia).
  split; [exact Hcs|]. split; [exact Hfl|]. split; [exact Hpos|].
  destruct (flush_sends_pending testCipher testEntropy cs
              testCipher_supported testEntropy_ok Hcs Hfl Hpos)
    as (a & Ha & _ & Hs & _).
  assert (aead sw = Some testAEAD) as Ht by (vm_compute; reflexivity).
  unfold sw in Ht. rewrite Ht in Ha. injection Ha as <-.
  unfold sw. rewrite Hs. f_equal.
Defined.

(** X6. After any [Write], [LazyWrite] and [Flush] calls on a reliable
    sink, [Write(p)] sends the pending bytes and [p] in the smallest
    number of chunks that holds them: [ceil((pending + len(p)) / 16383)]
    sink writes, and nothing stays pending. *)
Theorem write_chunk_count (c : Cipher) (e : Entropy) (cs : list call)
    (p : list byte) :
  supported c → entropy_ok e → Forall slice_call cs →
  let sw := run cs (NewShadowsocksWriter (new_sink reliable) c e) in
  Z.of_nat (length (sink_log (writer (Write p sw).1)))
  = Z.of_nat (length (sink_log (writer sw)))
    + (Z.of_nat (pending sw + length p) + 16382) / 16383
  ∧ pending (Write p sw).1 = 0%nat.
Proof.
  intros Hsup He Hcs sw.
  destruct (slice_reach c e cs Hsup He Hcs)
    as (chunks & pend & (Hinv & Hrel & Hini) & _).
  fold sw in Hinv, Hrel, Hini.
  destruct (write_slice c p modeNormal sw chunks pend Hsup Hinv Hrel Hini)
    as (sw' & a & new & pend' & Hw & Hinv' & _ & _ & _ & _ & Hcat & Hshape).
  cbn [is_modeLazy] in Hshape. destruct Hshape as (-> & Hcount).
  unfold Write. rewrite Hw. cbn [fst].
  pose proof mask_val as Hmask.
  assert (Forall chunk_ok new) as Hnew
    by (apply (Forall_app chunk_ok chunks new), (inv_chunks _ _ _ _ Hinv')).
  pose proof (length_concat_le new Hnew) as Hub.
  rewrite app_nil_r in Hcat. rewrite Hcat, length_app in Hub.
  rewrite (inv_log _ _ _ _ Hinv'), (inv_log _ _ _ _ Hinv), length_app,
    (inv_pending _ _ _ _ Hinv'), (inv_pending _ _ _ _ Hinv).
  split; [|reflexivity].
  rewrite Nat2Z.inj_add. f_equal.
  set (n := Z.of_nat (length pend + length p)) in *.
  set (q := Z.of_nat (length new)) in *.
  assert (n <= 16383 * q) as Hn.
  { unfold n, q. rewrite <- Hmask, <- Nat2Z.inj_mul. lia. }
  apply (Z.div_unique _ 16383 _ (n + 16382 - 16383 * q)); lia.
Qed.

Lemma write_chunk_count_witness :
  let cs := [CallLazyWrite [1; 2]] in
  let sw := run cs (NewShadowsocksWriter (new_sink reliable) testCipher
                      testEntropy) in
  Forall slice_call cs
  ∧ Z.of_nat (length (sink_log (writer (Write [3] sw).1)))
    = Z.of_nat (length (sink_log (writer sw)))
      + (Z.of_nat (pending sw + 1) + 16382) / 16383.
Proof.
  intros cs sw.
  assert (Forall slice_call cs) as Hcs by (repeat constructor).
  split; [exact Hcs|].
  destruct (write_chunk_count testCipher testEntropy cs [3]
              testCipher_supported testEntropy_ok Hcs) as (H & _).
  exact H.
Defined.

End WriterChunks.

Section WireSize.
Import shadowsocksWriter.

(** X7. After any [Write], [LazyWrite] and [Flush] calls on a reliable
    sink, once a chunk has been sent and while the counter has not
    wrapped, the sink has received the salt, every byte handed to the
    writer that is not pending, and [2 + 2 * Overhead] bytes of framing
    per chunk: nothing else. *)
Theorem wire_size (c : Cipher) (e : Entropy) (cs : list call) :
  supported c → entropy_ok e → Forall slice_call cs →
  let sw := run cs (NewShadowsocksWriter (new_sink reliable) c e) in
  sink_log (writer sw) ≠ [] →
  Z.of_nat (length (sink_log (writer sw))) <= 32768 →
  ∃ a,
    aead sw = Some a
    ∧ Z.of_nat (length (concat (sink_log (writer sw))))
      = Z.of_nat (SaltSize c)
        + (Z.of_nat (length (concat (input <$> cs))) - Z.of_nat (pending sw))
        + Z.of_nat (length (sink_log (writer sw)))
          * (2 + 2 * Z.of_nat (Overhead a)).
Proof.
  intros Hsup He Hcs sw Hne Hlen.
  destruct (slice_reach c e cs Hsup He Hcs)
    as (chunks & pend & ([_ Hp _ _ Hlog Hst] & _) & Hcat).
  fold sw in Hp, Hlog, Hst.
  destruct (aead sw) as [a|].
  2: { destruct Hst as (_ & -> & _). simpl in Hlog.
       destruct (sink_log (writer sw)); [by destruct Hne|discriminate]. }
  destruct Hst as (salt & _ & _ & _ & Hsalt & _ & _ & Henc & _ & _ & Hwire
                   & _).
  destruct (Hsup salt Hsalt) as (enc & _ & Henc' & _ & Hex & Hns & _).
  assert (enc = a) as -> by congruence.
  assert (nowrap (NonceSize a) (length chunks)) as Hnw.
  { unfold nowrap.
    assert (256 ^ 2 <= 256 ^ Z.of_nat (NonceSize a))
      by (apply Z.pow_le_mono_r; lia).
    change (256 ^ 2) with 65536 in *. lia. }
  exists a. split; [reflexivity|].
  rewrite <- Hcat, length_app, Hp, Hlog, (Hwire Hex Hnw).
  assert (chunks ≠ []) as Hch.
  { intros ->. rewrite (Hwire Hex Hnw) in Hne. by apply Hne. }
  rewrite (concat_wire_writes a salt chunks Hch), length_app, Hsalt.
  rewrite (length_concat_imap (2 + 2 * Overhead a) chunks (frame a))
    by (intros k ch; by apply length_frame).
  lia.
Qed.

Lemma wire_size_witness :
  let cs := [CallLazyWrite [1; 2]; CallWrite [3]; CallLazyWrite [4; 5]] in
  let sw := run cs (NewShadowsocksWriter (new_sink reliable) testCipher
                      testEntropy) in
  Forall slice_call cs ∧ sink_log (writer sw) ≠ []
  ∧ Z.of_nat (length (sink_log (writer sw))) <= 32768
  ∧ ∃ a, aead sw = Some a
         ∧ Z.of_nat (length (concat (sink_log (writer sw))))
           = 2 + (5 - 2) + 1 * (2 + 2 * Z.of_nat (Overhead a)).
Proof.
  intros cs sw.
  assert (Forall slice_call cs) as Hcs by (repeat constructor).
  assert (sink_log (writer sw) ≠ []) as Hne by (vm_compute; discriminate).
  assert (Z.of_nat (length (sink_log (writer sw))) <= 32768) as Hlen
    by (vm_compute; discriminate).
  split; [exact Hcs|]. split; [exact Hne|]. split; [exact Hlen|].
  destruct (wire_size testCipher testEntropy cs testCipher_supported
              testEntropy_ok Hcs Hne Hlen) as (a & Ha & Hsz).
  exists a. split; [exact Ha|exact Hsz].
Defined.

End WireSize.

Section PendingOnce.
Import shadowsocksWriter.

Lemma ghost_nonlazy (m : mode) chunks (pend data : list byte) :
  is_modeLazy m = false → (ghost_step m chunks pend data).2 = [].
Proof.
  intros Hm. unfold ghost_step, emits. rewrite Hm. cbn [negb andb].
  destruct (pend ++ data) as [|x l] eqn:Hl.
  - by destruct (_ || _).
  - cbn [length Nat.ltb Nat.leb]. by rewrite orb_true_r.
Qed.

Lemma loop_nonlazy_pending (fuel : nat) (R : Reader) (c : Cipher) (a : AEAD)
    (m : mode) :
  is_modeLazy m = false →
  ∀ (r : R_state R) (sw : t) (start : nat) (written : Z) chunks pend,
    writer_inv c sw chunks pend → aead sw = Some a →
    start_ok c a start chunks →
    ∀ sw' r' n err,
      readFrom_loop fuel R a m r sw start written = (sw', r', Returned n err) →
      pending sw' = 0%nat.
Proof.
  intros Hm.
  induction fuel as [|fuel IH]; intros r sw start written chunks pend
    Hinv Ha Hstart sw' r' n err; cbn [readFrom_loop].
  - intros H. discriminate H.
  - destruct (readFrom_body R a m r sw start written)
      as [[[[sw1 r1] start1] written1] err1] eqn:Hbody.
    destruct (body_inv R c a m r sw start written chunks pend Hinv Ha Hstart
                _ _ _ _ _ Hbody)
      as (_ & _ & Ha1 & _ & _ & Hinv1 & Hstart1 & _).
    assert (pending sw1 = 0%nat) as Hp1.
    { rewrite (inv_pending _ _ _ _ Hinv1), (ghost_nonlazy m) by exact Hm.
      reflexivity. }
    destruct err1 as [e1|].
    + destruct (is_EOF e1); intros [= <- _ _ _]; exact Hp1.
    + intros H. exact (IH _ _ _ _ _ _ Hinv1 Ha1 Hstart1 _ _ _ _ H).
Qed.

Lemma readFrom_nonlazy_pending (fuel : nat) (R : Reader) (r : R_state R)
    (m : mode) (c : Cipher) (sw : t) chunks pend :
  writer_inv c sw chunks pend → is_modeLazy m = false →
  ∀ sw' r' n err,
    readFrom fuel R r m sw = (sw', r', Returned n err) →
    pending sw' = 0%nat.
Proof.
  intros Hinv Hm sw' r' n err. unfold readFrom.
  destruct (init sw) as [sw0 [a|e]] eqn:Hinit;
    destruct (init_inv c sw chunks pend Hinv _ _ Hinit)
      as (Hinv0 & _ & _ & Ha0).
  2: { intros [= <- _ _ _]. destruct Ha0 as (Ha0 & _).
       destruct Hinv0 as [_ Hp _ _ _ Hst]. rewrite Ha0 in Hst.
       destruct Hst as (-> & _). exact Hp. }
  set (sw1 := if is_modeNormal m then set_flush true sw0 else sw0).
  assert (writer_inv c sw1 chunks pend) as Hinv1.
  { subst sw1. destruct (is_modeNormal m); [|exact Hinv0].
    by apply writer_inv_set_flush. }
  assert (aead sw1 = Some a) as Ha1
    by (subst sw1; by destruct (is_modeNormal m)).
  assert (ssCipher sw1 = c) as Hc1 by apply Hinv1.
  rewrite Hc1. intros Hloop.
  exact (loop_nonlazy_pending fuel R c a m Hm _ _ _ _ _ _ Hinv1 Ha1
           (start_ok_init c a sw1 chunks pend Hinv1 Ha1) _ _ _ _ Hloop).
Qed.

Lemma exec_armed (c : Cipher) (cl : call) (sw : t) chunks pend :
  writer_inv c sw chunks pend →
  ((0 < pending sw)%nat → flush sw = false) →
  ∀ sw' n err, exec cl sw = (sw', Returned n err) →
    (0 < pending sw')%nat → flush sw' = false.
Proof.
  intros Hinv HJ sw' n err.
  destruct cl as [p|p| |R r fuel]; cbn [exec].
  - unfold Write, write.
    destruct (readFrom _ _ _ _ _) as [[sw1 r1] o] eqn:Hrf.
    intros [= <- ->].
    rewrite (readFrom_nonlazy_pending _ _ _ modeNormal c sw chunks pend Hinv eq_refl
               _ _ _ _ Hrf). lia.
  - unfold LazyWrite, write.
    destruct (readFrom _ _ _ _ _) as [[sw1 r1] o] eqn:Hrf.
    intros [= <- ->] _.
    destruct (readFrom_inv _ _ _ _ c _ chunks pend
                (writer_inv_set_flush c false sw _ _ Hinv) _ _ _ Hrf)
      as (_ & _ & _ & _ & _ & [(_ & _ & ->)|(_ & ->)]); reflexivity.
  - unfold Flush. destruct (flush sw) eqn:Hfl.
    + intros [= <- _ _]. rewrite Hfl. exact HJ.
    + unfold write.
      destruct (readFrom _ _ _ _ _) as [[sw1 r1] o] eqn:Hrf.
      intros [= <- ->]. cbn [set_flush pending].
      rewrite (readFrom_nonlazy_pending _ _ _ modeFlush c sw chunks pend Hinv eq_refl
                 _ _ _ _ Hrf). lia.
  - unfold ReadFrom.
    destruct (readFrom _ _ _ _ _) as [[sw1 r1] o] eqn:Hrf.
    intros [= <- ->].
    rewrite (readFrom_nonlazy_pending _ _ _ modeNormal c sw chunks pend Hinv eq_refl
               _ _ _ _ Hrf). lia.
Qed.

Lemma run_armed (c : Cipher) (cs : list call) :
  ∀ (sw : t) chunks pend,
    writer_inv c sw chunks pend →
    ((0 < pending sw)%nat → flush sw = false) →
    completes cs sw →
    (0 < pending (run cs sw))%nat → flush (run cs sw) = false.
Proof.
  induction cs as [|cl cs IH]; intros sw chunks pend Hinv HJ Hcs;
    cbn [run completes] in *; [exact HJ|].
  destruct (exec_inv c cl sw chunks pend Hinv)
    as (chunks' & pend' & Hinv' & _).
  pose proof (exec_armed c cl sw chunks pend Hinv HJ) as Hstep.
  destruct (exec cl sw) as [sw1 [n err|]]; [|destruct Hcs].
  cbn [fst] in Hinv'.
  exact (IH sw1 chunks' pend' Hinv' (Hstep sw1 n err eq_refl) Hcs).
Qed.

(** X8. Whatever the sink and the readers do, after any sequence of
    calls that returned, bytes are pending only while the [Once] of
    [Flush] is unspent: a [Flush] made then does run. *)
Theorem pending_keeps_flush_armed
    (behaviour : list (list byte) → option (nat * error))
    (c : Cipher) (e : Entropy) (cs : list call) :
  let sw0 := NewShadowsocksWriter (new_sink behaviour) c e in
  completes cs sw0 →
  (0 < pending (run cs sw0))%nat →
  flush (run cs sw0) = false.
Proof.
  intros sw0 Hcs.
  apply (run_armed c cs sw0 [] [] (New_inv behaviour c e)); [|exact Hcs].
  intros H. simpl in H. lia.
Qed.

Lemma pending_keeps_flush_armed_witness :
  let cs := [CallWrite [1]; CallFlush; CallLazyWrite [2; 3]] in
  let sw0 := NewShadowsocksWriter (new_sink reliable) testCipher
               testEntropy in
  completes cs sw0 ∧ (0 < pending (run cs sw0))%nat
  ∧ flush (run cs sw0) = false.
Proof.
  intros cs sw0.
  assert (completes cs sw0) as Hcs by (vm_compute; exact I).
  assert (0 < pending (run cs sw0))%nat as Hp by (vm_compute; lia).
  split; [exact Hcs|]. split; [exact Hp|].
  exact (pending_keeps_flush_armed reliable testCipher testEntropy cs Hcs Hp).
Defined.

End PendingOnce.

Section Failures.
Import shadowsocksWriter.

(** X9. On a writer that has sent nothing yet, a call whose salt draw or
    key derivation fails returns 0 and the wrapped error, and changes
    nothing but the number of draws: nothing is sent, sealed or pending,
    the writer stays uninitialised, and [Write] and [LazyWrite] leave
    the [Once] of [Flush] as they found it or reset it.  A [Flush] that
    fails this way has spent the [Once]. *)
Theorem init_failure_sends_nothing (sw : t) (p : list byte)
    (e wrapped : error) :
  aead sw = None →
  (rand_ReadFull (rand sw) (rand_pos sw) (SaltSize (ssCipher sw)) = Err e
   ∧ wrapped = Errorf "failed to generate salt" e)
  ∨ (∃ salt,
       rand_ReadFull (rand sw) (rand_pos sw) (SaltSize (ssCipher sw))
       = Ok salt
       ∧ Encrypter (ssCipher sw) salt = Err e
       ∧ wrapped = Errorf "failed to create AEAD" e) →
  let sw' := set_rand_pos (S (rand_pos sw)) sw in
  Write p sw = (sw', Returned 0 (Some wrapped))
  ∧ LazyWrite p sw = (set_flush false sw', Returned 0 (Some wrapped))
  ∧ (flush sw = false →
     Flush sw = (set_flush true sw', Returned 0 (Some wrapped))).
Proof.
  intros Ha Hfail sw'.
  assert (∀ f, init (set_flush f sw)
               = (set_flush f sw', Err wrapped)) as Hinit.
  { intros f. unfold init. cbn [set_flush aead]. rewrite Ha.
    cbn [set_rand_pos set_flush rand rand_pos ssCipher].
    destruct Hfail as [[-> ->]|(salt & -> & -> & ->)]; reflexivity. }
  assert (init sw = (sw', Err wrapped)) as Hinit0.
  { unfold init. rewrite Ha. cbn [set_rand_pos rand rand_pos ssCipher].
    destruct Hfail as [[-> ->]|(salt & -> & -> & ->)]; reflexivity. }
  split; [|split].
  - unfold Write, write, readFrom. by rewrite Hinit0.
  - unfold LazyWrite, write, readFrom. by rewrite Hinit.
  - intros Hfl. unfold Flush, write, readFrom. by rewrite Hfl, Hinit0.
Qed.

Lemma init_failure_sends_nothing_witness :
  let sw := NewShadowsocksWriter (new_sink reliable) testCipher noEntropy in
  aead sw = None
  ∧ Write [1; 2] sw
    = (set_rand_pos 1 sw,
       Returned 0 (Some (Errorf "failed to generate salt" (ErrExternal 1)))).
Proof.
  intros sw.
  assert (aead sw = None) as Ha by reflexivity.
  split; [exact Ha|].
  assert (rand_ReadFull (rand sw) (rand_pos sw) (SaltSize (ssCipher sw))
          = Err (ErrExternal 1)
          ∧ Errorf "failed to generate salt" (ErrExternal 1)
            = Errorf "failed to generate salt" (ErrExternal 1)) as Hf
    by (split; reflexivity).
  destruct (init_failure_sends_nothing sw [1; 2] (ErrExternal 1) _ Ha
              (or_introl Hf)) as (H & _).
  exact H.
Defined.

Lemma bytes_Read_data (p : list byte) (cap : nat) :
  (bytes_Read p cap).1.1 = take cap p.
Proof. destruct p, cap; reflexivity. Qed.

Lemma reach_inv (behaviour : list (list byte) → option (nat * error))
    (c : Cipher) (e : Entropy) (cs : list call) :
  ∃ chunks pend,
    writer_inv c (run cs (NewShadowsocksWriter (new_sink behaviour) c e))
      chunks pend
    ∧ sink_behaviour
        (writer (run cs (NewShadowsocksWriter (new_sink behaviour) c e)))
      = behaviour.
Proof.
  destruct (run_inv c cs _ [] [] (New_inv behaviour c e))
    as (chunks & pend & H & _ & Hb).
  exists chunks, pend. split; [exact H|exact Hb].
Qed.

(** X10. When the sink fails the next write, a [Write(p)] with something
    to send makes that one sink write and stops: it returns the number
    of bytes of [p] that went into that chunk, not [len(p)], and
    nothing stays pending.  The error is the sink's, wrapped, unless the
    sink's error is [io.EOF]: then [Write] returns no error at all. *)
Theorem write_sink_error
    (behaviour : list (list byte) → option (nat * error))
    (c : Cipher) (e : Entropy) (cs : list call) (p : list byte)
    (k : nat) (err : error) :
  let sw := run cs (NewShadowsocksWriter (new_sink behaviour) c e) in
  is_Some (aead sw) →
  (0 < pending sw + length p)%nat →
  (∀ log, length log = S (length (sink_log (writer sw))) →
          behaviour log = Some (k, err)) →
  (Write p sw).2
  = Returned (Z.min (Z.of_nat (length p)) (16383 - Z.of_nat (pending sw)))
      (if is_EOF err then None
       else Some (Errorf "Failed to read payload" err))
  ∧ length (sink_log (writer (Write p sw).1))
    = S (length (sink_log (writer sw)))
  ∧ pending (Write p sw).1 = 0%nat.
Proof.
  intros sw [a Ha] Hpos Hfail.
  destruct (reach_inv behaviour c e cs) as (chunks & pend & Hinv & Hb).
  fold sw in Hinv, Hb.
  pose proof (inv_pending _ _ _ _ Hinv) as Hp.
  pose proof (inv_room _ _ _ _ Hinv) as Hroom.
  pose proof (inv_log _ _ _ _ Hinv) as Hlog.
  pose proof mask_val as Hmask.
  unfold Write, write, readFrom, init. rewrite Ha. cbn [is_modeNormal].
  set (sw1 := set_flush true sw).
  assert (writer_inv c sw1 chunks pend) as Hinv1
    by (by apply writer_inv_set_flush).
  assert (aead sw1 = Some a) as Ha1 by exact Ha.
  assert (ssCipher sw1 = c) as Hc1 by apply Hinv1.
  rewrite Hc1.
  replace (length p + 2)%nat with (S (S (length p))) by lia.
  cbn [readFrom_loop].
  destruct (readFrom_body bytes_Reader a modeNormal p sw1
              (if isZero (counter sw1) then 0%nat else SaltSize c) 0)
    as [[[[sw2 r2] start2] written2] err2] eqn:Hbody.
  destruct (body_inv _ c a modeNormal _ sw1 _ 0 chunks pend Hinv1 Ha1
              (start_ok_init c a sw1 chunks pend Hinv1 Ha1) _ _ _ _ _ Hbody)
    as (_ & Hw & _ & _ & _ & Hinv2 & _ & Herr).
  cbn [R_read bytes_Reader] in *. rewrite bytes_Read_data in *.
  assert (emits modeNormal
            (length (pend ++ take (payloadSizeMask - length pend) p)) = true)
    as Hem.
  { unfold emits. cbn [is_modeLazy negb andb]. apply orb_true_iff. right.
    apply Nat.ltb_lt. rewrite length_app, length_take. lia. }
  unfold ghost_step in *. rewrite Hem in *. cbn [fst snd] in *.
  pose proof (inv_log _ _ _ _ Hinv2) as Hlog2.
  rewrite length_app in Hlog2. cbn [length] in Hlog2.
  assert (sink_behaviour (writer sw1) = behaviour) as Hb1 by exact Hb.
  rewrite Hb1, (Hfail (sink_log (writer sw2))) in Herr by lia.
  cbn [fmap option_fmap option_map snd] in Herr. subst err2.
  assert (written2
          = Z.min (Z.of_nat (length p)) (16383 - Z.of_nat (pending sw)))
    as ->.
  { rewrite Hw, Z.add_0_l, int64_small; rewrite length_take; lia. }
  split.
  - by destruct (is_EOF err).
  - assert (length (sink_log (writer sw2))
            = S (length (sink_log (writer sw))) ∧ pending sw2 = 0%nat)
      as Hres.
    { split; [lia|]. apply (inv_pending _ _ _ _ Hinv2). }
    by destruct (is_EOF err).
Qed.

Lemma write_sink_error_witness :
  let behaviour := λ log : list (list byte),
    if (length log =? 2)%nat then Some (0%nat, io_EOF) else None in
  let cs := [CallWrite [1]] in
  let sw := run cs (NewShadowsocksWriter (new_sink behaviour) testCipher
                      testEntropy) in
  is_Some (aead sw) ∧ (0 < pending sw + 2)%nat
  ∧ (Write [2; 3] sw).2 = Returned 2 None.
Proof.
  intros behaviour cs sw.
  assert (is_Some (aead sw)) as Ha by (eexists; vm_compute; reflexivity).
  assert (0 < pending sw + length [2; 3])%nat as Hpos by (vm_compute; lia).
  assert (∀ log, length log = S (length (sink_log (writer sw))) →
                 behaviour log = Some (0%nat, io_EOF)) as Hfail.
  { intros log Hl. unfold behaviour.
    rewrite Hl. vm_compute. reflexivity. }
  split; [exact Ha|]. split; [exact Hpos|].
  destruct (write_sink_error behaviour testCipher testEntropy cs [2; 3]
              0 io_EOF Ha Hpos Hfail) as (H & _).
  exact H.
Defined.

(** X11. [ReadFrom] loses a reader's error that comes together with
    data: when [Read] returns some bytes and an error, and the sink takes
    the chunk, the error is overwritten by the sink's [nil] and the loop
    calls [Read] again.  If that [Read] reports [io.EOF], [ReadFrom]
    returns the byte count and no error. *)
Theorem read_error_with_data_is_dropped (c : Cipher) (e : Entropy)
    (cs : list call) (R : Reader) (r r1 r2 : R_state R)
    (data : list byte) (e0 : error) (fuel : nat) :
  let sw := run cs (NewShadowsocksWriter (new_sink reliable) c e) in
  is_Some (aead sw) →
  R_read R r (payloadSizeMask - pending sw) = (data, Some e0, r1) →
  data ≠ [] →
  R_read R r1 payloadSizeMask = ([], Some io_EOF, r2) →
  (2 <= fuel)%nat →
  (ReadFrom fuel R r sw).2 = Returned (Z.of_nat (length data)) None
  ∧ (ReadFrom fuel R r sw).1.2 = r2
  ∧ length (sink_log (writer (ReadFrom fuel R r sw).1.1))
    = S (length (sink_log (writer sw))).
Proof.
  intros sw [a Ha] Hrd Hne Hrd2 Hfuel.
  destruct (reach_inv reliable c e cs) as (chunks & pend & Hinv & Hb).
  fold sw in Hinv, Hb.
  pose proof (inv_pending _ _ _ _ Hinv) as Hp.
  pose proof (inv_room _ _ _ _ Hinv) as Hroom.
  pose proof (inv_log _ _ _ _ Hinv) as Hlog.
  pose proof mask_val as Hmask.
  pose proof (R_read_bound R r (payloadSizeMask - pending sw)) as Hbound.
  rewrite Hrd in Hbound. cbn [fst] in Hbound.
  rewrite Hp in Hrd.
  unfold ReadFrom, readFrom, init. rewrite Ha. cbn [is_modeNormal].
  set (sw1 := set_flush true sw).
  assert (writer_inv c sw1 chunks pend) as Hinv1
    by (by apply writer_inv_set_flush).
  assert (aead sw1 = Some a) as Ha1 by exact Ha.
  assert (ssCipher sw1 = c) as Hc1 by apply Hinv1.
  rewrite Hc1.
  destruct fuel as [|[|fuel]]; [lia|lia|].
  cbn [readFrom_loop].
  destruct (readFrom_body R a modeNormal r sw1
              (if isZero (counter sw1) then 0%nat else SaltSize c) 0)
    as [[[[sw2 r2'] start2] written2] err2] eqn:Hbody.
  destruct (body_inv _ c a modeNormal _ sw1 _ 0 chunks pend Hinv1 Ha1
              (start_ok_init c a sw1 chunks pend Hinv1 Ha1) _ _ _ _ _ Hbody)
    as (Hr2 & Hw & Ha2 & _ & Hsb2 & Hinv2 & Hstart2 & Herr).
  rewrite Hrd in *. cbn [fst snd] in *.
  assert (emits modeNormal (length (pend ++ data)) = true) as Hem.
  { unfold emits. cbn [is_modeLazy negb andb]. apply orb_true_iff. right.
    apply Nat.ltb_lt. rewrite length_app.
    destruct data; [exfalso; apply Hne; reflexivity|].
    cbn [length]. lia. }
  unfold ghost_step in *. rewrite Hem in *. cbn [fst snd] in *.
  assert (sink_behaviour (writer sw1) = reliable) as Hb1 by exact Hb.
  rewrite Hb1 in Herr. cbn in Herr. subst err2 r2'.
  destruct (readFrom_body R a modeNormal r1 sw2 start2 written2)
    as [[[[sw3 r3] start3] written3] err3] eqn:Hbody3.
  destruct (body_inv _ c a modeNormal _ sw2 _ written2 _ [] Hinv2 Ha2
              Hstart2 _ _ _ _ _ Hbody3)
    as (Hr3 & Hw3 & _ & _ & _ & Hinv3 & _ & Herr3).
  cbn [length] in *. rewrite Nat.sub_0_r, Hrd2 in *. cbn [fst snd app] in *.
  assert (emits modeNormal 0 = false) as Hem0 by apply emits_0.
  cbn [length] in *. rewrite Hem0 in *. cbn [fst snd] in *.
  destruct Herr3 as (-> & Hwr3). cbn [is_EOF]. cbn [fst snd].
  split.
  - rewrite Hw3, Hw, Z.add_0_l, Z.add_0_r, int64_idem, int64_small;
      [reflexivity|lia].
  - split; [exact Hr3|].
    rewrite Hwr3, (inv_log _ _ _ _ Hinv2), length_app. cbn [length]. lia.
Qed.

Lemma read_error_with_data_is_dropped_witness :
  let cs := [CallWrite [1]] in
  let sw := run cs (NewShadowsocksWriter (new_sink reliable) testCipher
                      testEntropy) in
  let R := once_Reader [7; 8; 9] (ErrExternal 5) in
  is_Some (aead sw) ∧ (ReadFrom 2 R false sw).2 = Returned 3 None.
Proof.
  intros cs sw R.
  assert (is_Some (aead sw)) as Ha by (eexists; vm_compute; reflexivity).
  split; [exact Ha|].
  assert (R_read R false (payloadSizeMask - pending sw)
          = ([7; 8; 9], Some (ErrExternal 5), true)) as Hrd
    by (vm_compute; reflexivity).
  assert ([7; 8; 9] ≠ ([] : list byte)) as Hne by discriminate.
  assert (R_read R true payloadSizeMask = ([], Some io_EOF, true)) as Hrd2
    by reflexivity.
  destruct (read_error_with_data_is_dropped testCipher testEntropy cs R
              false true true [7; 8; 9] (ErrExternal 5) 2 Ha Hrd Hne Hrd2
              (le_n 2)) as (H & _).
  exact H.
Defined.

End Failures.

Section CounterValues.

Lemma le_value_iter (k : nat) (b : list byte) :
  bytes_valid b →
  bytes_valid (Nat.iter k increment b)
  ∧ length (Nat.iter k increment b) = length b
  ∧ le_value (Nat.iter k increment b)
    = (le_value b + Z.of_nat k) mod 256 ^ Z.of_nat (length b).
Proof.
  intros Hb. induction k as [|k (Hv & Hl & IH)].
  - cbn [Nat.iter]. split; [exact Hb|]. split; [reflexivity|].
    rewrite Z.add_0_r, Z.mod_small; [reflexivity|].
    by apply le_value_bound.
  - rewrite !Nat.iter_succ. split; [by apply increment_valid|].
    split; [by rewrite length_increment|].
    rewrite le_value_increment, Hl, IH by exact Hv.
    rewrite Zplus_mod_idemp_l. f_equal. lia.
Qed.

Lemma le_value_inj (a b : list byte) :
  bytes_valid a → bytes_valid b → length a = length b →
  le_value a = le_value b → a = b.
Proof.
  intros Ha. revert b. induction Ha as [|v a Hv Ha IH]; intros b Hb Hl Heq.
  - destruct b; [reflexivity|discriminate Hl].
  - destruct Hb as [|w b Hw Hb]; [discriminate Hl|].
    cbn [le_value] in Heq. injection Hl as Hl.
    assert (v = w ∧ le_value a = le_value b) as [-> Hrec] by lia.
    f_equal. by apply IH.
Qed.

(** X12. [increment] steps through every value of the counter before it
    repeats one: from any counter of [n] bytes, fewer than [256 ^ n]
    increments never give the same counter twice, and exactly [256 ^ n]
    increments give the starting counter again. *)
Theorem increment_cycle (b : list byte) (j k : nat) :
  bytes_valid b →
  (j < k)%nat → Z.of_nat k < 256 ^ Z.of_nat (length b) →
  Nat.iter j increment b ≠ Nat.iter k increment b
  ∧ Nat.iter (Z.to_nat (256 ^ Z.of_nat (length b))) increment b = b.
Proof.
  intros Hb Hjk Hk.
  set (M := 256 ^ Z.of_nat (length b)) in *.
  assert (0 < M) as HM by (apply Z.pow_pos_nonneg; lia).
  split.
  - intros Heq. apply (f_equal le_value) in Heq.
    destruct (le_value_iter j b Hb) as (_ & _ & Hj).
    destruct (le_value_iter k b Hb) as (_ & _ & Hk').
    rewrite Hj, Hk' in Heq. fold M in Heq.
    pose proof (Z.div_mod (le_value b + Z.of_nat j) M ltac:(lia)) as Dj.
    pose proof (Z.div_mod (le_value b + Z.of_nat k) M ltac:(lia)) as Dk.
    rewrite Heq in Dj.
    assert (Z.of_nat k - Z.of_nat j
            = M * ((le_value b + Z.of_nat k) / M
                   - (le_value b + Z.of_nat j) / M)) as Hd by lia.
    assert (0 < Z.of_nat k - Z.of_nat j < M) as Hr by lia.
    set (d := (le_value b + Z.of_nat k) / M
              - (le_value b + Z.of_nat j) / M) in Hd.
    clearbody d. rewrite Hd in Hr. clear - Hr HM.
    assert (d <= 0 ∨ 1 <= d) as [Hd|Hd] by lia; nia.
  - destruct (le_value_iter (Z.to_nat M) b Hb) as (Hv & Hl & Hval).
    apply le_value_inj; [exact Hv|exact Hb|exact Hl|].
    rewrite Hval. fold M. rewrite Z2Nat.id by lia.
    rewrite <- Zplus_mod_idemp_r, Z_mod_same_full, Z.add_0_r.
    apply Z.mod_small. by apply le_value_bound.
Qed.

Lemma increment_cycle_witness :
  Nat.iter 3 increment [254; 255] ≠ Nat.iter 300 increment [254; 255].
Proof.
  assert (bytes_valid [254; 255]) as Hb by (repeat constructor; lia).
  assert (3 < 300)%nat as Hjk by lia.
  assert (Z.of_nat 300 < 256 ^ Z.of_nat (length [254; 255])) as Hk
    by (vm_compute; reflexivity).
  destruct (increment_cycle [254; 255] 3 300 Hb Hjk Hk) as (H & _).
  exact H.
Defined.

End CounterValues.

(** ** The reader, case by case *)

Section ReaderFacts.
Import chunkReader.

Lemma wrap_not_short (msg : string) (e : error) :
  (if negb (is_EOF e) && negb (is_ErrUnexpectedEOF e)
   then Errorf msg e else e) ≠ io_ErrShortBuffer.
Proof. destruct e; discriminate. Qed.

Lemma wrap_unexpected (msg : string) (e : error) :
  (if negb (is_EOF e) && negb (is_ErrUnexpectedEOF e)
   then Errorf msg e else e) = io_ErrUnexpectedEOF →
  e = io_ErrUnexpectedEOF.
Proof. destruct e; simpl; intros H; done. Qed.

(** [readMessage], by cases on what the stream holds. *)
Lemma readMessage_cases (a : AEAD) (n : nat) (cr : t) :
  let r := readMessage a n cr in
  let rem := remaining (reader cr) in
  final (reader r.1) = final (reader cr)
  ∧ ssCipher r.1 = ssCipher cr
  ∧ aead r.1 = aead cr
  ∧ (((length rem < n)%nat
      ∧ remaining (reader r.1) = []
      ∧ r.2 = Some (short_read (reader cr)))
     ∨ ((n <= length rem)%nat
        ∧ remaining (reader r.1) = drop n rem
        ∧ counter r.1 = increment (counter cr)
        ∧ match Open a (counter cr) (take n rem) with
          | Some pt =>
              r.2 = None
              ∧ buf r.1
                = append_at 0 pt (write_at 0 (take n rem) (buf cr))
          | None => r.2 = Some (Errorf "failed to decrypt" errOpen)
          end)).
Proof.
  intros r rem. subst r. unfold readMessage, io_ReadFull. fold rem.
  destruct (Nat.leb_spec n (length rem)) as [Hle|Hlt];
    cbn [set_reader set_buf reader ssCipher aead counter buf set_counter
         fst snd remaining final].
  - assert (slice 0 n (write_at 0 (take n rem) (buf cr)) = take n rem) as ->.
    { rewrite write_at_0.
      replace n with (length (take n rem)) at 1
        by (rewrite length_take; lia).
      apply slice_0_app. }
    destruct (Open a (counter cr) (take n rem)) as [pt|];
      cbn [set_reader set_buf reader ssCipher aead counter buf set_counter
           fst snd remaining final].
    + split; [reflexivity|]. split; [reflexivity|]. split; [reflexivity|].
      right. split; [exact Hle|]. split; [reflexivity|].
      split; [reflexivity|]. split; reflexivity.
    + split; [reflexivity|]. split; [reflexivity|]. split; [reflexivity|].
      right. split; [exact Hle|]. split; [reflexivity|].
      split; reflexivity.
  - split; [reflexivity|]. split; [reflexivity|]. split; [reflexivity|].
    left. split; [exact Hlt|]. split; reflexivity.
Qed.

(** [init], by cases on its result. *)
Lemma init_cases (cr : t) :
  let r := init cr in
  final (reader r.1) = final (reader cr)
  ∧ ssCipher r.1 = ssCipher cr
  ∧ match r.2 with
    | Ok a =>
        chunk_input cr = Some (a, counter r.1, remaining (reader r.1))
        ∧ aead r.1 = Some a
    | Err e =>
        aead r.1 = None
        ∧ ((∃ e0, e = Errorf "failed to create AEAD" e0)
           ∨ ((length (remaining (reader cr)) < SaltSize (ssCipher cr))%nat
              ∧ remaining (reader r.1) = []
              ∧ e = (let e0 := short_read (reader cr) in
                     if negb (is_EOF e0) && negb (is_ErrUnexpectedEOF e0)
                     then Errorf "failed to read salt" e0 else e0)))
    end.
Proof.
  intros r. subst r. unfold init, chunk_input.
  destruct (aead cr) as [a|] eqn:Ha; cbn [fst snd].
  { split; [reflexivity|]. split; [reflexivity|]. split; [reflexivity|].
    exact Ha. }
  unfold io_ReadFull.
  destruct (Nat.leb_spec (SaltSize (ssCipher cr))
              (length (remaining (reader cr)))) as [Hle|Hlt];
    cbn [set_reader reader ssCipher aead counter buf fst snd remaining
         final].
  - destruct (Decrypter (ssCipher cr) _) as [a|e];
      cbn [set_reader reader ssCipher aead counter buf fst snd remaining
           final].
    + split; [reflexivity|]. split; [reflexivity|]. split; reflexivity.
    + split; [reflexivity|]. split; [reflexivity|]. split; [exact Ha|].
      left. by exists e.
  - split; [reflexivity|]. split; [reflexivity|]. split; [exact Ha|].
    right. split; [exact Hlt|]. split; reflexivity.
Qed.

Lemma ReadChunk_final (cr : t) :
  final (reader (ReadChunk cr).1) = final (reader cr)
  ∧ ssCipher (ReadChunk cr).1 = ssCipher cr.
Proof.
  unfold ReadChunk.
  destruct (init_cases cr) as (Hf1 & Hs1 & _).
  destruct (init cr) as [cr1 [a|e]]; cbn [fst snd] in *; [|by split].
  destruct (readMessage_cases a (2 + Overhead a) cr1) as (Hf2 & Hs2 & _).
  destruct (readMessage a (2 + Overhead a) cr1) as [cr2 [e|]];
    cbn [fst snd] in *; [split; congruence|].
  cbv zeta. destruct (_ <? _)%nat; cbn [fst snd]; [split; congruence|].
  match goal with |- context [readMessage a ?n cr2] =>
    destruct (readMessage_cases a n cr2) as (Hf3 & Hs3 & _);
    destruct (readMessage a n cr2) as [cr3 [e|]] end;
    cbn [fst snd] in *; split; congruence.
Qed.

Lemma init_wf (cr : t) (a : AEAD) :
  reader_wf cr → (init cr).2 = Ok a →
  length (buf (init cr).1) = (payloadSizeMask + Overhead a)%nat.
Proof.
  intros Hwf Hok.
  destruct (init_cases cr) as (_ & _ & Hc). rewrite Hok in Hc.
  destruct Hc as (Hin & _).
  destruct (init_spec cr a _ _ Hwf Hin) as (cr1 & Hinit & _ & _ & _ & _ & _
                                            & Hb).
  by rewrite Hinit.
Qed.

(** X13. [ReadChunk] returns a payload only if the stream held, after the
    salt, a length block and a payload block that the AEAD opened under
    two consecutive counter values; the payload has at most 16383 bytes
    and the reader has consumed exactly the two blocks.  Bytes that fail
    authentication are never returned. *)
Theorem ReadChunk_authentic (cr : chunkReader.t) (pt : list byte) :
  reader_wf cr → (ReadChunk cr).2 = Ok pt →
  ∃ a ctr lenblock payblock rest sizefield body,
    chunk_input cr = Some (a, ctr, lenblock ++ payblock ++ rest)
    ∧ length lenblock = (2 + Overhead a)%nat
    ∧ length payblock = (length pt + Overhead a)%nat
    ∧ Z.of_nat (length pt) <= 16383
    ∧ Open a ctr lenblock = Some sizefield
    ∧ Open a (increment ctr) payblock = Some body
    ∧ (length body = length pt → pt = body)
    ∧ remaining (reader (ReadChunk cr).1) = rest
    ∧ counter (ReadChunk cr).1 = increment (increment ctr).
Proof.
  intros Hwf. unfold ReadChunk.
  destruct (init_cases cr) as (_ & _ & Hc).
  pose proof (init_wf cr) as Hb1.
  destruct (init cr) as [cr1 [a|e]]; cbn [fst snd] in *; [|discriminate].
  destruct Hc as (Hin & Ha1). specialize (Hb1 a Hwf eq_refl).
  pose proof mask_val as Hmask.
  destruct (readMessage_cases a (2 + Overhead a) cr1)
    as (_ & _ & Ha2 & Hm1).
  pose proof (readMessage_keeps a (2 + Overhead a) cr1 ltac:(lia))
    as (_ & Hb2).
  destruct (readMessage a (2 + Overhead a) cr1) as [cr2 [e|]];
    cbn [fst snd] in *; [discriminate|].
  destruct Hm1 as [(_ & _ & [=])|(Hle1 & Hr2 & Hc2 & Ho1)].
  destruct (Open a (counter cr1) (take (2 + Overhead a)
                                    (remaining (reader cr1))))
    as [sizefield|] eqn:Hopen1; [|discriminate Ho1].
  cbv zeta.
  set (size := Z.to_nat (Z.land (Uint16 (buf cr2))
                           (Z.of_nat payloadSizeMask))).
  assert (size <= payloadSizeMask)%nat as Hsize.
  { pose proof (land_mask_bound (Uint16 (buf cr2))). subst size. lia. }
  destruct (Nat.ltb_spec (length (buf cr2)) (size + Overhead a))
    as [Hlt|Hfit]; [lia|].
  destruct (readMessage_cases a (size + Overhead a) cr2)
    as (_ & _ & _ & Hm2).
  pose proof (readMessage_keeps a (size + Overhead a) cr2 Hfit)
    as (_ & Hb3).
  destruct (readMessage a (size + Overhead a) cr2) as [cr3 [e|]];
    cbn [fst snd] in *; [discriminate|].
  destruct Hm2 as [(_ & _ & [=])|(Hle2 & Hr3 & Hc3 & Ho2)].
  destruct (Open a (counter cr2) (take (size + Overhead a)
                                    (remaining (reader cr2))))
    as [body|] eqn:Hopen2; [|discriminate Ho2].
  destruct Ho2 as (_ & Hbuf3).
  intros [= <-].
  assert (length (slice 0 size (buf cr3)) = size) as Hlen.
  { unfold slice. rewrite length_take, length_drop. lia. }
  set (rem := remaining (reader cr1)) in *.
  exists a, (counter cr1), (take (2 + Overhead a) rem),
    (take (size + Overhead a) (drop (2 + Overhead a) rem)),
    (drop (size + Overhead a) (drop (2 + Overhead a) rem)),
    sizefield, body.
  rewrite Hr2 in *.
  split; [by rewrite !take_drop|].
  split; [rewrite length_take; lia|].
  split; [rewrite length_take, Hlen; lia|].
  split; [rewrite Hlen; lia|].
  split; [exact Hopen1|].
  split; [by rewrite <- Hc2|].
  split; [|split; [exact Hr3|by rewrite Hc3, Hc2]].
  rewrite Hlen. intros Hbody. rewrite Hbuf3.
  rewrite append_at_fits.
  - rewrite write_at_0, <- Hbody. apply slice_0_app.
  - rewrite length_write_at; rewrite ?length_take; lia.
Qed.

Lemma ReadChunk_authentic_witness :
  let sent :=
    shadowsocksWriter.Write [1; 2; 3]
      (shadowsocksWriter.NewShadowsocksWriter (new_sink reliable) testCipher
         testEntropy) in
  let cr :=
    chunkReader.mk
      {| remaining := concat (sink_log (shadowsocksWriter.writer sent.1));
         final := io_EOF |} testCipher None [] [] in
  reader_wf cr ∧ (ReadChunk cr).2 = Ok [1; 2; 3]
  ∧ ∃ a ctr lenblock payblock rest,
      chunk_input cr = Some (a, ctr, lenblock ++ payblock ++ rest)
      ∧ length payblock = (3 + Overhead a)%nat.
Proof.
  intros sent cr.
  assert (reader_wf cr) as Hwf by (intros a Ha; discriminate Ha).
  assert ((ReadChunk cr).2 = Ok [1; 2; 3]) as Hok
    by (vm_compute; reflexivity).
  split; [exact Hwf|]. split; [exact Hok|].
  destruct (ReadChunk_authentic cr [1; 2; 3] Hwf Hok)
    as (a & ctr & lenblock & payblock & rest & _ & _ & Hin & _ & Hpb & _).
  exists a, ctr, lenblock, payblock, rest. split; [exact Hin|exact Hpb].
Defined.

Lemma ReadChunk_eof_uninit (cr : t) :
  aead cr = None → remaining (reader cr) = [] →
  final (reader cr) = io_EOF → (0 < SaltSize (ssCipher cr))%nat →
  (ReadChunk cr).2 = Err io_EOF.
Proof.
  intros Ha Hrem Hfin Hpos. unfold ReadChunk, init, io_ReadFull.
  rewrite Ha, Hrem, Hfin.
  destruct (Nat.leb_spec (SaltSize (ssCipher cr)) (@length byte []))
    as [Hle|_]; [simpl in Hle; lia|reflexivity].
Qed.

(** After [ReadChunk] has reported [io.ErrUnexpectedEOF] the stream is
    drained. *)
Lemma unexpected_drains (cr : t) :
  reader_wf cr → final (reader cr) = io_EOF →
  (ReadChunk cr).2 = Err io_ErrUnexpectedEOF →
  remaining (reader (ReadChunk cr).1) = []
  ∧ (aead (ReadChunk cr).1 = None →
     (0 < SaltSize (ssCipher (ReadChunk cr).1))%nat).
Proof.
  intros Hwf Hfin. unfold ReadChunk.
  destruct (init_cases cr) as (Hf1 & Hs1 & Hc).
  pose proof (init_wf cr) as Hb1.
  destruct (init cr) as [cr1 [a|e]]; cbn [fst snd] in *.
  2: { destruct Hc as (Ha1 & [(e0 & ->)|(Hlt & Hr1 & ->)]);
         [discriminate|].
       intros [= He]. split; [exact Hr1|]. intros _. rewrite Hs1. lia. }
  destruct Hc as (Hin & Ha1). specialize (Hb1 a Hwf eq_refl).
  pose proof mask_val as Hmask.
  destruct (readMessage_cases a (2 + Overhead a) cr1)
    as (_ & _ & Ha2 & Hm1).
  pose proof (readMessage_keeps a (2 + Overhead a) cr1 ltac:(lia))
    as (_ & Hb2).
  destruct (readMessage a (2 + Overhead a) cr1) as [cr2 [e|]];
    cbn [fst snd] in *.
  { intros [= He]. apply wrap_unexpected in He. subst e.
    destruct Hm1 as [(_ & Hr2 & _)|(_ & _ & _ & Ho)].
    - split; [exact Hr2|]. intros Hn. congruence.
    - destruct (Open a (counter cr1) _); [by destruct Ho|discriminate Ho]. }
  cbv zeta.
  set (size := Z.to_nat (Z.land (Uint16 (buf cr2))
                           (Z.of_nat payloadSizeMask))).
  destruct (Nat.ltb_spec (length (buf cr2)) (size + Overhead a))
    as [Hlt|Hfit]; [discriminate|].
  destruct (readMessage_cases a (size + Overhead a) cr2)
    as (_ & _ & Ha3 & Hm2).
  destruct (readMessage a (size + Overhead a) cr2) as [cr3 [e|]];
    cbn [fst snd] in *; [|discriminate].
  intros [= He].
  destruct Hm2 as [(_ & Hr3 & _)|(_ & _ & _ & Ho)].
  - split; [exact Hr3|]. intros Hn. congruence.
  - destruct (Open a (counter cr2) _); [by destruct Ho|].
    injection Ho as ->. discriminate He.
Qed.

(** X14. A truncated stream is reported once.  On a stream that ends
    with [io.EOF], when [ReadChunk] returns [io.ErrUnexpectedEOF], the
    next [ReadChunk] returns a plain [io.EOF]. *)
Theorem unexpected_eof_then_eof (cr : chunkReader.t) :
  reader_wf cr → final (reader cr) = io_EOF →
  (ReadChunk cr).2 = Err io_ErrUnexpectedEOF →
  (ReadChunk (ReadChunk cr).1).2 = Err io_EOF.
Proof.
  intros Hwf Hfin Hun.
  destruct (unexpected_drains cr Hwf Hfin Hun) as (Hrem & Hsalt).
  pose proof (ReadChunk_wf cr Hwf) as Hwf'.
  destruct (ReadChunk_final cr) as (Hfin' & _). rewrite Hfin in Hfin'.
  destruct (aead (ReadChunk cr).1) as [a|] eqn:Ha.
  - destruct (ReadChunk_eof (ReadChunk cr).1 a (counter (ReadChunk cr).1)
                Hwf') as (cr' & ->); [|exact Hfin'|reflexivity].
    unfold chunk_input. by rewrite Ha, Hrem.
  - by apply ReadChunk_eof_uninit; [exact Ha|exact Hrem|exact Hfin'|apply Hsalt].
Qed.

Lemma unexpected_eof_then_eof_witness :
  let cr := chunkReader.mk {| remaining := [7; 7; 0; 3; 0];
                              final := io_EOF |} testCipher None [] [] in
  reader_wf cr ∧ (ReadChunk cr).2 = Err io_ErrUnexpectedEOF
  ∧ (ReadChunk (ReadChunk cr).1).2 = Err io_EOF.
Proof.
  intros cr.
  assert (reader_wf cr) as Hwf by (intros a Ha; discriminate Ha).
  assert ((ReadChunk cr).2 = Err io_ErrUnexpectedEOF) as Hun
    by (vm_compute; reflexivity).
  split; [exact Hwf|]. split; [exact Hun|].
  exact (unexpected_eof_then_eof cr Hwf eq_refl Hun).
Defined.

Lemma payload_err_not_short (s : Stream) :
  final s ≠ io_ErrShortBuffer →
  (if is_EOF (short_read s) then io_ErrUnexpectedEOF else short_read s)
  ≠ io_ErrShortBuffer.
Proof.
  unfold short_read. intros Hfin.
  destruct (remaining s); destruct (final s); cbn; congruence.
Qed.

Lemma ReadChunk_not_short (cr : t) :
  reader_wf cr → final (reader cr) ≠ io_ErrShortBuffer →
  (ReadChunk cr).2 ≠ Err io_ErrShortBuffer.
Proof.
  intros Hwf Hfin. unfold ReadChunk.
  destruct (init_cases cr) as (Hf1 & Hs1 & Hc).
  pose proof (init_wf cr) as Hb1.
  destruct (init cr) as [cr1 [a|e]]; cbn [fst snd] in *.
  2: { destruct Hc as (_ & [(e0 & ->)|(_ & _ & ->)]); [discriminate|].
       intros [= He]. by apply wrap_not_short in He. }
  destruct Hc as (Hin & Ha1). specialize (Hb1 a Hwf eq_refl).
  pose proof mask_val as Hmask.
  destruct (readMessage_cases a (2 + Overhead a) cr1)
    as (Hf2 & _ & Ha2 & Hm1).
  pose proof (readMessage_keeps a (2 + Overhead a) cr1 ltac:(lia))
    as (_ & Hb2).
  destruct (readMessage a (2 + Overhead a) cr1) as [cr2 [e|]];
    cbn [fst snd] in *.
  { intros [= He]. by apply wrap_not_short in He. }
  cbv zeta.
  set (size := Z.to_nat (Z.land (Uint16 (buf cr2))
                           (Z.of_nat payloadSizeMask))).
  assert (size <= payloadSizeMask)%nat as Hsize.
  { pose proof (land_mask_bound (Uint16 (buf cr2))). subst size. lia. }
  destruct (Nat.ltb_spec (length (buf cr2)) (size + Overhead a))
    as [Hlt|Hfit]; [lia|].
  destruct (readMessage_cases a (size + Overhead a) cr2)
    as (_ & _ & _ & Hm2).
  destruct (readMessage a (size + Overhead a) cr2) as [cr3 [e|]];
    cbn [fst snd] in *; [|discriminate].
  destruct Hm2 as [(_ & _ & [= ->])|(_ & _ & _ & Ho)].
  - intros [= He]. revert He. apply payload_err_not_short.
    by rewrite Hf2, Hf1.
  - destruct (Open a (counter cr2) _); [by destruct Ho|].
    injection Ho as ->. discriminate.
Qed.

(** X15. The [io.ErrShortBuffer] branch of [ReadChunk] is dead code:
    however many chunks a reader made by [NewShadowsocksReader] has read
    and whatever the stream holds, [ReadChunk] does not return
    [io.ErrShortBuffer], unless the stream itself fails with it. *)
Theorem short_buffer_unreachable (s : Stream) (c : Cipher) (k : nat) :
  final s ≠ io_ErrShortBuffer →
  let cr := Nat.iter k (λ cr, (ReadChunk cr).1)
              (readConverter.cr (readConverter.NewShadowsocksReader s c)) in
  (ReadChunk cr).2 ≠ Err io_ErrShortBuffer.
Proof.
  intros Hfin cr.
  assert (reader_wf cr ∧ final (reader cr) = final s) as [Hwf Hf].
  { subst cr. induction k as [|k [IHw IHf]].
    - split; [|reflexivity]. intros a Ha. discriminate Ha.
    - rewrite Nat.iter_succ. split; [by apply ReadChunk_wf|].
      destruct (ReadChunk_final
                  (Nat.iter k (λ cr, (ReadChunk cr).1)
                     (readConverter.cr
                        (readConverter.NewShadowsocksReader s c))))
        as (-> & _).
      exact IHf. }
  apply ReadChunk_not_short; [exact Hwf|by rewrite Hf].
Qed.

Lemma short_buffer_unreachable_witness :
  let s := {| remaining := [7; 7; 255; 255; 0; 1; 2; 3];
              final := io_EOF |} in
  (ReadChunk (Nat.iter 1 (λ cr, (ReadChunk cr).1)
                (readConverter.cr
                   (readConverter.NewShadowsocksReader s testCipher)))).2
  ≠ Err io_ErrShortBuffer.
Proof.
  intros s.
  assert (final s ≠ io_ErrShortBuffer) as Hfin by discriminate.
  exact (short_buffer_unreachable s testCipher 1 Hfin).
Defined.

End ReaderFacts.

Section ReadCalls.
Import readConverter.

(** [ReadChunk] before the frames of [ch :: rest], numbered from [k]. *)
Lemma ReadChunk_frame (enc dec : AEAD) (ch : list byte)
    (rest : list (list byte)) (k : nat) (cr : chunkReader.t) :
  exact_overhead enc → opens enc dec → chunk_ok ch → reader_wf cr →
  chunk_input cr
  = Some (dec, nonce_of (NonceSize enc) (2 * k),
          concat (imap (λ i, frame enc (k + i)) (ch :: rest))) →
  ∃ cr',
    chunkReader.ReadChunk cr = (cr', Ok ch)
    ∧ reader_wf cr'
    ∧ final (chunkReader.reader cr') = final (chunkReader.reader cr)
    ∧ chunk_input cr'
      = Some (dec, nonce_of (NonceSize enc) (2 * S k),
              concat (imap (λ i, frame enc (S k + i)) rest)).
Proof.
  intros Hex (Hns & Hov & Hopen) Hch Hwf Hin.
  cbn [imap concat] in Hin. unfold frame at 1 in Hin.
  rewrite <- app_assoc, Nat.add_0_r in Hin.
  set (sizefield := PutUint16 (uint16 (Z.of_nat (length ch)))) in *.
  assert (Z.to_nat (Z.land (Uint16 sizefield) (Z.of_nat payloadSizeMask))
          = length ch) as Hsize.
  { subst sizefield. rewrite length_field by exact Hch.
    destruct Hch as [H1 H2]. pose proof mask_val.
    rewrite land_mask by lia. lia. }
  edestruct (ReadChunk_chunk cr dec _ _ _ _ sizefield ch Hwf Hin)
    as (cr' & HRC & Ha' & Hc' & Hr' & Hf' & Hs' & Hwf').
  { by rewrite Hex, Hov. }
  { apply Hopen. }
  { reflexivity. }
  { rewrite Hsize, Hex, Hov. reflexivity. }
  { rewrite Nat.add_1_r, <- nonce_of_S. apply Hopen. }
  { by rewrite Hsize. }
  exists cr'. split; [exact HRC|]. split; [exact Hwf'|].
  split; [exact Hf'|].
  unfold chunk_input. rewrite Ha', Hc', Hr'.
  f_equal. f_equal; [f_equal|].
  - rewrite <- !nonce_of_S. f_equal. lia.
  - f_equal. apply imap_ext. intros i x _. simpl. f_equal. lia.
Qed.

(** [Read] calls over a stream that holds the frames of [chunks],
    numbered from [k], and then ends, by a reader that still holds
    [l]. *)
Lemma Read_frames (enc dec : AEAD) (cap : nat) :
  exact_overhead enc → opens enc dec → (0 < cap)%nat →
  ∀ (fuel : nat) (chunks : list (list byte)) (l : list byte) (k : nat)
    (cr : chunkReader.t),
    Forall chunk_ok chunks → reader_wf cr →
    chunk_input cr
    = Some (dec, nonce_of (NonceSize enc) (2 * k),
            concat (imap (λ i, frame enc (k + i)) chunks)) →
    final (chunkReader.reader cr) = io_EOF →
    (length l + length (concat chunks) < fuel)%nat →
    read_all fuel cap (mk cr l) = Some (l ++ concat chunks, io_EOF).
Proof.
  intros Hex Hop Hcap.
  induction fuel as [|fuel IH]; intros chunks l k cr Hok Hwf Hin Hfin Hfuel;
    [lia|].
  cbn [read_all]. unfold Read, ensureLeftover.
  cbn [leftover readConverter.cr].
  destruct l as [|x l]; cbn [length Nat.ltb Nat.leb].
  - destruct Hok as [|ch chunks Hch Hok].
    + destruct (ReadChunk_eof cr dec _ Hwf Hin Hfin) as (cr' & ->).
      reflexivity.
    + destruct (ReadChunk_frame enc dec ch chunks k cr Hex Hop Hch Hwf Hin)
        as (cr' & -> & Hwf' & Hf' & Hin').
      cbn [leftover readConverter.cr].
      rewrite (IH chunks (drop cap ch) (S k) cr' Hok Hwf' Hin').
      * cbn [concat app]. by rewrite app_assoc, take_drop.
      * congruence.
      * cbn [concat length] in Hfuel. rewrite length_app in Hfuel.
        rewrite length_drop. destruct Hch as [H1 _]. lia.
  - cbn [leftover readConverter.cr].
    rewrite (IH chunks (drop cap (x :: l)) k cr Hok Hwf Hin Hfin).
    + by rewrite app_assoc, take_drop.
    + rewrite length_drop. cbn [length] in *. lia.
Qed.

(** X16. The same round trip through [Read].  Whatever calls were made
    on a writer for a supported cipher, while the counter has not
    wrapped: a client that calls [Read] with a buffer of any size but
    zero, on a new reader for the same cipher given the bytes of the
    sink writes and then end of stream, collects exactly the payloads
    the writer sealed, in order, and then gets [io.EOF]. *)
Theorem read_calls_round_trip
    (behaviour : list (list byte) → option (nat * error))
    (c : Cipher) (e : Entropy) (cs : list shadowsocksWriter.call)
    (cap fuel : nat) :
  supported c →
  let sw :=
    shadowsocksWriter.run cs
      (shadowsocksWriter.NewShadowsocksWriter (new_sink behaviour) c e) in
  let wire := concat (sink_log (shadowsocksWriter.writer sw)) in
  Z.of_nat (length (sink_log (shadowsocksWriter.writer sw))) <= 32768 →
  (0 < cap)%nat → (length wire < fuel)%nat →
  ∃ ns chunks,
    shadowsocksWriter.sealed sw = seal_trace ns chunks
    ∧ read_all fuel cap
        (NewShadowsocksReader {| remaining := wire; final := io_EOF |} c)
      = Some (concat chunks, io_EOF).
Proof.
  intros Hsup sw wire Hlen Hcap Hfuel.
  destruct (wire_chunk_input behaviour c e cs Hsup Hlen)
    as (ns & chunks & Hsealed & Hok & Hsize & Hstart).
  fold sw in Hsealed, Hstart, Hsize. fold wire in Hstart, Hsize.
  exists ns, chunks. split; [exact Hsealed|].
  unfold NewShadowsocksReader.
  destruct Hstart as [(-> & cr' & HRC)|(enc & dec & Hex & Hop & Hin)].
  - destruct fuel as [|fuel]; [lia|].
    cbn [read_all]. unfold Read, ensureLeftover.
    cbn [leftover length Nat.ltb Nat.leb readConverter.cr].
    rewrite HRC. reflexivity.
  - set (cr0 := chunkReader.mk _ c None [] []) in *.
    assert (reader_wf cr0) as Hwf by (intros a Ha; discriminate Ha).
    rewrite (Read_frames enc dec cap Hex Hop Hcap fuel chunks [] 0 cr0 Hok
               Hwf Hin eq_refl); [reflexivity|].
    cbn [length]. lia.
Qed.

Lemma read_calls_round_trip_witness :
  let cs := [shadowsocksWriter.CallWrite [1; 2; 3];
             shadowsocksWriter.CallWrite [4]] in
  let sw :=
    shadowsocksWriter.run cs
      (shadowsocksWriter.NewShadowsocksWriter (new_sink reliable) testCipher
         testEntropy) in
  let wire := concat (sink_log (shadowsocksWriter.writer sw)) in
  Z.of_nat (length (sink_log (shadowsocksWriter.writer sw))) <= 32768
  ∧ (0 < 2)%nat ∧ (length wire < 20)%nat
  ∧ ∃ chunks,
      read_all 20 2
        (NewShadowsocksReader {| remaining := wire; final := io_EOF |}
           testCipher)
      = Some (concat chunks, io_EOF).
Proof.
  intros cs sw wire.
  assert (Z.of_nat (length (sink_log (shadowsocksWriter.writer sw)))
          <= 32768) as Hlen by (vm_compute; discriminate).
  assert (0 < 2)%nat as Hcap by lia.
  assert (length wire < 20)%nat as Hfuel by (vm_compute; lia).
  split; [exact Hlen|]. split; [exact Hcap|]. split; [exact Hfuel|].
  destruct (read_calls_round_trip reliable testCipher testEntropy cs 2 20
              testCipher_supported Hlen Hcap Hfuel) as (ns & chunks & _ & H).
  exists chunks. exact H.
Defined.

(** X17. A [WriteTo] that the destination cuts short loses nothing.
    When the first destination write fails after taking [n] bytes of the
    first chunk, [WriteTo] returns the number of bytes taken and the
    destination's error, and keeps the rest of the chunk: [Read] calls
    made afterwards deliver the rest of that chunk, then every later
    chunk, then [io.EOF]. *)
Theorem WriteTo_error_then_Read
    (behaviour bad : list (list byte) → option (nat * error))
    (c : Cipher) (e : Entropy) (cs : list shadowsocksWriter.call)
    (n cap fuel : nat) (err : error) :
  supported c →
  let sw :=
    shadowsocksWriter.run cs
      (shadowsocksWriter.NewShadowsocksWriter (new_sink behaviour) c e) in
  let wire := concat (sink_log (shadowsocksWriter.writer sw)) in
  sink_log (shadowsocksWriter.writer sw) ≠ [] →
  Z.of_nat (length (sink_log (shadowsocksWriter.writer sw))) <= 32768 →
  (∀ x, bad [x] = Some (n, err)) →
  (0 < cap)%nat → (length wire < fuel)%nat →
  ∃ ns ch rest,
    shadowsocksWriter.sealed sw = seal_trace ns (ch :: rest)
    ∧ let r := WriteTo fuel (new_sink bad)
                 (NewShadowsocksReader
                    {| remaining := wire; final := io_EOF |} c) 0 in
      r.2 = Returned (Z.of_nat (n `min` length ch)) (Some err)
      ∧ sink_log r.1.2 = [ch]
      ∧ read_all fuel cap r.1.1 = Some (drop n ch ++ concat rest, io_EOF).
Proof.
  intros Hsup sw wire Hne Hlen Hbad Hcap Hfuel.
  destruct (wire_chunk_input behaviour c e cs Hsup Hlen)
    as (ns & chunks & Hsealed & Hok & Hsize & Hstart).
  fold sw in Hsealed, Hstart, Hsize. fold wire in Hstart, Hsize.
  assert (length (sink_log (shadowsocksWriter.writer sw)) = length chunks)
    as Hlog.
  { destruct (run_inv c cs _ [] [] (New_inv behaviour c e))
      as (chunks' & pend & [_ _ _ _ Hl Hst] & _ & _).
    fold sw in Hl, Hst. rewrite Hl.
    assert (2 * length chunks' = 2 * length chunks)%nat; [|lia].
    rewrite <- !length_seal_trace with (ns := ns), <- Hsealed.
    destruct (shadowsocksWriter.aead sw) as [a|].
    - destruct Hst as (? & ? & ? & _ & _ & _ & _ & _ & _ & -> & _).
      by rewrite !length_seal_trace.
    - destruct Hst as (_ & -> & ->). reflexivity. }
  destruct chunks as [|ch rest].
  { destruct (sink_log (shadowsocksWriter.writer sw));
      [by destruct Hne|discriminate Hlog]. }
  destruct Hstart as [([=] & _)|(enc & dec & Hex & Hop & Hin)].
  exists ns, ch, rest. split; [exact Hsealed|].
  unfold NewShadowsocksReader.
  set (cr0 := chunkReader.mk _ c None [] []) in *.
  assert (reader_wf cr0) as Hwf by (intros a Ha; discriminate Ha).
  apply Forall_cons in Hok as [Hch Hok].
  destruct (ReadChunk_frame enc dec ch rest 0 cr0 Hex Hop Hch Hwf Hin)
    as (cr' & HRC & Hwf' & Hf' & Hin').
  destruct fuel as [|fuel]; [lia|].
  cbn [WriteTo]. unfold ensureLeftover.
  cbn [leftover length Nat.ltb Nat.leb readConverter.cr].
  rewrite HRC. cbn [leftover readConverter.cr].
  unfold sink_Write. cbn [new_sink sink_log sink_behaviour app].
  rewrite Hbad. cbn [fst snd].
  split.
  { rewrite Z.add_0_l, int64_small; [reflexivity|].
    destruct Hch as [_ H2]. pose proof mask_val. lia. }
  split; [reflexivity|].
  assert (drop (n `min` length ch) ch = drop n ch) as ->.
  { destruct (Nat.min_spec n (length ch)) as [[_ ->]|[Hge ->]];
      [reflexivity|]. by rewrite !drop_ge. }
  apply (Read_frames enc dec cap Hex Hop Hcap (S fuel) rest (drop n ch) 1
           cr' Hok Hwf' Hin').
  - by rewrite Hf'.
  - cbn [concat] in Hsize. rewrite length_app in Hsize.
    rewrite length_drop. lia.
Qed.

Lemma WriteTo_error_then_Read_witness :
  let cs := [shadowsocksWriter.CallWrite [1; 2; 3];
             shadowsocksWriter.CallWrite [4]] in
  let sw :=
    shadowsocksWriter.run cs
      (shadowsocksWriter.NewShadowsocksWriter (new_sink reliable) testCipher
         testEntropy) in
  let wire := concat (sink_log (shadowsocksWriter.writer sw)) in
  let bad := λ _ : list (list byte), Some (2%nat, ErrExternal 9) in
  sink_log (shadowsocksWriter.writer sw) ≠ []
  ∧ Z.of_nat (length (sink_log (shadowsocksWriter.writer sw))) <= 32768
  ∧ (0 < 1)%nat ∧ (length wire < 20)%nat
  ∧ ∃ ch rest,
      read_all 20 1
        (WriteTo 20 (new_sink bad)
           (NewShadowsocksReader {| remaining := wire; final := io_EOF |}
              testCipher) 0).1.1
      = Some (drop 2 ch ++ concat rest, io_EOF).
Proof.
  intros cs sw wire bad.
  assert (sink_log (shadowsocksWriter.writer sw) ≠ []) as Hne
    by (vm_compute; discriminate).
  assert (Z.of_nat (length (sink_log (shadowsocksWriter.writer sw)))
          <= 32768) as Hlen by (vm_compute; discriminate).
  assert (∀ x, bad [x] = Some (2%nat, ErrExternal 9)) as Hbad
    by (intros x; reflexivity).
  assert (0 < 1)%nat as Hcap by lia.
  assert (length wire < 20)%nat as Hfuel by (vm_compute; lia).
  split; [exact Hne|]. split; [exact Hlen|]. split; [exact Hcap|].
  split; [exact Hfuel|].
  destruct (WriteTo_error_then_Read reliable bad testCipher testEntropy cs
              2 1 20 (ErrExternal 9) testCipher_supported Hne Hlen Hbad
              Hcap Hfuel) as (ns & ch & rest & _ & _ & _ & H).
  exists ch, rest. exact H.
Defined.

End ReadCalls.

(** ** Moves in the cipher list *)

Section CipherListMoves.
Import cipherList.

Lemma matchesIP_unused (id : string) (cipher : Cipher) (h : nat) (ip : IP) :
  matchesIP {| handle := h;
               Value := {| ID := id; Cipher_ := cipher;
                           lastClientIP := None |} |} ip
  = bool_decide (ip = Some []).
Proof.
  destruct ip as [[|x a]|]; [reflexivity| |reflexivity].
  rewrite bool_decide_eq_false_2 by discriminate.
  unfold matchesIP, IP_Equal. simpl. by rewrite !andb_false_r.
Qed.

(** X18. [PushBack] puts the new entry last in the list, and last in
    the snapshot for a nil address and for every address of at least
    one byte: a new key is tried after all the others.  An empty,
    non-nil address equals the nil [lastClientIP] of an entry that was
    never used, so for it the new entry comes last among the matching
    entries, before every entry that was used. *)
Theorem PushBack_snapshot (id : string) (cipher : Cipher) (ip : IP)
    (cl : cipherList.t) :
  ip ≠ Some [] →
  let r := PushBack id cipher cl in
  SafeSnapshotForClientIP ip r.1 = SafeSnapshotForClientIP ip cl ++ [r.2]
  ∧ SafeSnapshotForClientIP (Some []) r.1
    = filter (λ x, matchesIP x (Some [])) (list_ cl)
      ++ r.2 :: filter (λ x, ¬ matchesIP x (Some [])) (list_ cl).
Proof.
  intros Hip r. subst r. rewrite !snapshot_partition.
  cbn [PushBack fst snd list_]. rewrite !filter_app.
  split.
  - rewrite !filter_cons, !filter_nil, matchesIP_unused.
    rewrite bool_decide_eq_false_2 by exact Hip.
    repeat case_decide; simpl in *; try tauto.
    by rewrite app_nil_r, app_assoc.
  - rewrite !filter_cons, !filter_nil, matchesIP_unused.
    rewrite bool_decide_eq_true_2 by reflexivity.
    repeat case_decide; simpl in *; try tauto.
    by rewrite app_nil_r, <- app_assoc.
Qed.

Lemma PushBack_snapshot_witness :
  let cl := (PushBack "a" testCipher NewCipherList).1 in
  let ip := Some [10; 0; 0; 1] in
  ip ≠ Some []
  ∧ SafeSnapshotForClientIP ip (PushBack "b" testCipher cl).1
    = SafeSnapshotForClientIP ip cl ++ [(PushBack "b" testCipher cl).2].
Proof.
  intros cl ip.
  assert (ip ≠ Some []) as Hip by discriminate.
  split; [exact Hip|].
  exact (proj1 (PushBack_snapshot "b" testCipher ip cl Hip)).
Defined.

Lemma filter_other_handles (h : nat) (l : list Element) :
  List.filter (λ x, negb (has_handle h x)) l
  = filter (λ x, handle x ≠ h) l.
Proof.
  induction l as [|x l IH]; [reflexivity|].
  cbn [List.filter]. rewrite filter_cons, IH. unfold has_handle.
  destruct (Nat.eqb_spec (handle x) h); case_decide; simpl; tauto || done.
Qed.

Lemma map_other_handles (h : nat) (ip : IP) (l : list Element) :
  List.map (λ x, if has_handle h x then set_lastClientIP ip x else x)
    (filter (λ x, handle x ≠ h) l)
  = filter (λ x, handle x ≠ h) l.
Proof.
  induction l as [|x l IH]; [reflexivity|].
  rewrite filter_cons. case_decide as Hx; [|exact IH].
  cbn [List.map]. rewrite IH. unfold has_handle.
  destruct (Nat.eqb_spec (handle x) h); [by destruct Hx|reflexivity].
Qed.

Lemma mark_list (e : Element) (ip : IP) (cl : t) :
  NoDup (handle <$> list_ cl) → e ∈ list_ cl →
  list_ (SafeMarkUsedByClientIP (handle e) ip cl)
  = set_lastClientIP ip e :: filter (λ x, handle x ≠ handle e) (list_ cl).
Proof.
  intros Hnd Hin. unfold SafeMarkUsedByClientIP, MoveToFront. cbn [list_].
  rewrite (find_has_handle _ _ Hnd Hin). cbn [List.map].
  unfold has_handle at 1. rewrite Nat.eqb_refl.
  by rewrite filter_other_handles, map_other_handles.
Qed.

Lemma mark_unknown (h : nat) (ip : IP) (cl : t) :
  h ∉ handle <$> list_ cl → SafeMarkUsedByClientIP h ip cl = cl.
Proof.
  intros Hh. unfold SafeMarkUsedByClientIP, MoveToFront.
  assert (List.find (has_handle h) (list_ cl) = None) as ->.
  { destruct (List.find _ _) as [x|] eqn:Hf; [|reflexivity].
    apply find_some in Hf as [Hx Hhx]. apply Nat.eqb_eq in Hhx.
    exfalso. apply Hh. rewrite <- Hhx. apply list_elem_of_fmap.
    exists x. split; [reflexivity|by apply list_elem_of_In]. }
  destruct cl as [l n]. cbn [list_ next_handle] in *. f_equal.
  induction l as [|x l IH]; [reflexivity|].
  rewrite fmap_cons in Hh. apply not_elem_of_cons in Hh as [Hx Hl].
  cbn [List.map]. rewrite (IH Hl). unfold has_handle.
  destruct (Nat.eqb_spec (handle x) h); [by destruct Hx|reflexivity].
Qed.

Lemma filter_fresh_handle (h : nat) (l : list Element) :
  h ∉ handle <$> l → filter (λ x, handle x ≠ h) l = l.
Proof.
  induction l as [|x l IH]; [reflexivity|].
  rewrite fmap_cons. intros Hh. apply not_elem_of_cons in Hh as [Hx Hl].
  rewrite filter_cons. case_decide as Hd; [|by destruct Hd].
  by rewrite IH.
Qed.

Lemma filter_other_length (e : Element) (l : list Element) :
  NoDup (handle <$> l) → e ∈ l →
  S (length (filter (λ x, handle x ≠ handle e) l)) = length l.
Proof.
  intros Hnd Hin. induction l as [|x l IH].
  { by apply elem_of_nil in Hin. }
  rewrite fmap_cons in Hnd. apply NoDup_cons in Hnd as [Hx Hnd].
  rewrite filter_cons. apply elem_of_cons in Hin as [->|Hin].
  - case_decide as Hd; [by destruct Hd|]. cbn [length]. f_equal.
    by rewrite filter_fresh_handle.
  - case_decide as Hd.
    + cbn [length]. f_equal. by apply IH.
    + exfalso. apply Hx. rewrite Hd. apply list_elem_of_fmap. by exists e.
Qed.

(** X19. In a list whose element pointers are distinct,
    [SafeMarkUsedByClientIP(e, ip)] puts [e], now carrying [ip], at the
    front and leaves every other element as it was and in the order it
    had: no element is lost or added.  Marking the same element for the
    same address again changes nothing, and marking an element that is
    not in the list leaves the list as it is. *)
Theorem mark_used_moves_to_front (e : Element) (ip : IP)
    (cl : cipherList.t) :
  NoDup (handle <$> list_ cl) → e ∈ list_ cl →
  let cl' := SafeMarkUsedByClientIP (handle e) ip cl in
  list_ cl'
  = set_lastClientIP ip e :: filter (λ x, handle x ≠ handle e) (list_ cl)
  ∧ length (list_ cl') = length (list_ cl)
  ∧ SafeMarkUsedByClientIP (handle e) ip cl' = cl'
  ∧ ∀ h, h ∉ handle <$> list_ cl → SafeMarkUsedByClientIP h ip cl = cl.
Proof.
  intros Hnd Hin cl'.
  pose proof (mark_list e ip cl Hnd Hin) as Hl. fold cl' in Hl.
  split; [exact Hl|].
  split; [|split; [|intros h; apply mark_unknown]].
  - rewrite Hl. cbn [length]. by apply filter_other_length.
  - assert (List.map (λ x, if has_handle (handle e) x
                           then set_lastClientIP ip x else x)
              (MoveToFront (handle e) (list_ cl')) = list_ cl') as Hidem.
    { assert (has_handle (handle e) (set_lastClientIP ip e) = true) as Hh
        by apply Nat.eqb_refl.
      rewrite Hl. unfold MoveToFront. cbn [List.find]. rewrite Hh.
      cbn [List.filter]. rewrite Hh. cbn [negb List.map]. rewrite Hh.
      rewrite filter_other_handles, map_other_handles.
      f_equal. rewrite list_filter_filter.
      apply list_filter_iff. intros x. tauto. }
    unfold SafeMarkUsedByClientIP at 1. rewrite Hidem. reflexivity.
Qed.

Lemma mark_used_moves_to_front_witness :
  let e := {| handle := 1;
              Value := {| ID := "b"; Cipher_ := testCipher;
                          lastClientIP := None |} |} in
  let cl := cipherList.mk
              [ {| handle := 0;
                   Value := {| ID := "a"; Cipher_ := testCipher;
                               lastClientIP := Some [10; 0; 0; 1] |} |}; e;
                {| handle := 2;
                   Value := {| ID := "c"; Cipher_ := testCipher;
                               lastClientIP := None |} |} ] 3 in
  NoDup (handle <$> list_ cl) ∧ e ∈ list_ cl
  ∧ ID ∘ Value <$> list_ (SafeMarkUsedByClientIP 1 (Some [10; 0; 0; 2]) cl)
    = ["b"; "a"; "c"].
Proof.
  intros e cl.
  assert (NoDup (handle <$> list_ cl)) as Hnd
    by (apply (bool_decide_unpack _); vm_compute; exact I).
  assert (e ∈ list_ cl) as Hin
    by (simpl; apply list_elem_of_In; simpl; auto).
  split; [exact Hnd|]. split; [exact Hin|].
  destruct (mark_used_moves_to_front e (Some [10; 0; 0; 2]) cl Hnd Hin)
    as (Hl & _).
  change (SafeMarkUsedByClientIP 1 (Some [10; 0; 0; 2]) cl)
    with (SafeMarkUsedByClientIP (handle e) (Some [10; 0; 0; 2]) cl).
  rewrite Hl. vm_compute. reflexivity.
Defined.

(** X20. The snapshot after a mark, for any address.  In a list whose
    element pointers are distinct, after
    [SafeMarkUsedByClientIP(e, ip)] the snapshot for an address that
    matches [ip] starts with [e]; the snapshot for an address that does
    not match has [e] first among the entries that do not match it:
    these come in recency order. *)
Theorem snapshot_after_mark (e : Element) (ip ip2 : IP)
    (cl : cipherList.t) :
  NoDup (handle <$> list_ cl) → e ∈ list_ cl →
  let others := filter (λ x, handle x ≠ handle e) (list_ cl) in
  let e' := set_lastClientIP ip e in
  SafeSnapshotForClientIP ip2 (SafeMarkUsedByClientIP (handle e) ip cl)
  = if matchesIP e' ip2
    then e' :: filter (λ x, matchesIP x ip2) others
            ++ filter (λ x, ¬ matchesIP x ip2) others
    else filter (λ x, matchesIP x ip2) others
         ++ e' :: filter (λ x, ¬ matchesIP x ip2) others.
Proof.
  intros Hnd Hin others e'.
  rewrite snapshot_partition, (mark_list e ip cl Hnd Hin).
  fold others e'. rewrite !filter_cons.
  destruct (matchesIP e' ip2); repeat case_decide; simpl in *;
    tauto || reflexivity.
Qed.

Lemma snapshot_after_mark_witness :
  let e := {| handle := 1;
              Value := {| ID := "b"; Cipher_ := testCipher;
                          lastClientIP := None |} |} in
  let cl := cipherList.mk
              [ {| handle := 0;
                   Value := {| ID := "a"; Cipher_ := testCipher;
                               lastClientIP := Some [10; 0; 0; 1] |} |}; e;
                {| handle := 2;
                   Value := {| ID := "c"; Cipher_ := testCipher;
                               lastClientIP := None |} |} ] 3 in
  NoDup (handle <$> list_ cl) ∧ e ∈ list_ cl
  ∧ ID ∘ Value
    <$> SafeSnapshotForClientIP (Some [10; 0; 0; 1])
          (SafeMarkUsedByClientIP 1 (Some [10; 0; 0; 2]) cl)
    = ["a"; "b"; "c"].
Proof.
  intros e cl.
  assert (NoDup (handle <$> list_ cl)) as Hnd
    by (apply (bool_decide_unpack _); vm_compute; exact I).
  assert (e ∈ list_ cl) as Hin
    by (simpl; apply list_elem_of_In; simpl; auto).
  split; [exact Hnd|]. split; [exact Hin|].
  change (SafeMarkUsedByClientIP 1 (Some [10; 0; 0; 2]) cl)
    with (SafeMarkUsedByClientIP (handle e) (Some [10; 0; 0; 2]) cl).
  rewrite (snapshot_after_mark e (Some [10; 0; 0; 2]) (Some [10; 0; 0; 1])
             cl Hnd Hin).
  vm_compute. reflexivity.
Defined.

End CipherListMoves.

(** ** The pending slot of [LazyWrite] *)

Section LazyWriteCases.
Import shadowsocksWriter.

(** [LazyWrite] of a [p] that fills the pending slot exactly: the loop
    seals the pending bytes and [p] as one chunk and makes one sink
    write, whatever the sink answers. *)
Lemma loop_fills (c : Cipher) (a : AEAD) (sw : t) (start : nat)
    chunks pend (p : list byte) :
  writer_inv c sw chunks pend → aead sw = Some a →
  start_ok c a start chunks →
  (length pend + length p = payloadSizeMask)%nat →
  ∃ sw' r' err,
    readFrom_loop (S (S (length p))) bytes_Reader a modeLazy p sw start 0
    = (sw', r', Returned (Z.of_nat (length p)) err)
    ∧ aead sw' = Some a
    ∧ writer_inv c sw' (chunks ++ [pend ++ p]) [].
Proof.
  intros Hinv Ha Hstart Hfull.
  pose proof (inv_room _ _ _ _ Hinv) as Hroom.
  pose proof mask_val as Hmask.
  set (fuel := S (length p)). cbn [readFrom_loop]. subst fuel.
  destruct (readFrom_body bytes_Reader a modeLazy p sw start 0)
    as [[[[sw1 r1] start1] written1] err1] eqn:Hbody.
  destruct (body_inv _ c a modeLazy _ sw start 0 chunks pend Hinv Ha Hstart
              _ _ _ _ _ Hbody)
    as (Hr & Hw & Ha1 & _ & _ & Hinv1 & Hstart1 & Herr).
  cbn [R_read bytes_Reader] in *.
  assert (bytes_Read p (payloadSizeMask - length pend) = (p, None, []))
    as Hrd.
  { destruct p as [|x p]; [cbn [length] in Hfull; lia|].
    unfold bytes_Read.
    rewrite take_ge, drop_ge by lia. reflexivity. }
  rewrite Hrd in *. cbn [fst snd] in *.
  assert (emits modeLazy (length (pend ++ p)) = true) as Hem.
  { unfold emits. rewrite length_app, Hfull, Nat.eqb_refl. reflexivity. }
  unfold ghost_step in *. rewrite Hem in *. cbn [fst snd] in *.
  assert (written1 = Z.of_nat (length p)) as ->.
  { rewrite Hw, Z.add_0_l. apply int64_small. lia. }
  subst r1. destruct err1 as [e1|].
  - exists sw1, [].
    destruct (is_EOF e1); eexists; (split; [reflexivity|]);
      (split; [exact Ha1|exact Hinv1]).
  - destruct (loop_eof (length p) c a modeLazy sw1 start1
                (Z.of_nat (length p)) _ [] Hinv1 Ha1 Hstart1
                (emits_0 modeLazy))
      as (sw2 & Hloop & _ & _ & Ha2 & Hinv2).
    exists sw2, [], None. rewrite Hloop.
    split; [|split; [exact Ha2|exact Hinv2]].
    do 2 f_equal. apply int64_small. lia.
Qed.

(** C7, as the code has it.  On a writer reached by any sequence of
    calls, [LazyWrite(p)] for a [p] that leaves the pending slot short of
    16383 bytes writes nothing to the sink and seals nothing; when the
    writer is initialised as it returns, it returns [len(p)] and no
    error, and [p] has been appended to the pending bytes.  When the
    salt draw or the key derivation fails, the writer stays
    uninitialised: [LazyWrite] returns 0 and an error, buffers nothing
    and leaves the sink as it was.  A [p] that brings the pending bytes
    to 16383 is not kept: the pending bytes and [p] are sealed as one
    chunk and handed to the sink in one write, and nothing stays
    pending. *)
Theorem lazy_write_buffers
    (behaviour : list (list byte) → option (nat * error))
    (c : Cipher) (e : Entropy) (cs : list call) (p : list byte) :
  let sw := run cs (NewShadowsocksWriter (new_sink behaviour) c e) in
  let sw' := (LazyWrite p sw).1 in
  ((pending sw + length p < payloadSizeMask)%nat →
   writer sw' = writer sw
   ∧ sealed sw' = sealed sw
   ∧ ∀ a, aead sw' = Some a →
       (LazyWrite p sw).2 = Returned (Z.of_nat (length p)) None
       ∧ pending sw' = (pending sw + length p)%nat
       ∧ pending_bytes a sw' = pending_bytes a sw ++ p)
  ∧ (aead sw' = None →
     (∃ err, (LazyWrite p sw).2 = Returned 0 (Some err))
     ∧ pending sw' = 0%nat
     ∧ writer sw' = writer sw
     ∧ sealed sw' = sealed sw)
  ∧ ((pending sw + length p = payloadSizeMask)%nat →
     ∀ a, aead sw' = Some a →
       (∃ err, (LazyWrite p sw).2 = Returned (Z.of_nat (length p)) err)
       ∧ sealed sw'
         = sealed sw ++ chunk_seals (NonceSize a)
                          (length (sink_log (writer sw)))
                          (pending_bytes a sw ++ p)
       ∧ length (sink_log (writer sw')) = S (length (sink_log (writer sw)))
       ∧ pending sw' = 0%nat).
Proof.
  intros sw sw'.
  destruct (run_inv c cs _ [] [] (New_inv behaviour c e))
    as (chunks & pend & Hinv & _ & _).
  fold sw in Hinv.
  assert (pending sw = length pend) as Hp by apply Hinv.
  pose proof (writer_inv_set_flush c false sw _ _ Hinv) as Hinvf.
  subst sw'. unfold LazyWrite, write, readFrom.
  destruct (init (set_flush false sw)) as [sw0 [a|err]] eqn:Hinit;
    destruct (init_inv c _ chunks pend Hinvf _ _ Hinit)
      as (Hinv0 & Hfl0 & Hw0 & Ha0).
  2: { cbn [fst snd]. destruct Ha0 as [Ha0 Ha].
       assert (sealed sw0 = sealed sw ∧ pending sw0 = 0%nat) as [Hs0 Hp0].
       { destruct Hinv0 as [_ Hp0 _ _ _ Hst0], Hinv as [_ _ _ _ _ Hst].
         rewrite Ha0 in Hst0. destruct Hst0 as (-> & Hc0 & ->).
         subst chunks. split; [|exact Hp0].
         cbn [set_flush aead] in Ha. rewrite Ha in Hst.
         symmetry. apply Hst. }
       split; [|split].
       - intros _. split; [exact Hw0|]. split; [exact Hs0|].
         intros a Ha'. congruence.
       - intros _. split; [by exists err|]. split; [exact Hp0|].
         split; [exact Hw0|exact Hs0].
       - intros _ a Ha'. congruence. }
  cbn [is_modeNormal].
  replace (ssCipher sw0) with c by (symmetry; apply Hinv0).
  replace (length p + 2)%nat with (S (S (length p))) by lia.
  assert (∀ a0, aead sw = Some a0 → a0 = a) as Hsame.
  { intros a0 Ha00. unfold init in Hinit. cbn [aead set_flush] in Hinit.
    rewrite Ha00 in Hinit. by injection Hinit as _ ->. }
  assert (pending_bytes a sw = pend) as Hpb.
  { apply (pending_bytes_inv c a sw chunks pend Hinv).
    destruct (aead sw) as [a0|]; [left|by right].
    by rewrite (Hsame a0 eq_refl). }
  assert (sealed sw = seal_trace (NonceSize a) chunks) as Hsealed.
  { destruct Hinv as [_ _ _ _ _ Hst]. destruct (aead sw) as [a0|].
    - rewrite <- (Hsame a0 eq_refl).
      by destruct Hst as (? & ? & ? & _ & _ & _ & _ & _ & _ & Hs & _).
    - by destruct Hst as (_ & -> & ->). }
  split; [|split].
  - intros Hlt.
    assert (length (pend ++ p) < payloadSizeMask)%nat as Hlt'
      by (rewrite length_app; lia).
    destruct (loop_buffered (length p) c a modeLazy sw0
                (if isZero (counter sw0) then 0%nat else SaltSize c) 0
                chunks pend p Hinv0 Ha0
                (start_ok_init c a sw0 chunks pend Hinv0 Ha0) Hlt'
                (emits_lazy _ Hlt'))
      as (sw1 & Hloop & Hw1 & Hfl1 & Ha1 & Hinv1).
    rewrite Hloop. cbn [fst snd].
    split; [by rewrite Hw1, Hw0|].
    split.
    { destruct Hinv1 as [_ _ _ _ _ Hst1]. rewrite Ha1 in Hst1.
      destruct Hst1 as (? & ? & ? & _ & _ & _ & _ & _ & _ & -> & _).
      by rewrite Hsealed. }
    intros a' Ha'. assert (a' = a) as -> by congruence.
    split; [|split].
    + f_equal. simpl. apply int64_small. pose proof mask_val. lia.
    + destruct Hinv1 as [_ Hp1 _ _ _ _]. rewrite Hp1, Hp. apply length_app.
    + rewrite (pending_bytes_inv c a sw1 chunks (pend ++ p)) by auto.
      by rewrite Hpb.
  - intros Hnone. exfalso.
    destruct (readFrom_loop _ _ _ _ _ _ _ _) as [[sw1 r1] o] eqn:Hloop.
    destruct (loop_inv _ _ c a modeLazy _ _ _ _ _ _ Hinv0 Ha0
                (start_ok_init c a sw0 chunks pend Hinv0 Ha0) _ _ _ Hloop)
      as (? & ? & _ & Ha1 & _).
    cbn [fst] in Hnone. congruence.
  - intros Hfull a' Ha'. rewrite Hp in Hfull.
    destruct (loop_fills c a sw0
                (if isZero (counter sw0) then 0%nat else SaltSize c)
                chunks pend p Hinv0 Ha0
                (start_ok_init c a sw0 chunks pend Hinv0 Ha0) Hfull)
      as (sw1 & r1 & err & Hloop & Ha1 & Hinv1).
    rewrite Hloop in *. cbn [fst snd] in *.
    assert (a' = a) as -> by congruence.
    split; [by exists err|]. split; [|split].
    + destruct Hinv1 as [_ _ _ _ _ Hst1]. rewrite Ha1 in Hst1.
      destruct Hst1 as (? & ? & ? & _ & _ & _ & _ & _ & _ & -> & _).
      rewrite seal_trace_snoc, Hsealed, Hpb.
      by rewrite (inv_log _ _ _ _ Hinv).
    + rewrite (inv_log _ _ _ _ Hinv1), (inv_log _ _ _ _ Hinv), length_app.
      simpl. lia.
    + apply (inv_pending _ _ _ _ Hinv1).
Qed.

Lemma lazy_write_buffers_witness :
  let cs := [CallLazyWrite [1; 2]] in
  let sw := run cs (NewShadowsocksWriter (new_sink reliable) testCipher
                      testEntropy) in
  let new := NewShadowsocksWriter (new_sink reliable) testCipher
               testEntropy in
  let dry := NewShadowsocksWriter (new_sink reliable) testCipher
               noEntropy in
  let full := replicate payloadSizeMask 0 in
  ((pending sw + length [3] < payloadSizeMask)%nat
   ∧ writer (LazyWrite [3] sw).1 = writer sw
   ∧ pending_bytes testAEAD (LazyWrite [3] sw).1 = [1; 2; 3])
  ∧ (aead (LazyWrite [3] dry).1 = None
     ∧ pending (LazyWrite [3] dry).1 = 0%nat)
  ∧ ((pending new + length full = payloadSizeMask)%nat
     ∧ length (sink_log (writer (LazyWrite full new).1)) = 1%nat
     ∧ pending (LazyWrite full new).1 = 0%nat).
Proof.
  intros cs sw new dry full.
  assert (pending sw + length [3] < payloadSizeMask)%nat as Hlt
    by (apply Nat.ltb_lt; vm_compute; reflexivity).
  assert (aead (LazyWrite [3] sw).1 = Some testAEAD) as Ha
    by (vm_compute; reflexivity).
  assert (aead (LazyWrite [3] dry).1 = None) as Hnone
    by (vm_compute; reflexivity).
  assert (pending new + length full = payloadSizeMask)%nat as Hfull
    by (vm_compute; reflexivity).
  assert (aead (LazyWrite full new).1 = Some testAEAD) as Ha'
    by (vm_compute; reflexivity).
  split; [|split].
  - destruct (lazy_write_buffers reliable testCipher testEntropy cs [3])
      as (Hshort & _ & _).
    destruct (Hshort Hlt) as (Hw & _ & Hb).
    destruct (Hb testAEAD Ha) as (_ & _ & Hpb).
    split; [exact Hlt|]. split; [exact Hw|].
    unfold sw in Hpb. unfold sw. rewrite Hpb. vm_compute. reflexivity.
  - destruct (lazy_write_buffers reliable testCipher noEntropy [] [3])
      as (_ & Hfail & _).
    destruct (Hfail Hnone) as (_ & Hp0 & _).
    split; [exact Hnone|exact Hp0].
  - destruct (lazy_write_buffers reliable testCipher testEntropy [] full)
      as (_ & _ & Hemit).
    destruct (Hemit Hfull testAEAD Ha') as (_ & _ & Hlog & Hp0).
    split; [exact Hfull|]. split; [exact Hlog|exact Hp0].
Defined.

End LazyWriteCases.

(** ** The salt and the sink writes *)

Section SaltOnce.
Import shadowsocksWriter.

(** C6. On a writer reached by any sequence of calls, nothing has been
    written to the sink before the writer is initialised; once it is,
    with an AEAD of exact overhead and a counter that has not wrapped,
    the sink writes are one per chunk, the first being the salt followed
    by the sealed length and the sealed payload of the first chunk, and
    every later one a sealed length followed by a sealed payload.  The
    salt is the one drawn from the entropy source, from which the AEAD
    was derived, and it sits at the start of [buf].  The chunks are those
    of the data: over [Write], [LazyWrite] and [Flush] calls on a sink
    that takes every write, they hold, in order, every byte handed to
    the writer that is not pending, so the first call that sends data
    sends the salt with it. *)
Theorem salt_in_first_write
    (behaviour : list (list byte) → option (nat * error))
    (c : Cipher) (e : Entropy) (cs : list call) :
  let sw := run cs (NewShadowsocksWriter (new_sink behaviour) c e) in
  (aead sw = None → sink_log (writer sw) = [])
  ∧ (∀ a, aead sw = Some a → exact_overhead a →
       nowrap (NonceSize a) (length (sink_log (writer sw))) →
       ∃ salt chunks,
         (∃ k, rand_ReadFull (rand sw) k (SaltSize c) = Ok salt)
         ∧ Encrypter c salt = Ok a
         ∧ length salt = SaltSize c
         ∧ take (SaltSize c) (buf sw) = salt
         ∧ sealed sw = seal_trace (NonceSize a) chunks
         ∧ sink_log (writer sw) = wire_writes a salt chunks
         ∧ sink_log (writer sw)
           = match chunks with
             | [] => []
             | ch :: rest =>
                 (salt ++ frame a 0 ch) :: imap (λ k, frame a (S k)) rest
             end)
  ∧ (behaviour = reliable → supported c → entropy_ok e →
     Forall slice_call cs →
     Z.of_nat (length (sink_log (writer sw))) <= 32768 →
     ∃ chunks pend,
       concat chunks ++ pend = concat (input <$> cs)
       ∧ pending sw = length pend
       ∧ match aead sw with
         | None => chunks = [] ∧ sink_log (writer sw) = []
         | Some a =>
             ∃ salt,
               length salt = SaltSize c
               ∧ Encrypter c salt = Ok a
               ∧ sealed sw = seal_trace (NonceSize a) chunks
               ∧ sink_log (writer sw) = wire_writes a salt chunks
         end).
Proof.
  intros sw. split; [|split].
  - destruct (run_inv c cs _ [] [] (New_inv behaviour c e))
      as (chunks & pend & [Hc Hp Hroom Hch Hlog Hst] & _ & _).
    fold sw in Hc, Hp, Hlog, Hst.
    intros Ha. rewrite Ha in Hst. destruct Hst as (_ & -> & _).
    by destruct (sink_log (writer sw)).
  - destruct (run_inv c cs _ [] [] (New_inv behaviour c e))
      as (chunks & pend & [Hc Hp Hroom Hch Hlog Hst] & _ & _).
    fold sw in Hc, Hp, Hlog, Hst.
    intros a Ha Hex Hnw. rewrite Ha in Hst.
    destruct Hst as (salt & sz & tail & Hbuf & Hsalt & Hsz & Htail & Henc
      & Hctr & Hsealed & Hwire & Hrand).
    assert (sink_log (writer sw) = wire_writes a salt chunks) as Hw
      by (apply Hwire; [exact Hex|by rewrite <- Hlog]).
    exists salt, chunks.
    split; [exact Hrand|]. split; [exact Henc|]. split; [exact Hsalt|].
    split; [rewrite Hbuf, <- Hsalt; apply take_app_length|].
    split; [exact Hsealed|]. split; [exact Hw|].
    rewrite Hw. by destruct chunks.
  - intros -> Hsup He Hcs Hlen.
    destruct (slice_reach c e cs Hsup He Hcs)
      as (chunks & pend & ([_ Hp _ _ Hlog Hst] & _) & Hcat).
    fold sw in Hp, Hlog, Hst.
    exists chunks, pend. split; [exact Hcat|]. split; [exact Hp|].
    destruct (aead sw) as [a|].
    + destruct Hst as (salt & _ & _ & _ & Hsalt & _ & _ & Henc & _ & Hsealed
                       & Hwire & _).
      destruct (Hsup salt Hsalt) as (enc & _ & Henc' & _ & Hex & Hns & _).
      assert (enc = a) as -> by congruence.
      exists salt. split; [exact Hsalt|]. split; [exact Henc|].
      split; [exact Hsealed|].
      apply Hwire; [exact Hex|]. unfold nowrap.
      assert (256 ^ 2 <= 256 ^ Z.of_nat (NonceSize a))
        by (apply Z.pow_le_mono_r; lia).
      change (256 ^ 2) with 65536 in *. lia.
    + destruct Hst as (_ & -> & _). split; [reflexivity|].
      simpl in Hlog. by destruct (sink_log (writer sw)).
Qed.

Lemma salt_in_first_write_witness :
  let cs := [CallLazyWrite [1]; CallWrite [2; 3]; CallWrite [4]] in
  let sw := run cs (NewShadowsocksWriter (new_sink reliable) testCipher
                      testEntropy) in
  aead sw = Some testAEAD
  ∧ nowrap (NonceSize testAEAD) (length (sink_log (writer sw)))
  ∧ Forall slice_call cs
  ∧ Z.of_nat (length (sink_log (writer sw))) <= 32768
  ∧ sink_log (writer sw)
    = [ [7; 7] ++ [0; 3; 0] ++ [1; 2; 3; 1]; [0; 1; 2] ++ [4; 3] ]
  ∧ ∃ chunks pend,
      concat chunks ++ pend = [1; 2; 3; 4] ∧ pending sw = length pend.
Proof.
  intros cs sw.
  assert (aead sw = Some testAEAD) as Ha by (vm_compute; reflexivity).
  assert (nowrap (NonceSize testAEAD) (length (sink_log (writer sw)))) as Hnw
    by (unfold nowrap; vm_compute; discriminate).
  assert (Forall slice_call cs) as Hcs by (repeat constructor).
  assert (Z.of_nat (length (sink_log (writer sw))) <= 32768) as Hlen
    by (vm_compute; discriminate).
  split; [exact Ha|]. split; [exact Hnw|]. split; [exact Hcs|].
  split; [exact Hlen|].
  destruct (salt_in_first_write reliable testCipher testEntropy cs)
    as (_ & Hshape & Hdata).
  split.
  - destruct (Hshape testAEAD Ha testAEAD_exact Hnw)
      as (salt & chunks & (k & Hk) & _ & _ & _ & Hs & _ & Hlog).
    assert (salt = [7; 7]) as -> by (vm_compute in Hk; congruence).
    assert (length (sealed sw) = 4%nat) as H4 by (vm_compute; reflexivity).
    unfold sw in H4. rewrite Hs, length_seal_trace in H4.
    destruct chunks as [|c0 [|c1 [|c2 chunks]]]; cbn [length] in H4;
      try lia.
    assert (sealed sw = [(nonce_of 12 0, PutUint16 3);
                         (nonce_of 12 1, [1; 2; 3]);
                         (nonce_of 12 2, PutUint16 1);
                         (nonce_of 12 3, [4])]) as Hv
      by (vm_compute; reflexivity).
    unfold sw in Hv. rewrite Hs in Hv.
    unfold seal_trace in Hv. cbn [imap concat chunk_seals app] in Hv.
    pose proof (f_equal (λ l, snd <$> l !! 1%nat) Hv) as H1.
    pose proof (f_equal (λ l, snd <$> l !! 3%nat) Hv) as H3.
    cbn [lookup list_lookup fmap option_fmap option_map snd] in H1, H3.
    injection H1 as ->. injection H3 as ->.
    unfold sw. rewrite Hlog. vm_compute. reflexivity.
  - destruct (Hdata eq_refl testCipher_supported testEntropy_ok Hcs Hlen)
      as (chunks & pend & Hcat & Hp & _).
    exists chunks, pend. split; [exact Hcat|exact Hp].
Defined.

End SaltOnce.

(** ** The end of the stream *)

Section EndOfStream.
Import chunkReader.

(** A [ReadChunk] that returns a payload has consumed the two blocks of
    one chunk, and its reader is initialised. *)
Lemma ReadChunk_Ok_blocks (cr : t) (pt : list byte) :
  reader_wf cr → (ReadChunk cr).2 = Ok pt →
  ∃ a ctr blocks,
    chunk_input cr
    = Some (a, ctr, blocks ++ remaining (reader (ReadChunk cr).1))
    ∧ aead (ReadChunk cr).1 = Some a
    ∧ length blocks
      = (2 + Overhead a + (length pt + Overhead a))%nat.
Proof.
  intros Hwf. unfold ReadChunk.
  destruct (init_cases cr) as (_ & _ & Hc).
  pose proof (init_wf cr) as Hb1.
  destruct (init cr) as [cr1 [a|e]]; cbn [fst snd] in *; [|discriminate].
  destruct Hc as (Hin & Ha1). specialize (Hb1 a Hwf eq_refl).
  pose proof mask_val as Hmask.
  destruct (readMessage_cases a (2 + Overhead a) cr1)
    as (_ & _ & Ha2 & Hm1).
  pose proof (readMessage_keeps a (2 + Overhead a) cr1 ltac:(lia))
    as (_ & Hb2).
  destruct (readMessage a (2 + Overhead a) cr1) as [cr2 [e|]];
    cbn [fst snd] in *; [discriminate|].
  destruct Hm1 as [(_ & _ & [=])|(Hle1 & Hr2 & _ & _)].
  cbv zeta.
  set (size := Z.to_nat (Z.land (Uint16 (buf cr2))
                           (Z.of_nat payloadSizeMask))).
  assert (size <= payloadSizeMask)%nat as Hsize.
  { pose proof (land_mask_bound (Uint16 (buf cr2))). subst size. lia. }
  destruct (Nat.ltb_spec (length (buf cr2)) (size + Overhead a))
    as [Hlt|Hfit]; [lia|].
  destruct (readMessage_cases a (size + Overhead a) cr2)
    as (_ & _ & Ha3 & Hm2).
  pose proof (readMessage_keeps a (size + Overhead a) cr2 Hfit)
    as (_ & Hb3).
  destruct (readMessage a (size + Overhead a) cr2) as [cr3 [e|]];
    cbn [fst snd] in *; [discriminate|].
  destruct Hm2 as [(_ & _ & [=])|(Hle2 & Hr3 & _ & _)].
  intros [= <-].
  assert (length (slice 0 size (buf cr3)) = size) as Hlen.
  { unfold slice. rewrite length_take, length_drop. lia. }
  set (rem := remaining (reader cr1)) in *.
  exists a, (counter cr1),
    (take (2 + Overhead a) rem
     ++ take (size + Overhead a) (drop (2 + Overhead a) rem)).
  rewrite Hr3, Hr2, Hlen.
  split; [by rewrite <- app_assoc, !take_drop|].
  split; [congruence|].
  rewrite Hr2 in Hle2. rewrite length_app, !length_take. lia.
Qed.

(** Where [k] successful [ReadChunk] calls leave the reader. *)
Lemma read_chunks_inv (k : nat) :
  ∀ (cr cr' : t) (pts : list (list byte)),
    reader_wf cr → read_chunks k cr = Some (cr', pts) →
    reader_wf cr'
    ∧ final (reader cr') = final (reader cr)
    ∧ ssCipher cr' = ssCipher cr
    ∧ length pts = k
    ∧ match k with
      | O => cr' = cr
      | S _ =>
          ∃ a ctr blocks,
            chunk_input cr = Some (a, ctr, blocks ++ remaining (reader cr'))
            ∧ aead cr' = Some a
            ∧ length blocks
              = sum_list_with
                  (λ pt, (2 + Overhead a + (length pt + Overhead a))%nat)
                  pts
      end.
Proof.
  induction k as [|k IH]; intros cr cr' pts Hwf; cbn [read_chunks].
  { intros [= <- <-]. by repeat split. }
  pose proof (ReadChunk_Ok_blocks cr) as Hone.
  pose proof (ReadChunk_wf cr Hwf) as Hwf1.
  destruct (ReadChunk_final cr) as (Hf1 & Hs1).
  destruct (ReadChunk cr) as [cr1 [pt|e]]; [|discriminate].
  cbn [fst snd] in *.
  destruct (Hone pt Hwf eq_refl) as (a & ctr & blocks & Hin & Ha1 & Hlen).
  destruct (read_chunks k cr1) as [[cr2 pts']|] eqn:Hrec; [|discriminate].
  intros [= <- <-].
  destruct (IH cr1 cr2 pts' Hwf1 Hrec) as (Hwf2 & Hf2 & Hs2 & Hl2 & Hpos).
  split; [exact Hwf2|]. split; [congruence|]. split; [congruence|].
  split; [cbn [length]; by rewrite Hl2|].
  destruct k as [|k].
  - subst cr2. destruct pts'; [|discriminate Hl2].
    exists a, ctr, blocks. split; [exact Hin|]. split; [exact Ha1|].
    cbn [sum_list_with]. lia.
  - destruct Hpos as (a' & ctr' & blocks' & Hin' & Ha' & Hlen').
    unfold chunk_input in Hin'. rewrite Ha1 in Hin'.
    injection Hin' as <- _ Hrem.
    exists a, ctr, (blocks ++ blocks').
    split; [by rewrite <- app_assoc, <- Hrem|]. split; [exact Ha'|].
    cbn [sum_list_with]. rewrite length_app. lia.
Qed.

(** C3. On a stream that ends with [io.EOF], read by a new reader whose
    first [k] calls of [ReadChunk] returned a payload, the reader stands
    at the start of the stream ([k = 0]) or right after the salt and [k]
    whole chunks.  The next [ReadChunk] reports [io.EOF] exactly when
    the stream ends there or right after the salt: it is empty, or it
    holds nothing after the salt, or nothing after the last whole chunk.
    A stream that ends inside the salt, inside the length block or
    anywhere before the end of the payload block gives
    [io.ErrUnexpectedEOF]. *)
Theorem eof_only_between_chunks (s : list byte) (c : Cipher) (k : nat)
    (cr : chunkReader.t) (pts : list (list byte)) :
  let cr0 :=
    readConverter.cr
      (readConverter.NewShadowsocksReader
         {| remaining := s; final := io_EOF |} c) in
  read_chunks k cr0 = Some (cr, pts) →
  let res := (ReadChunk cr).2 in
  match k with
  | O => cr = cr0
  | S _ =>
      ∃ a salt blocks,
        s = salt ++ blocks ++ remaining (reader cr)
        ∧ length salt = SaltSize c
        ∧ aead cr = Some a
        ∧ length pts = k
        ∧ length blocks
          = sum_list_with
              (λ pt, (2 + Overhead a + (length pt + Overhead a))%nat) pts
        ∧ (res = Err io_EOF ↔ remaining (reader cr) = [])
  end
  ∧ (res = Err io_EOF ↔
     (s = [] ∧ (0 < SaltSize c)%nat)
     ∨ ∃ a ctr, chunk_input cr = Some (a, ctr, []))
  ∧ (aead cr = None → (0 < length s < SaltSize c)%nat →
     res = Err io_ErrUnexpectedEOF)
  ∧ (∀ a ctr rem,
       chunk_input cr = Some (a, ctr, rem) →
       (0 < length rem < 2 + Overhead a)%nat →
       res = Err io_ErrUnexpectedEOF)
  ∧ (∀ a ctr lenblock rem sizefield,
       chunk_input cr = Some (a, ctr, lenblock ++ rem) →
       length lenblock = (2 + Overhead a)%nat →
       Open a ctr lenblock = Some sizefield → length sizefield = 2%nat →
       (length rem
        < Z.to_nat (Z.land (Uint16 sizefield) 0x3FFF) + Overhead a)%nat →
       res = Err io_ErrUnexpectedEOF).
Proof.
  intros cr0 Hk res.
  assert (reader_wf cr0) as Hwf0 by (intros a Ha; discriminate Ha).
  destruct (read_chunks_inv k cr0 cr pts Hwf0 Hk)
    as (Hwf & Hfin & Hc & Hlen & Hpos).
  change (final (reader cr0)) with io_EOF in Hfin.
  change (ssCipher cr0) with c in Hc.
  destruct (ReadChunk_eof_cases cr Hwf Hfin)
    as (Heof & Hsalt & Hlb & Hpb).
  fold res in Heof, Hsalt, Hlb, Hpb. rewrite Hc in Hsalt.
  assert (aead cr = None → k = 0%nat ∧ cr = cr0) as Hnew.
  { intros Ha. destruct k; [by split|].
    destruct Hpos as (? & ? & ? & _ & Ha' & _). congruence. }
  assert (res = Err io_EOF ↔
          (s = [] ∧ (0 < SaltSize c)%nat)
          ∨ ∃ a ctr, chunk_input cr = Some (a, ctr, [])) as Hiff.
  { rewrite Heof. split.
    - intros [(Ha & Hrem & Hsz)|Hin]; [left|by right].
      destruct (Hnew Ha) as (_ & ->). rewrite <- Hc.
      split; [exact Hrem|exact Hsz].
    - intros [(-> & Hsz)|Hin]; [|by right].
      destruct k.
      + subst cr. left. split; [reflexivity|]. split; [reflexivity|exact Hsz].
      + exfalso. destruct Hpos as (a & ctr & blocks & Hin & _).
        unfold chunk_input in Hin. cbn in Hin.
        destruct (SaltSize c); [lia|discriminate Hin]. }
  split; [|split; [exact Hiff|split; [|split; [exact Hlb|exact Hpb]]]].
  - destruct k as [|k]; [exact Hpos|].
    destruct Hpos as (a & ctr & blocks & Hin & Ha & Hbl).
    unfold chunk_input in Hin.
    cbn [aead reader remaining ssCipher cr0 readConverter.cr
         readConverter.NewShadowsocksReader] in Hin.
    destruct (Nat.leb_spec (SaltSize c) (length s)) as [Hle|];
      [|discriminate Hin].
    destruct (Decrypter c (take (SaltSize c) s)); [|discriminate Hin].
    injection Hin as <- _ Hrem.
    exists a0, (take (SaltSize c) s), blocks.
    split; [by rewrite <- Hrem, take_drop|].
    split; [rewrite length_take; lia|]. split; [exact Ha|].
    split; [exact Hlen|]. split; [exact Hbl|].
    rewrite Hiff. split.
    + intros [(-> & Hsz)|(a' & ctr' & Hin')].
      * simpl in Hle. lia.
      * unfold chunk_input in Hin'. rewrite Ha in Hin'.
        by injection Hin' as _ _ ->.
    + intros Hnil. right. exists a0, (counter cr).
      unfold chunk_input. by rewrite Ha, Hnil.
  - intros Ha Hmid. destruct (Hnew Ha) as (_ & ->).
    apply Hsalt; [reflexivity|exact Hmid].
Qed.

Lemma eof_only_between_chunks_witness :
  let new s :=
    readConverter.cr
      (readConverter.NewShadowsocksReader
         {| remaining := s; final := io_EOF |} testCipher) in
  let whole := [7; 7; 0; 1; 0; 42; 1] in
  let cut := [7; 7; 0; 1; 0; 42; 1; 0; 1] in
  (∃ cr pts, read_chunks 1 (new whole) = Some (cr, pts)
             ∧ (ReadChunk cr).2 = Err io_EOF)
  ∧ (∃ cr pts, read_chunks 1 (new cut) = Some (cr, pts)
               ∧ (ReadChunk cr).2 = Err io_ErrUnexpectedEOF)
  ∧ (ReadChunk (new [7])).2 = Err io_ErrUnexpectedEOF.
Proof.
  intros new whole cut.
  assert (∀ s, (ReadChunk (new s)).2 = Ok [42] →
               read_chunks 1 (new s) = Some ((ReadChunk (new s)).1, [[42]]))
    as Hone.
  { intros s Hs. cbn [read_chunks].
    destruct (ReadChunk (new s)) as [cr1 r]. cbn [fst snd] in *.
    by subst r. }
  assert (read_chunks 1 (new whole)
          = Some ((ReadChunk (new whole)).1, [[42]])) as Hw
    by (apply Hone; vm_compute; reflexivity).
  assert (read_chunks 1 (new cut)
          = Some ((ReadChunk (new cut)).1, [[42]])) as Hc
    by (apply Hone; vm_compute; reflexivity).
  assert (read_chunks 0 (new [7]) = Some (new [7], [])) as Hs
    by reflexivity.
  split; [|split].
  - exists (ReadChunk (new whole)).1, [[42]]. split; [exact Hw|].
    destruct (eof_only_between_chunks whole testCipher 1 _ _ Hw)
      as (_ & Hclean & _).
    apply Hclean. right.
    exists testAEAD, (increment (increment (replicate 12 0))).
    vm_compute. reflexivity.
  - exists (ReadChunk (new cut)).1, [[42]]. split; [exact Hc|].
    destruct (eof_only_between_chunks cut testCipher 1 _ _ Hc)
      as (_ & _ & _ & Hlb & _).
    apply (Hlb testAEAD (increment (increment (replicate 12 0))) [0; 1]).
    + vm_compute. reflexivity.
    + vm_compute. lia.
  - destruct (eof_only_between_chunks [7] testCipher 0 _ _ Hs)
      as (_ & _ & Hsalt & _).
    apply Hsalt; [reflexivity|vm_compute; lia].
Defined.

End EndOfStream.
